(** * Verification of the Canopy send plugin (Python implementation)

    A shallow embedding of the key encoder ([plugin/proto_utils.py],
    [plugin/core/keys.py]), the validator ([plugin/core/validation.py]) and
    the transaction engine ([plugin/core/contract.py]), followed by the
    properties of the specification settled against it. *)

From Stdlib Require Import ZArith Strings.String Strings.Ascii Strings.Byte List Bool Lia.
From Stdlib Require Import DecimalString.
Import ListNotations.

Open Scope Z_scope.

(** ** Python values *)

Module Py.

(** [bytes] objects. *)
Definition bytes := list byte.

(** [str] objects: sequences of Unicode code points. *)
Definition str := list N.

(** A literal of the source, as a [str] (ASCII text only). *)
Definition lit (s : string) : str :=
  List.map N_of_ascii (list_ascii_of_string s).

(** A [bytes] literal of the source, [b"..."]. *)
Definition blit (s : string) : bytes := list_byte_of_string s.

(** [str(n)] for an [int]. *)
Definition str_of_int (n : Z) : string := NilZero.string_of_int (Z.to_int n).

(** The value of a byte, [b[i]]. *)
Definition byte_val (b : byte) : Z := Z.of_N (Byte.to_N b).

(** The byte whose value is [n mod 256]. *)
Definition byte_of_Z (n : Z) : byte :=
  match Byte.of_N (Z.to_N (n mod 256)) with
  | Some b => b
  | None => x00
  end.

(** [a == b] on [bytes]. *)
Definition bytes_eq (a b : bytes) : bool :=
  if list_eq_dec Byte.byte_eq_dec a b then true else false.

(** Exceptions.  Built-in exceptions carry [str(e)]; [PluginException] and its
    subclasses ([plugin/core/exceptions.py], [plugin/socket/exceptions.py])
    carry the class, the message, the numeric code and the module tag. *)
Inductive plugin_class :=
| ClsPluginException
| ClsInvalidAddressError
| ClsInvalidAmountError
| ClsInsufficientFundsError
| ClsFeeBelowLimitError
| ClsUnsupportedMessageTypeError
| ClsPluginNotInitializedError
| ClsParameterError
| ClsSocketError.

Inductive exception :=
| ValueError (msg : string)
| OtherError (msg : string)
| PluginExc (cls : plugin_class) (msg : string) (code : Z) (module : string).

(** [str(e)]. *)
Definition str_of_exc (e : exception) : string :=
  match e with
  | ValueError m => m
  | OtherError m => m
  | PluginExc _ m _ _ => m
  end.

(** Results of code that may raise. *)
Definition result (A : Type) := (exception + A)%type.

Definition ok {A} (a : A) : result A := inr a.
Definition raise {A} (e : exception) : result A := inl e.

Definition rbind {A B} (r : result A) (k : A -> result B) : result B :=
  match r with
  | inl e => inl e
  | inr a => k a
  end.

(** Sequencing, for code that may raise and for code that also talks to the
    host. *)
Class Monad (M : Type -> Type) := {
  ret : forall {A}, A -> M A;
  bind : forall {A B}, M A -> (A -> M B) -> M B
}.

#[export] Instance result_monad : Monad result :=
  {| ret := @ok; bind := @rbind |}.

End Py.

Import Py.

Notation "x <-- r ;; k" := (bind r (fun x => k))
  (at level 61, r at next level, right associativity).


(** ** Built-in conversions of Python used by the sources *)

Module Builtins.

(** What the interpreter fixes and the sources do not: the Unicode database
    behind [int(str)] for characters outside ASCII, and the limit on the
    number of digits [int(str)] converts ([sys.get_int_max_str_digits()],
    which is [0] for no limit and at least [640] otherwise). *)
Class Interp := {
  to_decimal : N -> option N;
  is_space : N -> bool;
  max_str_digits : nat;
  to_decimal_lt : forall c d, to_decimal c = Some d -> (d < 10)%N;
  max_str_digits_ok : max_str_digits = 0%nat \/ (640 <= max_str_digits)%nat
}.

(** ASCII white space: tab, line feed, vertical tab, form feed, carriage
    return and the space. *)
Definition ascii_space (c : N) : bool :=
  ((9 <=? c) && (c <=? 13) || (c =? 32))%N.

Definition ascii_digit (c : N) : bool := ((48 <=? c) && (c <=? 57))%N.

(** Value of a hexadecimal digit. *)
Definition hexval (c : N) : option N :=
  if ascii_digit c then Some (c - 48)%N
  else if ((97 <=? c) && (c <=? 102))%N then Some (c - 87)%N
  else if ((65 <=? c) && (c <=? 70))%N then Some (c - 55)%N
  else None.

(** [s.startswith(p)]. *)
Fixpoint startswith (s p : str) {struct p} : bool :=
  match p, s with
  | [], _ => true
  | _ :: _, [] => false
  | a :: p', c :: s' => (c =? a)%N && startswith s' p'
  end.

(** [s.endswith(p)] on the strings of messages and type urls. *)
Definition endswith (s p : string) : bool :=
  let n := String.length s in
  let m := String.length p in
  (m <=? n)%nat && String.eqb (String.substring (n - m) m s) p.

(** UTF-8 encoding of one code point; surrogates cannot be encoded. *)
Definition utf8_char (c : N) : option bytes :=
  let b (n : N) := byte_of_Z (Z.of_N n) in
  if (c <? 128)%N then Some [b c]
  else if (c <? 2048)%N then
    Some [b (192 + c / 64); b (128 + c mod 64)]%N
  else if (c <? 65536)%N then
    if ((55296 <=? c) && (c <=? 57343))%N then None
    else Some [b (224 + c / 4096); b (128 + (c / 64) mod 64);
               b (128 + c mod 64)]%N
  else if (c <? 1114112)%N then
    Some [b (240 + c / 262144); b (128 + (c / 4096) mod 64);
          b (128 + (c / 64) mod 64); b (128 + c mod 64)]%N
  else None.

(** [s.encode()]. *)
Fixpoint encode (s : str) : result bytes :=
  match s with
  | [] => ok []
  | c :: rest =>
      match utf8_char c with
      | None => raise (ValueError "'utf-8' codec can't encode character")
      | Some bs => r <-- encode rest ;; ok (bs ++ r)
      end
  end.

(** [bytes.fromhex(s)]: pairs of hexadecimal digits, ASCII white space
    allowed between the pairs. *)
Fixpoint fromhex (s : str) : result bytes :=
  match s with
  | [] => ok []
  | c :: rest =>
      if ascii_space c then fromhex rest
      else
        match hexval c, rest with
        | Some top, d :: rest' =>
            match hexval d with
            | Some bot =>
                r <-- fromhex rest' ;;
                ok (byte_of_Z (Z.of_N (top * 16 + bot)) :: r)
            | None =>
                raise (ValueError "non-hexadecimal number found in fromhex() arg")
            end
        | _, _ =>
            raise (ValueError "non-hexadecimal number found in fromhex() arg")
        end
  end.

Section IntOfStr.
Context {I : Interp}.

(** The copy of a [str] that [int] parses: ASCII kept, other white space
    turned into a space, other decimal digits into ASCII digits, anything
    else into a question mark. *)
Definition to_ascii (c : N) : N :=
  if (c <? 127)%N then c
  else if is_space c then 32%N
  else match to_decimal c with
       | Some d => (48 + d)%N
       | None => 63%N
       end.

Fixpoint skip_spaces (s : str) : str :=
  match s with
  | c :: rest => if ascii_space c then skip_spaces rest else s
  | [] => []
  end.

(** Digits with single underscores between them: the value read so far, the
    number of digits, whether the last character was an underscore. *)
Fixpoint scan_digits (s : str) (acc : Z) (n : nat) (us : bool)
  : option (Z * nat * str) :=
  match s with
  | c :: rest =>
      if ascii_digit c then
        scan_digits rest (acc * 10 + (Z.of_N c - 48)) (S n) false
      else if (c =? 95)%N then
        if us then None else scan_digits rest acc n true
      else if us then None else Some (acc, n, s)
  | [] => if us then None else Some (acc, n, [])
  end.

(** [int(s)] for a [str], base 10. *)
Definition int_of_str (s : str) : result Z :=
  let bad := ValueError "invalid literal for int() with base 10" in
  let s1 := skip_spaces (List.map to_ascii s) in
  let '(sign, s2) :=
    match s1 with
    | 43%N :: r => (1, r)
    | 45%N :: r => (-1, r)
    | _ => (1, s1)
    end in
  match s2 with
  | 95%N :: _ => raise bad
  | _ =>
      match scan_digits s2 0 0 false with
      | None => raise bad
      | Some (v, n, rest) =>
          if (n =? 0)%nat then raise bad
          else if negb (max_str_digits =? 0)%nat && (max_str_digits <? n)%nat
          then raise (ValueError "Exceeds the limit for integer string conversion")
          else match skip_spaces rest with
               | [] => ok (sign * v)
               | _ :: _ => raise bad
               end
      end
  end.

End IntOfStr.

(** An interpreter whose Unicode database is reduced to ASCII, with the
    default limit of 4300 digits. *)
Definition ascii_interp : Interp := {|
  to_decimal := fun _ => None;
  is_space := fun _ => false;
  max_str_digits := 4300;
  to_decimal_lt := fun c d (H : None = Some d) =>
    match H in _ = y return match y with
                            | None => True
                            | Some _ => (d < 10)%N
                            end with
    | eq_refl => Logic.I
    end;
  max_str_digits_ok := or_intror (proj1 (Nat.leb_le 640 4300) eq_refl)
|}.

End Builtins.

Import Builtins.

(** ** plugin/proto_utils.py *)

Module ProtoUtils.

(** [bytearray.append(n)]: raises [ValueError] unless [n] is in [range(256)]. *)
Definition bytearray_append (r : bytes) (n : nat) : result bytes :=
  match Byte.of_nat n with
  | Some b => ok (r ++ [b])
  | None => raise (ValueError "byte must be in range(0, 256)")
  end.

(** One iteration of the loop of [join_len_prefix]; [None] and [b""] are the
    falsy items. *)
Definition join_step (res : bytes) (item : option bytes) : result bytes :=
  match item with
  | None => ok res
  | Some [] => ok res
  | Some it =>
      if (255 <? length it)%nat
      then raise (ValueError ("Item too long: " ++
                   str_of_int (Z.of_nat (length it)) ++ " bytes (max 255)"))
      else (r <-- bytearray_append res (length it) ;; ok (r ++ it))
  end.

Fixpoint join_loop (res : bytes) (items : list (option bytes)) : result bytes :=
  match items with
  | [] => ok res
  | item :: rest => r <-- join_step res item ;; join_loop r rest
  end.

Definition join_len_prefix (items : list (option bytes)) : result bytes :=
  join_loop [] items.

(** [struct.pack('>Q', v)]. *)
Definition pack_be64 (v : Z) : bytes :=
  List.map (fun i => byte_of_Z (Z.land (Z.shiftr v (8 * i)) 255))
           [7; 6; 5; 4; 3; 2; 1; 0].

(** The number a big-endian byte string denotes. *)
Definition be_value (b : bytes) : Z :=
  fold_left (fun acc x => acc * 256 + byte_val x) b 0.

(** Values the sources type as [Union[int, str]]. *)
Inductive int_or_str :=
| PInt (n : Z)
| PStr (s : str).

(** How an [int_or_str] prints in an f-string. *)
Definition show_int_or_str (v : int_or_str) : string :=
  match v with
  | PInt n => str_of_int n
  | PStr s => string_of_list_ascii (List.map ascii_of_N s)
  end.

Section FormatUint64.
Context {I : Interp}.

Definition format_uint64 (value : int_or_str) : result bytes :=
  v <-- match value with
        | PStr s => int_of_str s
        | PInt n => ok n
        end ;;
  if (v <? 0) || (2 ^ 64 <=? v)
  then raise (ValueError ("Invalid uint64 value: " ++ str_of_int v))
  else ok (pack_be64 v).

End FormatUint64.

End ProtoUtils.

Import ProtoUtils.

(** ** plugin/core/keys.py *)

Module Keys.

Definition ACCOUNT_PREFIX : bytes := [x01].
Definition POOL_PREFIX : bytes := [x02].
Definition PARAMS_PREFIX : bytes := [x07].

(** Values the sources type as [Union[bytes, str]]. *)
Inductive Address :=
| AddrBytes (b : bytes)
| AddrStr (s : str).

Definition ChainId := int_or_str.

Definition key_for_account (address : Address) : result bytes :=
  address_bytes <-- match address with
                    | AddrBytes b => ok b
                    | AddrStr s => encode s
                    end ;;
  join_len_prefix [Some ACCOUNT_PREFIX; Some address_bytes].

Definition key_for_fee_params : result bytes :=
  let suffix := blit "/f/" in
  join_len_prefix [Some PARAMS_PREFIX; Some suffix].

Definition key_for_fee_pool {I : Interp} (chain_id : ChainId) : result bytes :=
  chain_id_bytes <-- format_uint64 chain_id ;;
  join_len_prefix [Some POOL_PREFIX; Some chain_id_bytes].

End Keys.

Import Keys.

(** ** plugin/core/validation.py *)

Module Validation.

Definition Amount := int_or_str.

(** The [try] body of [validate_address]. *)
Definition address_bytes_of (address : Address) : result bytes :=
  match address with
  | AddrStr s =>
      if startswith s (lit "0x") then fromhex (skipn 2 s) else encode s
  | AddrBytes b => ok b
  end.

Definition validate_address (address : Address) : bool :=
  match address_bytes_of address with
  | inr address_bytes => (List.length address_bytes =? 20)%nat
  | inl _ => false
  end.

Definition normalize_address (address : Address) : result bytes :=
  if negb (validate_address address)
  then raise (ValueError "Invalid address: must be exactly 20 bytes")
  else match address with
       | AddrStr s =>
           if startswith s (lit "0x") then fromhex (skipn 2 s) else encode s
       | AddrBytes b => ok b
       end.

Section Amounts.
Context {I : Interp}.

(** The [try] body of [validate_amount], up to the comparison. *)
Definition amount_int_of (amount : Amount) : result Z :=
  match amount with
  | PStr s => int_of_str s
  | PInt n => ok n
  end.

Definition validate_amount (amount : Amount) : bool :=
  match amount_int_of amount with
  | inr amount_int => 0 <? amount_int
  | inl _ => false
  end.

Definition normalize_amount (amount : Amount) : result Z :=
  if negb (validate_amount amount)
  then raise (ValueError "Invalid amount: must be greater than 0")
  else match amount with
       | PStr s => int_of_str s
       | PInt n => ok n
       end.

End Amounts.

End Validation.

Import Validation.

(** ** Wire messages

    The generated message classes ([account_pb2], [tx_pb2], [plugin_pb2]) are
    not part of the sources; the records below carry the fields the contract
    reads and writes. *)

Module Proto.

Record PluginError := {
  err_code : Z;
  err_module : string;
  err_msg : string
}.

Record Account := { acc_address : bytes; acc_amount : Z }.
Record Pool := { pool_id : Z; pool_amount : Z }.
Record FeeParams := { send_fee : Z }.
Record MessageSend := { from_address : bytes; to_address : bytes; amount : Z }.

(** [google.protobuf.Any]. *)
Record AnyMsg := { type_url : string; value : bytes }.
Record Transaction := { msg : AnyMsg; fee : Z }.
Record PluginCheckRequest := { check_tx_of : Transaction }.
Record PluginDeliverRequest := { deliver_tx_of : Transaction }.

Record PluginKeyRead := { query_id : Z; read_key : bytes }.
Record PluginStateReadRequest := { keys : list PluginKeyRead }.
Record PluginStateEntry := { entry_key : bytes; entry_value : bytes }.
Record PluginReadResult := {
  result_query_id : Z;
  entries : list PluginStateEntry
}.
Record PluginStateReadResponse := {
  read_error : option PluginError;
  results : list PluginReadResult
}.

Record PluginSetOp := { set_key : bytes; set_value : bytes }.
Record PluginDeleteOp := { delete_key : bytes }.
Record PluginStateWriteRequest := {
  sets : list PluginSetOp;
  deletes : list PluginDeleteOp
}.
Record PluginStateWriteResponse := { write_error : option PluginError }.

Record PluginCheckResponse := {
  recipient : bytes;
  authorized_signers : list bytes;
  check_error : option PluginError
}.
Record PluginDeliverResponse := { deliver_error : option PluginError }.

(** Modelled from the spec: the generated classes [Account] and [Pool] are
    missing from the sources.  The spec gives their amounts (and the chain id)
    as non-negative 64-bit integers; constructing a message with a value
    outside that range raises [ValueError]. *)
Definition uint64_ok (n : Z) : bool := (0 <=? n) && (n <? 2 ^ 64).

Definition new_Account (address : bytes) (amount : Z) : result Account :=
  if uint64_ok amount
  then ok {| acc_address := address; acc_amount := amount |}
  else raise (ValueError ("Value out of range: " ++ str_of_int amount)).

Definition new_Pool (id amount : Z) : result Pool :=
  if negb (uint64_ok id)
  then raise (ValueError ("Value out of range: " ++ str_of_int id))
  else if negb (uint64_ok amount)
  then raise (ValueError ("Value out of range: " ++ str_of_int amount))
  else ok {| pool_id := id; pool_amount := amount |}.

(** The serialisation the generated classes provide: [SerializeToString],
    [FromString] and [ParseFromString], the last three raising on bytes that
    do not decode. *)
Class Codec := {
  serialize_account : Account -> bytes;
  serialize_pool : Pool -> bytes;
  account_from_string : bytes -> result Account;
  pool_from_string : bytes -> result Pool;
  fee_params_from_string : bytes -> result FeeParams;
  message_send_from_string : bytes -> result MessageSend
}.

End Proto.

Import Proto.

(** ** plugin/core/exceptions.py *)

Module Exceptions.

Local Open Scope string_scope.

Module PluginErrorCode.
Definition PLUGIN_TIMEOUT := 1.
Definition MARSHAL := 2.
Definition UNMARSHAL := 3.
Definition FAILED_PLUGIN_READ := 4.
Definition FAILED_PLUGIN_WRITE := 5.
Definition INVALID_PLUGIN_RESP_ID := 6.
Definition UNEXPECTED_FSM_TO_PLUGIN := 7.
Definition INVALID_FSM_TO_PLUGIN_MESSAGE := 8.
Definition INSUFFICIENT_FUNDS := 9.
Definition FROM_ANY := 10.
Definition INVALID_MESSAGE_CAST := 11.
Definition INVALID_ADDRESS := 12.
Definition INVALID_AMOUNT := 13.
Definition TX_FEE_BELOW_STATE_LIMIT := 14.
End PluginErrorCode.

Definition DEFAULT_MODULE : string := "plugin".

(** [PluginException(message, code, module)], raised directly. *)
Definition PluginException (message : string) (code : Z) (module : string)
  : exception :=
  PluginExc ClsPluginException message code module.

(** [PluginException.to_protobuf]; the other exceptions have no such method,
    the contract wraps them first. *)
Definition to_protobuf (e : exception) : PluginError :=
  match e with
  | PluginExc _ m c md => {| err_code := c; err_module := md; err_msg := m |}
  | ValueError m | OtherError m =>
      {| err_code := 1; err_module := "contract"; err_msg := m |}
  end.

(** [b.hex()]. *)
Definition hex_digit (n : N) : ascii :=
  ascii_of_N (if (n <? 10)%N then 48 + n else 87 + n).

Fixpoint hex (b : bytes) : string :=
  match b with
  | [] => EmptyString
  | x :: rest =>
      let n := Byte.to_N x in
      String (hex_digit (n / 16)) (String (hex_digit (n mod 16)) (hex rest))
  end.

Definition InvalidAddressError (address : option bytes) : exception :=
  let address_str :=
    match address with
    | None | Some [] => "unknown"
    | Some a => hex a
    end in
  PluginExc ClsInvalidAddressError ("Invalid address format: " ++ address_str)
            PluginErrorCode.INVALID_ADDRESS "contract".

Definition InvalidAmountError (amount : option int_or_str) : exception :=
  let message :=
    match amount with
    | Some a => "Invalid amount: " ++ show_int_or_str a
    | None => "Invalid amount"
    end in
  PluginExc ClsInvalidAmountError message
            PluginErrorCode.INVALID_AMOUNT "contract".

Definition InsufficientFundsError (required available : option Z)
  : exception :=
  let message :=
    match required, available with
    | Some r, Some a =>
        "Insufficient funds: required " ++ str_of_int r ++
        ", available " ++ str_of_int a
    | _, _ => "Insufficient funds"
    end in
  PluginExc ClsInsufficientFundsError message
            PluginErrorCode.INSUFFICIENT_FUNDS "contract".

Definition FeeBelowLimitError (fee minimum : option Z) : exception :=
  let message :=
    match fee, minimum with
    | Some f, Some m =>
        "Transaction fee " ++ str_of_int f ++
        " is below state minimum " ++ str_of_int m
    | _, _ => "Transaction fee is below state minimum"
    end in
  PluginExc ClsFeeBelowLimitError message
            PluginErrorCode.TX_FEE_BELOW_STATE_LIMIT "contract".

Definition UnsupportedMessageTypeError (message_type : string) : exception :=
  PluginExc ClsUnsupportedMessageTypeError
            ("Unsupported message type: " ++ message_type) 1 "contract".

Definition PluginNotInitializedError : exception :=
  PluginExc ClsPluginNotInitializedError
            "Plugin or config not initialized" 1 "contract".

Definition ParameterError (message : string) : exception :=
  PluginExc ClsParameterError message 1 "contract".

Definition create_check_error_response_from_exception (e : exception)
  : PluginCheckResponse :=
  {| recipient := []; authorized_signers := [];
     check_error := Some (to_protobuf e) |}.

Definition create_deliver_error_response_from_exception (e : exception)
  : PluginDeliverResponse :=
  {| deliver_error := Some (to_protobuf e) |}.

End Exceptions.

Import Exceptions.

(** ** plugin/core/contract.py *)

Module Contract.

(** What a call of the contract does that the host or a test can observe:
    the requests it sends through the socket client and the decoding of the
    transaction's message. *)
Inductive event :=
| EvStateRead (request : PluginStateReadRequest)
| EvStateWrite (request : PluginStateWriteRequest)
| EvParseMessage (data : bytes).

(** The state a call threads: the events so far, oldest first, and how many
    numbers were drawn from the random generator. *)
Record world := { events : list event; draws : nat }.

(** Code that may raise, send requests and draw random numbers.  Events stay
    recorded when an exception is raised after them. *)
Definition Exec (A : Type) := world -> result A * world.

#[export] Instance exec_monad : Monad Exec := {|
  ret := fun A (a : A) w => (ok a, w);
  bind := fun A B (m : Exec A) (k : A -> Exec B) w =>
            match m w with
            | (inr a, w') => k a w'
            | (inl e, w') => (inl e, w')
            end
|}.

Definition throw {A} (e : exception) : Exec A := fun w => (raise e, w).

(** Pure code that may raise, run inside [Exec]. *)
Definition lift {A} (r : result A) : Exec A := fun w => (r, w).

Definition emit (e : event) : Exec unit :=
  fun w => (ok tt, {| events := events w ++ [e]; draws := draws w |}).

(** [try: m except ... as e: h e]. *)
Definition try_except {A} (m : Exec A) (h : exception -> Exec A) : Exec A :=
  fun w =>
    match m w with
    | (inr a, w') => (inr a, w')
    | (inl e, w') => h e w'
    end.

(** [isinstance(e, PluginException)]. *)
Definition is_plugin_exception (e : exception) : bool :=
  match e with
  | PluginExc _ _ _ _ => true
  | _ => false
  end.

(** The [SocketClientPlugin] protocol: each call answers or raises. *)
Record SocketClientPlugin := {
  plugin_state_read : PluginStateReadRequest -> result PluginStateReadResponse;
  plugin_state_write :
    PluginStateWriteRequest -> result PluginStateWriteResponse
}.

(** plugin/config.py, the field the contract reads. *)
Record Config := { chain_id : Z }.

Record Contract := {
  config : option Config;
  plugin : option SocketClientPlugin;
  fsm_id : option Z
}.

Section WithEnvironment.

Context {I : Interp} {C : Codec}.

(** The generator behind [random.randint]: its [n]-th raw draw. *)
Variable random_source : nat -> Z.

(** [random.randint(a, b)]. *)
Definition randint (a b : Z) : Exec Z :=
  fun w =>
    (ok (a + random_source (draws w) mod (b - a + 1)),
     {| events := events w; draws := S (draws w) |}).

Definition state_read (p : SocketClientPlugin)
    (request : PluginStateReadRequest) : Exec PluginStateReadResponse :=
  _ <-- emit (EvStateRead request) ;;
  lift (plugin_state_read p request).

Definition state_write (p : SocketClientPlugin)
    (request : PluginStateWriteRequest) : Exec PluginStateWriteResponse :=
  _ <-- emit (EvStateWrite request) ;;
  lift (plugin_state_write p request).

(** [unmarshal(message_type, data)] of plugin/proto_utils.py, for a generated
    class whose [FromString] is [from_string].  The result is [None] for
    empty data and a message otherwise; a message object is always true in a
    condition, so [if not m] holds exactly for [None]. *)
Definition unmarshal {T} (from_string : bytes -> result T)
    (data : option bytes) : result (option T) :=
  match data with
  | None | Some [] => ok None
  | Some d =>
      match from_string d with
      | inr m => ok (Some m)
      | inl err => raise (ValueError ("Unmarshal failed: " ++ str_of_exc err))
      end
  end.

(** [message_send.ParseFromString(value)]. *)
Definition ParseFromString (data : bytes) : Exec MessageSend :=
  _ <-- emit (EvParseMessage data) ;;
  lift (message_send_from_string data).

(** [self.plugin] and [self.config], or [PluginNotInitializedError]. *)
Definition initialized (self : Contract)
  : Exec (SocketClientPlugin * Config) :=
  match plugin self, config self with
  | Some p, Some c => ret (p, c)
  | _, _ => throw PluginNotInitializedError
  end.

Definition _check_message_send (m : MessageSend) : result PluginCheckResponse :=
  if negb (validate_address (AddrBytes (from_address m)))
  then raise (InvalidAddressError (Some (from_address m)))
  else if negb (validate_address (AddrBytes (to_address m)))
  then raise (InvalidAddressError (Some (to_address m)))
  else if negb (validate_amount (PInt (amount m)))
  then raise (InvalidAmountError (Some (PInt (amount m))))
  else ok {| recipient := to_address m;
             authorized_signers := [from_address m];
             check_error := None |}.

(** The two handlers that close [check_tx]. *)
Definition check_handlers (e : exception) : Exec PluginCheckResponse :=
  if is_plugin_exception e
  then ret (create_check_error_response_from_exception e)
  else ret (create_check_error_response_from_exception
              (PluginException (str_of_exc e) 1 "contract")).

Definition check_tx (self : Contract) (id : Z) (request : PluginCheckRequest)
  : Exec PluginCheckResponse :=
  let tx := check_tx_of request in
  try_except
    (pc <-- initialized self ;;
     let '(p, _) := pc in
     fee_params_key <-- lift key_for_fee_params ;;
     fee_params_response <--
       state_read p {| keys := [ {| query_id := id;
                                    read_key := fee_params_key |} ] |} ;;
     match read_error fee_params_response with
     | Some err =>
         ret {| recipient := []; authorized_signers := [];
                check_error := Some err |}
     | None =>
         match results fee_params_response with
         | [] => throw (ParameterError "Fee parameters not found")
         | r0 :: _ =>
             match entries r0 with
             | [] => throw (ParameterError "Fee parameters not found")
             | e0 :: _ =>
                 let fee_params_bytes := entry_value e0 in
                 match fee_params_bytes with
                 | [] => throw (ParameterError "Fee parameters not found")
                 | _ :: _ =>
                     min_fees_opt <--
                       lift (unmarshal fee_params_from_string
                                       (Some fee_params_bytes)) ;;
                     match min_fees_opt with
                     | None =>
                         throw (ParameterError
                                  "Failed to decode fee parameters")
                     | Some min_fees =>
                         fees <--
                           try_except
                             (request_fee <--
                                lift (normalize_amount (PInt (fee tx))) ;;
                              min_send_fee <--
                                lift (normalize_amount
                                        (PInt (send_fee min_fees))) ;;
                              ret (request_fee, min_send_fee))
                             (fun error =>
                                throw (ParameterError
                                         ("Failed to normalize fee: " ++
                                          str_of_exc error))) ;;
                         let '(request_fee, min_send_fee) := fees in
                         if request_fee <? min_send_fee
                         then throw (FeeBelowLimitError (Some request_fee)
                                                        (Some min_send_fee))
                         else if endswith (type_url (msg tx))
                                          "/types.MessageSend"
                         then
                           message_send <--
                             ParseFromString (value (msg tx)) ;;
                           try_except
                             (lift (_check_message_send message_send))
                             (fun e =>
                                if is_plugin_exception e
                                then ret
                                  (create_check_error_response_from_exception e)
                                else throw e)
                         else throw (UnsupportedMessageTypeError
                                       (type_url (msg tx)))
                     end
                 end
             end
         end
     end)
    check_handlers.

Record query_ids := {
  from_query_id : Z;
  to_query_id : Z;
  fee_query_id : Z
}.

Definition _generate_query_ids : Exec query_ids :=
  f <-- randint 0 (2 ^ 53 - 1) ;;
  t <-- randint 0 (2 ^ 53 - 1) ;;
  p <-- randint 0 (2 ^ 53 - 1) ;;
  ret {| from_query_id := f; to_query_id := t; fee_query_id := p |}.

Record state_data := {
  from_bytes : option bytes;
  to_bytes : option bytes;
  fee_pool_bytes : option bytes
}.

(** [result.entries[0].value if result.entries else None]. *)
Definition first_value (r : PluginReadResult) : option bytes :=
  match entries r with
  | e :: _ => Some (entry_value e)
  | [] => None
  end.

(** One iteration of the loop over [response.results]. *)
Definition collect_result (q : query_ids) (d : state_data)
    (r : PluginReadResult) : state_data :=
  if result_query_id r =? from_query_id q then
    {| from_bytes := first_value r; to_bytes := to_bytes d;
       fee_pool_bytes := fee_pool_bytes d |}
  else if result_query_id r =? to_query_id q then
    {| from_bytes := from_bytes d; to_bytes := first_value r;
       fee_pool_bytes := fee_pool_bytes d |}
  else if result_query_id r =? fee_query_id q then
    {| from_bytes := from_bytes d; to_bytes := to_bytes d;
       fee_pool_bytes := first_value r |}
  else d.

(** The batched read request of one send message. *)
Definition read_request (q : query_ids) (from_key to_key fee_pool_key : bytes)
  : PluginStateReadRequest :=
  {| keys := [ {| query_id := fee_query_id q; read_key := fee_pool_key |};
               {| query_id := from_query_id q; read_key := from_key |};
               {| query_id := to_query_id q; read_key := to_key |} ] |}.

Definition _read_deliver_message_required_data (self : Contract)
    (m : MessageSend) : Exec state_data :=
  pc <-- initialized self ;;
  let '(p, cfg) := pc in
  q <-- _generate_query_ids ;;
  from_key <-- lift (key_for_account (AddrBytes (from_address m))) ;;
  to_key <-- lift (key_for_account (AddrBytes (to_address m))) ;;
  fee_pool_key <-- lift (key_for_fee_pool (PInt (chain_id cfg))) ;;
  response <-- state_read p (read_request q from_key to_key fee_pool_key) ;;
  match read_error response with
  | Some err =>
      throw (PluginException ("State read error: " ++ err_msg err) 4 "plugin")
  | None =>
      ret (fold_left (collect_result q) (results response)
                     {| from_bytes := None; to_bytes := None;
                        fee_pool_bytes := None |})
  end.

(** Truth value of an [Optional[bytes]]. *)
Definition truthy (b : option bytes) : bool :=
  match b with
  | None | Some [] => false
  | Some (_ :: _) => true
  end.

(** [try: r except Exception: h]. *)
Definition rcatch {A} (r : result A) (h : result A) : result A :=
  match r with
  | inr a => ok a
  | inl _ => h
  end.

Record unmarshaled_data := {
  from_account : option Account;
  to_account : Account;
  fee_pool : Pool;
  from_amount : Z
}.

Definition _unmarshal_deliver_message_required_data
    (from_b to_b fee_pool_b : option bytes) (m : MessageSend)
  : result unmarshaled_data :=
  from_acc <-- (if truthy from_b then unmarshal account_from_string from_b
                else ok None) ;;
  let to_addr := to_address m in
  to_acc <--
    rcatch (a <-- (if truthy to_b then unmarshal account_from_string to_b
                   else ok None) ;;
            match a with
            | Some acc => ok acc
            | None => new_Account to_addr 0
            end)
           (new_Account to_addr 0) ;;
  pool <--
    rcatch (a <-- (if truthy fee_pool_b
                   then unmarshal pool_from_string fee_pool_b
                   else ok None) ;;
            match a with
            | Some pl => ok pl
            | None => new_Pool 0 0
            end)
           (new_Pool 0 0) ;;
  let from_amt :=
    match from_acc with
    | Some acc => acc_amount acc
    | None => 0
    end in
  ok {| from_account := from_acc; to_account := to_acc; fee_pool := pool;
        from_amount := from_amt |}.

(** [marshal(message)] of plugin/proto_utils.py, for a generated class whose
    [SerializeToString] is [serialize]. *)
Definition marshal {T} (serialize : T -> bytes) (message : T) : result bytes :=
  ok (serialize message).

(** The two handlers that close [deliver_tx] and [_deliver_message_send]. *)
Definition deliver_handlers (e : exception) : Exec PluginDeliverResponse :=
  if is_plugin_exception e
  then ret (create_deliver_error_response_from_exception e)
  else ret (create_deliver_error_response_from_exception
              (PluginException (str_of_exc e) 1 "contract")).

Definition _deliver_message_send (self : Contract) (m : MessageSend)
    (fee : int_or_str) : Exec PluginDeliverResponse :=
  try_except
    (transaction_fee <-- lift (normalize_amount fee) ;;
     pc <-- initialized self ;;
     let '(p, cfg) := pc in
     sd <-- _read_deliver_message_required_data self m ;;
     ud <-- lift (_unmarshal_deliver_message_required_data
                    (from_bytes sd) (to_bytes sd) (fee_pool_bytes sd) m) ;;
     let from_amount := from_amount ud in
     message_amount <-- lift (normalize_amount (PInt (amount m))) ;;
     let amount_to_deduct := message_amount + transaction_fee in
     if from_amount <? amount_to_deduct
     then throw (InsufficientFundsError (Some amount_to_deduct)
                                        (Some from_amount))
     else
       let from_addr := from_address m in
       let to_addr := to_address m in
       from_key <-- lift (key_for_account (AddrBytes from_addr)) ;;
       to_key <-- lift (key_for_account (AddrBytes to_addr)) ;;
       fee_pool_key <-- lift (key_for_fee_pool (PInt (chain_id cfg))) ;;
       from_norm <-- lift (normalize_address (AddrBytes from_addr)) ;;
       updated_from_account <--
         lift (new_Account from_norm (from_amount - amount_to_deduct)) ;;
       let is_self_transfer := bytes_eq from_key to_key in
       to_norm <-- lift (normalize_address (AddrBytes to_addr)) ;;
       updated_to_account <--
         lift (if is_self_transfer
               then new_Account to_norm (from_amount - transaction_fee)
               else new_Account to_norm
                      (acc_amount (to_account ud) + message_amount)) ;;
       updated_fee_pool <--
         lift (new_Pool (chain_id cfg)
                        (pool_amount (fee_pool ud) + transaction_fee)) ;;
       pool_value <-- lift (marshal serialize_pool updated_fee_pool) ;;
       let sets0 := [ {| set_key := fee_pool_key; set_value := pool_value |} ] in
       sd1 <--
         (if (acc_amount updated_from_account =? 0) && negb is_self_transfer
          then ret (sets0, [ {| delete_key := from_key |} ])
          else
            from_value <--
              lift (marshal serialize_account updated_from_account) ;;
            ret (sets0 ++ [ {| set_key := from_key;
                               set_value := from_value |} ], [])) ;;
       let '(sets1, deletes) := sd1 in
       sets2 <--
         (if negb is_self_transfer
          then
            to_value <--
              lift (marshal serialize_account updated_to_account) ;;
            ret (sets1 ++ [ {| set_key := to_key; set_value := to_value |} ])
          else ret sets1) ;;
       write_response <--
         state_write p {| sets := sets2; deletes := deletes |} ;;
       ret {| deliver_error := write_error write_response |})
    deliver_handlers.

Definition deliver_tx (self : Contract) (request : PluginDeliverRequest)
  : Exec PluginDeliverResponse :=
  let tx := deliver_tx_of request in
  try_except
    (if endswith (type_url (msg tx)) "/types.MessageSend"
     then
       message_send <-- ParseFromString (value (msg tx)) ;;
       try_except
         (_deliver_message_send self message_send (PInt (fee tx)))
         (fun e =>
            if is_plugin_exception e
            then ret (create_deliver_error_response_from_exception e)
            else throw e)
     else throw (UnsupportedMessageTypeError (type_url (msg tx))))
    deliver_handlers.

End WithEnvironment.

End Contract.

Import Contract.

(** ** Observations on a call *)

Module Scenario.

(** The requests and the decodings among the events of a call. *)
Definition reads_of (evs : list event) : list PluginStateReadRequest :=
  flat_map (fun e => match e with EvStateRead r => [r] | _ => [] end) evs.

Definition writes_of (evs : list event) : list PluginStateWriteRequest :=
  flat_map (fun e => match e with EvStateWrite r => [r] | _ => [] end) evs.

Definition parses_of (evs : list event) : list bytes :=
  flat_map (fun e => match e with EvParseMessage d => [d] | _ => [] end) evs.

(** The key of the fee pool of a chain, as [key_for_fee_pool] builds it. *)
Definition fee_pool_key (c : Z) : bytes := [x01; x02; x08] ++ pack_be64 c.

(** The key of the fee parameters, as [key_for_fee_params] builds it. *)
Definition fee_params_key : bytes := [x01; x07; x03] ++ blit "/f/".

Section WithEnvironment.

Context {I : Interp} {C : Codec}.
Variable random_source : nat -> Z.

(** The query ids of a call that starts when [n] numbers have been drawn. *)
Definition ids_at (n : nat) : query_ids :=
  {| from_query_id := random_source n mod 2 ^ 53;
     to_query_id := random_source (S n) mod 2 ^ 53;
     fee_query_id := random_source (S (S n)) mod 2 ^ 53 |}.

(** What the loop over the results of a read response collects. *)
Definition collected (q : query_ids) (response : PluginStateReadResponse)
  : state_data :=
  fold_left (collect_result q) (results response)
            {| from_bytes := None; to_bytes := None; fee_pool_bytes := None |}.

(** A [deliver_tx] request that reaches the read of a send message: the
    contract is initialised, the message is a send message that decodes to
    [m], the fee normalises, and the three keys can be built. *)
Record send_call (self : Contract.Contract) (request : PluginDeliverRequest)
    (p : SocketClientPlugin) (cfg : Config) (m : MessageSend)
    (from_key to_key : bytes) : Prop := {
  call_plugin : plugin self = Some p;
  call_config : config self = Some cfg;
  call_url :
    endswith (type_url (msg (deliver_tx_of request))) "/types.MessageSend"
    = true;
  call_parse :
    message_send_from_string (value (msg (deliver_tx_of request))) = ok m;
  call_fee : 0 < fee (deliver_tx_of request);
  call_from_key : key_for_account (AddrBytes (from_address m)) = ok from_key;
  call_to_key : key_for_account (AddrBytes (to_address m)) = ok to_key;
  call_chain : 0 <= chain_id cfg < 2 ^ 64
}.

(** The host answers the batched read of that call, made when [n] numbers
    have been drawn, with [response], which carries no error and unmarshals
    to [ud]; the amount of the message normalises. *)
Record send_read (p : SocketClientPlugin) (cfg : Config) (m : MessageSend)
    (from_key to_key : bytes) (n : nat)
    (response : PluginStateReadResponse) (ud : unmarshaled_data) : Prop := {
  read_answer :
    plugin_state_read p
      (read_request (ids_at n) from_key to_key (fee_pool_key (chain_id cfg)))
    = ok response;
  read_no_error : read_error response = None;
  read_unmarshal :
    let sd := collected (ids_at n) response in
    _unmarshal_deliver_message_required_data
      (from_bytes sd) (to_bytes sd) (fee_pool_bytes sd) m = ok ud;
  read_amount : 0 < amount m
}.

(** A computation that sends no read request. *)
Definition no_read {A} (m : Exec A) : Prop :=
  forall w, reads_of (events (snd (m w))) = reads_of (events w).

(** The host answers the read of the fee parameters that [check_tx] makes
    with query id [id]: no error, a first result whose first entry is not
    empty and decodes to [min_fees]. *)
Record fee_read (self : Contract.Contract) (id : Z) (p : SocketClientPlugin)
    (min_fees : FeeParams) : Prop := {
  fee_plugin : plugin self = Some p;
  fee_config : config self <> None;
  fee_answer :
    exists response r0 e0 b bs,
      plugin_state_read p
        {| keys := [ {| query_id := id; read_key := fee_params_key |} ] |}
      = ok response /\
      read_error response = None /\
      hd_error (results response) = Some r0 /\
      hd_error (entries r0) = Some e0 /\
      entry_value e0 = b :: bs /\
      fee_params_from_string (b :: bs) = ok min_fees
}.

(** The addresses of the message are 20 bytes long, and the amounts the
    batch writes fit in 64 bits: the sender's balance, the fee pool with the
    fee added and, unless the transfer is a self-transfer, the recipient's
    balance with the amount added. *)
Record send_fits (m : MessageSend) (fee : Z) (from_key to_key : bytes)
    (ud : unmarshaled_data) : Prop := {
  fits_from_address : List.length (from_address m) = 20%nat;
  fits_to_address : List.length (to_address m) = 20%nat;
  fits_from : from_amount ud < 2 ^ 64;
  fits_pool : 0 <= pool_amount (fee_pool ud) /\
              pool_amount (fee_pool ud) + fee < 2 ^ 64;
  fits_to : from_key <> to_key ->
            0 <= acc_amount (to_account ud) /\
            acc_amount (to_account ud) + amount m < 2 ^ 64
}.

(** The write batch [_deliver_message_send] builds once the funds check has
    passed, in closed form. *)
Definition batch_of (cfg : Config) (m : MessageSend) (fee : Z)
    (from_key to_key : bytes) (ud : unmarshaled_data)
  : PluginStateWriteRequest :=
  let self_transfer := bytes_eq from_key to_key in
  let left := from_amount ud - (amount m + fee) in
  let drop := (left =? 0) && negb self_transfer in
  let pool_set :=
    {| set_key := fee_pool_key (chain_id cfg);
       set_value :=
         serialize_pool {| pool_id := chain_id cfg;
                           pool_amount := pool_amount (fee_pool ud) + fee |}
    |} in
  let from_set :=
    {| set_key := from_key;
       set_value :=
         serialize_account {| acc_address := from_address m;
                              acc_amount := left |} |} in
  let to_set :=
    {| set_key := to_key;
       set_value :=
         serialize_account
           {| acc_address := to_address m;
              acc_amount := acc_amount (to_account ud) + amount m |} |} in
  {| sets := [pool_set] ++ (if drop then [] else [from_set])
                        ++ (if self_transfer then [] else [to_set]);
     deletes := if drop then [ {| delete_key := from_key |} ] else [] |}.

End WithEnvironment.

End Scenario.

Import Scenario.

(** ** A host for the examples

    A key-value store behind the [SocketClientPlugin] protocol, and a
    fixed-width serialisation standing for the generated one. *)

Module Fixture.

Definition decode_account (b : bytes) : result Account :=
  if (List.length b =? 28)%nat
  then ok {| acc_address := firstn 20 b; acc_amount := be_value (skipn 20 b) |}
  else raise (OtherError "Error parsing message").

Definition decode_pool (b : bytes) : result Pool :=
  if (List.length b =? 16)%nat
  then ok {| pool_id := be_value (firstn 8 b);
             pool_amount := be_value (skipn 8 b) |}
  else raise (OtherError "Error parsing message").

Definition decode_fee_params (b : bytes) : result FeeParams :=
  if (List.length b =? 8)%nat
  then ok {| send_fee := be_value b |}
  else raise (OtherError "Error parsing message").

Definition decode_message_send (b : bytes) : result MessageSend :=
  if (List.length b =? 48)%nat
  then ok {| from_address := firstn 20 b;
             to_address := firstn 20 (skipn 20 b);
             amount := be_value (skipn 40 b) |}
  else raise (OtherError "Error parsing message").

Definition fixed_codec : Codec := {|
  serialize_account := fun a => acc_address a ++ pack_be64 (acc_amount a);
  serialize_pool := fun p => pack_be64 (pool_id p) ++ pack_be64 (pool_amount p);
  account_from_string := decode_account;
  pool_from_string := decode_pool;
  fee_params_from_string := decode_fee_params;
  message_send_from_string := decode_message_send
|}.

Definition store := list (bytes * bytes).

Fixpoint store_get (s : store) (k : bytes) : option bytes :=
  match s with
  | [] => None
  | (k', v) :: rest =>
      if bytes_eq k k' then Some v else store_get rest k
  end.

Definition answer_read (s : store) (r : PluginKeyRead) : PluginReadResult :=
  {| result_query_id := query_id r;
     entries := match store_get s (read_key r) with
                | Some v => [ {| entry_key := read_key r; entry_value := v |} ]
                | None => []
                end |}.

Definition store_plugin (s : store) : SocketClientPlugin := {|
  plugin_state_read := fun request =>
    ok {| read_error := None;
          results := List.map (answer_read s) (keys request) |};
  plugin_state_write := fun _ => ok {| write_error := None |}
|}.

Definition contract_on (s : store) : Contract.Contract := {|
  config := Some {| chain_id := 1 |};
  plugin := Some (store_plugin s);
  fsm_id := Some 7
|}.

(** Draws of the generator: [0, 1, 2, ...]. *)
Definition counting (n : nat) : Z := Z.of_nat n.

Definition alice : bytes := repeat x0a 20.
Definition bob : bytes := repeat x0b 20.

Definition account_key (a : bytes) : bytes := [x01; x01; x14] ++ a.

(** A serialised account and the serialised fee parameters. *)
Definition account_bytes (a : bytes) (amt : Z) : bytes := a ++ pack_be64 amt.
Definition fee_params_bytes (min_fee : Z) : bytes := pack_be64 min_fee.

Definition send_tx (from to : bytes) (amt fee : Z) : Transaction :=
  {| msg := {| type_url := "type.googleapis.com/types.MessageSend";
               value := from ++ to ++ pack_be64 amt |};
     fee := fee |}.

Definition start : world := {| events := []; draws := 0 |}.

Definition send_message (from to : bytes) (amt : Z) : MessageSend :=
  {| from_address := from; to_address := to; amount := amt |}.

(** The batched read of a send from [from] to [to] in [start], and the
    answer of the store. *)
Definition read_of (from to : bytes) : PluginStateReadRequest :=
  read_request (ids_at counting 0) (account_key from) (account_key to)
               (fee_pool_key 1).

Definition answer_of (s : store) (from to : bytes) : PluginStateReadResponse :=
  {| read_error := None;
     results := List.map (answer_read s) (keys (read_of from to)) |}.

(** What the contract unmarshals when the sender holds [b], the recipient
    [r] and the pool [q]. *)
Definition balances (from to : bytes) (b r q : Z) : unmarshaled_data :=
  {| from_account := Some {| acc_address := from; acc_amount := b |};
     to_account := {| acc_address := to; acc_amount := r |};
     fee_pool := {| pool_id := 0; pool_amount := q |};
     from_amount := b |}.

End Fixture.


(** ** The encoding rule as the specification words it *)

Module JoinSpec.

(** An empty or absent argument contributes nothing, any other one a length
    byte and its bytes. *)
Definition frame (item : option bytes) : bytes :=
  match item with
  | None | Some [] => []
  | Some b => byte_of_Z (Z.of_nat (List.length b)) :: b
  end.

Definition len_prefixed (items : list (option bytes)) : bytes :=
  flat_map frame items.

(** The argument is at most 255 bytes long. *)
Definition fits (item : option bytes) : bool :=
  match item with
  | None => true
  | Some b => (List.length b <=? 255)%nat
  end.

End JoinSpec.

Import JoinSpec.

(** ** Words of the specification about validation *)

Module ValidationSpec.

(** A hexadecimal character. *)
Definition is_hex (c : N) : bool :=
  match hexval c with
  | Some _ => true
  | None => false
  end.

(** The number a string of decimal digits denotes. *)
Definition decimal_value (ds : str) : Z :=
  fold_left (fun acc c => acc * 10 + (Z.of_N c - 48)) ds 0.

End ValidationSpec.

Import ValidationSpec.

(** ** The events of a call, in order *)

Module Traces.

Definition is_read (e : event) : bool :=
  match e with EvStateRead _ => true | _ => false end.

Definition is_write (e : event) : bool :=
  match e with EvStateWrite _ => true | _ => false end.

Definition is_parse (e : event) : bool :=
  match e with EvParseMessage _ => true | _ => false end.

(** A computation, started in any world, adds events [l] and gives a result
    [r] that satisfy [P]. *)
Definition emits {A} (P : result A -> list event -> Prop) (m : Exec A)
  : Prop :=
  forall w, exists l, events (snd (m w)) = events w ++ l /\ P (fst (m w)) l.

(** A computation that adds no event. *)
Definition pure {A} (m : Exec A) : Prop := emits (fun _ l => l = []) m.

(** No event, or one event of the kind [K]. *)
Definition at_most_one (K : event -> bool) (l : list event) : Prop :=
  l = [] \/ exists e, l = [e] /\ K e = true.

(** No event; or an event of the kind [K1]; or one of the kind [K1] followed
    by one of the kind [K2]. *)
Definition one_then_one (K1 K2 : event -> bool) (l : list event) : Prop :=
  l = [] \/
  (exists e1, l = [e1] /\ K1 e1 = true) \/
  (exists e1 e2, l = [e1; e2] /\ K1 e1 = true /\ K2 e2 = true).

(** The sequences of events of one [deliver_tx]: nothing; the decoding of the
    message; the decoding and the read; the decoding, the read and the
    write. *)
Definition deliver_trace (l : list event) : bool :=
  match l with
  | [] => true
  | [EvParseMessage _] => true
  | [EvParseMessage _; EvStateRead _] => true
  | [EvParseMessage _; EvStateRead _; EvStateWrite _] => true
  | _ => false
  end.

(** The sequences of events of one [check_tx]: nothing; the read of the fee
    parameters; the read and the decoding of the message. *)
Definition check_trace (l : list event) : bool :=
  match l with
  | [] => true
  | [EvStateRead _] => true
  | [EvStateRead _; EvParseMessage _] => true
  | _ => false
  end.

End Traces.

Import Traces.

(** ** Hosts that refuse, and what a read response holds for a query id *)

Module Hosts.

Import Fixture.

(** A host that answers every read with the error [err]. *)
Definition refusing_read (err : PluginError) : SocketClientPlugin := {|
  plugin_state_read := fun _ => ok {| read_error := Some err; results := [] |};
  plugin_state_write := fun _ => ok {| write_error := None |}
|}.

(** A host that reads from the store [s] and answers every write with the
    error [err]. *)
Definition refusing_write (s : store) (err : PluginError)
  : SocketClientPlugin := {|
  plugin_state_read := plugin_state_read (store_plugin s);
  plugin_state_write := fun _ => ok {| write_error := Some err |}
|}.

(** A serialisation as [fixed_codec], except that a decoded message has only
    the first 19 bytes of the sender's address. *)
Definition truncating_codec : Codec := {|
  serialize_account := @serialize_account fixed_codec;
  serialize_pool := @serialize_pool fixed_codec;
  account_from_string := decode_account;
  pool_from_string := decode_pool;
  fee_params_from_string := decode_fee_params;
  message_send_from_string := fun b =>
    m <-- decode_message_send b ;;
    ok {| from_address := firstn 19 (from_address m);
          to_address := to_address m;
          amount := amount m |}
|}.

Definition contract_with (p : SocketClientPlugin) : Contract.Contract := {|
  config := Some {| chain_id := 1 |};
  plugin := Some p;
  fsm_id := Some 7
|}.

(** The value of the last result tagged [id] in a list of results, [None]
    when there is none or when that result has no entry. *)
Definition last_value (id : Z) (rs : list PluginReadResult) : option bytes :=
  fold_left (fun acc r => if result_query_id r =? id then first_value r
                          else acc) rs None.

Section Defaults.
Context {C : Codec}.

(** The recipient's account [_unmarshal_deliver_message_required_data] works
    with: the stored record when there is one and it decodes, a fresh account
    with amount 0 otherwise. *)
Definition recipient_of (to_b : option bytes) (m : MessageSend) : Account :=
  let fresh := {| acc_address := to_address m; acc_amount := 0 |} in
  match to_b with
  | Some (b :: bs) =>
      match account_from_string (b :: bs) with
      | inr a => a
      | inl _ => fresh
      end
  | _ => fresh
  end.

(** The fee pool it works with, likewise. *)
Definition pool_of (fee_pool_b : option bytes) : Pool :=
  let fresh := {| pool_id := 0; pool_amount := 0 |} in
  match fee_pool_b with
  | Some (b :: bs) =>
      match pool_from_string (b :: bs) with
      | inr pl => pl
      | inl _ => fresh
      end
  | _ => fresh
  end.

End Defaults.

(** The bytes [check_tx] takes as fee parameters from a read response: the
    value of the first entry of the first result. *)
Definition fee_parameter_bytes (response : PluginStateReadResponse)
  : option bytes :=
  match results response with
  | r0 :: _ => first_value r0
  | [] => None
  end.

(** The error the handlers that close [check_tx], [deliver_tx] and
    [_deliver_message_send] report for an exception: its own code, module and
    message for a [PluginException]; code 1, module contract and the text of
    the exception for any other. *)
Definition reported (e : exception) : PluginError :=
  if is_plugin_exception e
  then to_protobuf e
  else to_protobuf (PluginException (str_of_exc e) 1 "contract").

(** The text [InvalidAddressError] prints for an address. *)
Definition address_text (a : bytes) : string :=
  match a with
  | [] => "unknown"%string
  | _ :: _ => hex a
  end.

End Hosts.

Import Hosts.

(** ** The answer of [check_tx] in closed form *)

Module Decision.

Section WithCodec.
Context {I : Interp} {C : Codec}.

(** The one read request of [check_tx]. *)
Definition fee_request (id : Z) : PluginStateReadRequest :=
  {| keys := [ {| query_id := id; read_key := fee_params_key |} ] |}.

(** The response of [check_tx] and the events that follow the read, once the
    fee parameters are decoded. *)
Definition check_decision (request : PluginCheckRequest) (min_fees : FeeParams)
  : PluginCheckResponse * list event :=
  let tx := check_tx_of request in
  let error := create_check_error_response_from_exception in
  if (fee tx <=? 0) || (send_fee min_fees <=? 0) then
    (error (ParameterError
              ("Failed to normalize fee: " ++
               "Invalid amount: must be greater than 0")), [])
  else if fee tx <? send_fee min_fees then
    (error (FeeBelowLimitError (Some (fee tx)) (Some (send_fee min_fees))), [])
  else if endswith (type_url (msg tx)) "/types.MessageSend" then
    (match message_send_from_string (value (msg tx)) with
     | inl e => {| recipient := []; authorized_signers := [];
                   check_error := Some (reported e) |}
     | inr m =>
         match _check_message_send m with
         | inr r => r
         | inl e => error e
         end
     end, [EvParseMessage (value (msg tx))])
  else (error (UnsupportedMessageTypeError (type_url (msg tx))), []).

(** The response of [check_tx] and the events of the call, for a contract
    whose socket client is [p]. *)
Definition check_answer (p : SocketClientPlugin) (id : Z)
    (request : PluginCheckRequest) : PluginCheckResponse * list event :=
  let error := create_check_error_response_from_exception in
  let read := EvStateRead (fee_request id) in
  match plugin_state_read p (fee_request id) with
  | inl e => ({| recipient := []; authorized_signers := [];
                 check_error := Some (reported e) |}, [read])
  | inr response =>
      match read_error response with
      | Some err =>
          ({| recipient := []; authorized_signers := [];
              check_error := Some err |}, [read])
      | None =>
          match fee_parameter_bytes response with
          | Some (b :: bs) =>
              match fee_params_from_string (b :: bs) with
              | inl err =>
                  (error (ValueError ("Unmarshal failed: " ++ str_of_exc err)),
                   [read])
              | inr min_fees =>
                  (fst (check_decision request min_fees),
                   read :: snd (check_decision request min_fees))
              end
          | _ => (error (ParameterError "Fee parameters not found"), [read])
          end
      end
  end.

End WithCodec.

End Decision.

Import Decision.

(** * Properties *)

(** ** Bytes *)

Lemma byte_val_of_Z (n : Z) : byte_val (byte_of_Z n) = n mod 256.
Proof.
  unfold byte_val, byte_of_Z.
  assert (Hr : 0 <= n mod 256 < 256) by (apply Z.mod_pos_bound; lia).
  destruct (Byte.of_N (Z.to_N (n mod 256))) as [b|] eqn:E.
  - apply Byte.to_of_N in E. rewrite E. lia.
  - apply Byte.of_N_None_iff in E. lia.
Qed.

Lemma of_nat_byte_of_Z (n : nat) :
  (n <= 255)%nat -> Byte.of_nat n = Some (byte_of_Z (Z.of_nat n)).
Proof.
  intros Hn. unfold byte_of_Z.
  rewrite Z.mod_small by lia.
  rewrite Byte.of_nat_via_N.
  rewrite <- nat_N_Z, N2Z.id.
  destruct (Byte.of_N (N.of_nat n)) eqn:E; [reflexivity|].
  apply Byte.of_N_None_iff in E. lia.
Qed.

(** ** The length-prefixed join *)

Lemma join_step_fits res item :
  fits item = true -> join_step res item = ok (res ++ frame item).
Proof.
  destruct item as [[|x b]|]; intros Hf.
  - simpl. now rewrite app_nil_r.
  - unfold fits in Hf. apply Nat.leb_le in Hf.
    unfold join_step, frame.
    destruct (Nat.ltb_spec 255 (List.length (x :: b))) as [H|H]; [lia|].
    unfold bytearray_append.
    rewrite of_nat_byte_of_Z by lia.
    cbn [bind result_monad rbind ok].
    now rewrite <- app_assoc.
  - simpl. now rewrite app_nil_r.
Qed.

Lemma join_step_too_long res item :
  fits item = false -> exists m, join_step res item = raise (ValueError m).
Proof.
  destruct item as [[|x b]|]; try discriminate.
  unfold fits. intros Hf. apply Nat.leb_gt in Hf.
  unfold join_step.
  destruct (Nat.ltb_spec 255 (List.length (x :: b))) as [H|H]; [|lia].
  eexists. reflexivity.
Qed.

Lemma join_loop_fits items : forall res,
  forallb fits items = true ->
  join_loop res items = ok (res ++ len_prefixed items).
Proof.
  induction items as [|item rest IH]; intros res Hall.
  - simpl. now rewrite app_nil_r.
  - cbn [forallb] in Hall. apply andb_true_iff in Hall as [Hi Hr].
    cbn [join_loop]. rewrite (join_step_fits res item Hi).
    cbn [bind result_monad rbind ok].
    rewrite IH by assumption.
    unfold len_prefixed. cbn [flat_map]. now rewrite <- app_assoc.
Qed.

Lemma join_loop_too_long items : forall res,
  forallb fits items = false ->
  exists m, join_loop res items = raise (ValueError m).
Proof.
  induction items as [|item rest IH]; intros res Hall.
  - discriminate.
  - cbn [forallb] in Hall. cbn [join_loop].
    destruct (fits item) eqn:Hi.
    + rewrite (join_step_fits res item Hi).
      cbn [bind result_monad rbind ok]. apply IH. exact Hall.
    + destruct (join_step_too_long res item Hi) as [m Hm].
      exists m. now rewrite Hm.
Qed.

(** C6. [join_len_prefix], on arguments of at most 255 bytes each, returns
    the concatenation in order of one length byte (whose value is the
    argument's length) and the argument's bytes, empty and absent arguments
    being skipped; an argument longer than 255 bytes makes it raise. *)
Theorem join_len_prefix_spec (items : list (option bytes)) :
  (forallb fits items = true ->
     join_len_prefix items = ok (len_prefixed items)) /\
  (forall b : bytes, (List.length b <= 255)%nat ->
     byte_val (byte_of_Z (Z.of_nat (List.length b))) =
     Z.of_nat (List.length b)) /\
  (forallb fits items = false ->
     exists m, join_len_prefix items = raise (ValueError m)).
Proof.
  split; [|split].
  - intros H. unfold join_len_prefix.
    now rewrite (join_loop_fits items [] H).
  - intros b Hb. rewrite byte_val_of_Z. apply Z.mod_small. lia.
  - intros H. apply join_loop_too_long. exact H.
Qed.

Lemma join_len_prefix_spec_witness :
  join_len_prefix [Some [x01]; None; Some []; Some [x0a; x0b]] =
    ok [x01; x01; x02; x0a; x0b] /\
  exists m, join_len_prefix [Some [x01]; Some (repeat x00 256)] =
            raise (ValueError m).
Proof.
  split.
  - exact (proj1 (join_len_prefix_spec
                    [Some [x01]; None; Some []; Some [x0a; x0b]]) eq_refl).
  - exact (proj2 (proj2 (join_len_prefix_spec
                    [Some [x01]; Some (repeat x00 256)])) eq_refl).
Defined.

(** ** State keys *)

Lemma land_255 (n : Z) : Z.land n 255 = n mod 256.
Proof. exact (Z.land_ones n 8 ltac:(lia)). Qed.

Lemma pack_be64_value (c : Z) :
  0 <= c < 2 ^ 64 -> be_value (pack_be64 c) = c.
Proof.
  intros Hc. unfold be_value, pack_be64.
  cbn [List.map fold_left].
  rewrite !byte_val_of_Z, !land_255, !Z.mod_mod by lia.
  rewrite !Z.shiftr_div_pow2 by lia.
  change (8 * 0) with 0. change (2 ^ 0) with 1. rewrite Z.div_1_r.
  change (2 ^ (8 * 1)) with 256.
  change (2 ^ (8 * 2)) with (256 * 256).
  change (2 ^ (8 * 3)) with (256 * 256 * 256).
  change (2 ^ (8 * 4)) with (256 * 256 * 256 * 256).
  change (2 ^ (8 * 5)) with (256 * 256 * 256 * 256 * 256).
  change (2 ^ (8 * 6)) with (256 * 256 * 256 * 256 * 256 * 256).
  change (2 ^ (8 * 7)) with (256 * 256 * 256 * 256 * 256 * 256 * 256).
  rewrite <- !Z.div_div by lia.
  set (q1 := c / 256). set (q2 := q1 / 256). set (q3 := q2 / 256).
  set (q4 := q3 / 256). set (q5 := q4 / 256). set (q6 := q5 / 256).
  set (q7 := q6 / 256).
  pose proof (Z.div_mod c 256 ltac:(lia)) as E0.
  pose proof (Z.div_mod q1 256 ltac:(lia)) as E1.
  pose proof (Z.div_mod q2 256 ltac:(lia)) as E2.
  pose proof (Z.div_mod q3 256 ltac:(lia)) as E3.
  pose proof (Z.div_mod q4 256 ltac:(lia)) as E4.
  pose proof (Z.div_mod q5 256 ltac:(lia)) as E5.
  pose proof (Z.div_mod q6 256 ltac:(lia)) as E6.
  fold q1 in E0. fold q2 in E1. fold q3 in E2. fold q4 in E3.
  fold q5 in E4. fold q6 in E5. fold q7 in E6.
  assert (H7 : 0 <= q7 < 256).
  { unfold q7, q6, q5, q4, q3, q2, q1.
    rewrite !Z.div_div by lia.
    split; [apply Z.div_pos; lia|].
    apply Z.div_lt_upper_bound; [lia|]. change (2 ^ 64) with 18446744073709551616 in Hc. lia. }
  rewrite (Z.mod_small q7 256) by lia.
  lia.
Qed.

Lemma keys_refuted :
  let a := repeat x00 20 in
  @key_for_account (AddrBytes a) <> ok ([x01; x14] ++ a) /\
  @key_for_fee_pool ascii_interp (PInt 1) <> ok ([x02; x08] ++ pack_be64 1).
Proof. split; intros H; vm_compute in H; discriminate H. Qed.

Section KeysTheorems.
Context {I : Interp}.

Lemma key_for_fee_pool_ok (c : Z) :
  0 <= c < 2 ^ 64 -> key_for_fee_pool (PInt c) = ok (fee_pool_key c).
Proof.
  intros Hc. unfold key_for_fee_pool, format_uint64.
  cbn [bind result_monad rbind ok].
  destruct (Z.ltb_spec c 0) as [?|_]; [lia|].
  destruct (Z.leb_spec (2 ^ 64) c) as [?|_]; [lia|].
  reflexivity.
Qed.

(** C2, as the code has it.  [join_len_prefix] length-prefixes every argument,
    the one-byte store prefix included: for an address [a] of 20 bytes
    [key_for_account a] is [0x01 0x01 0x14 || a], and for a chain id [c] that
    fits in 64 bits [key_for_fee_pool c] is [0x01 0x02 0x08 || be64(c)], where
    [be64(c)] is 8 bytes long and denotes [c] in big-endian order. *)
Theorem key_encoding (a : bytes) (c : Z) :
  List.length a = 20%nat ->
  0 <= c < 2 ^ 64 ->
  key_for_account (AddrBytes a) = ok ([x01; x01; x14] ++ a) /\
  exists be64,
    key_for_fee_pool (PInt c) = ok ([x01; x02; x08] ++ be64) /\
    List.length be64 = 8%nat /\ be_value be64 = c.
Proof.
  intros Ha Hc. split.
  - unfold key_for_account, join_len_prefix.
    cbn [bind result_monad rbind ok].
    rewrite join_loop_fits
      by (cbn [forallb fits]; rewrite Ha; reflexivity).
    destruct a as [|x a']; [discriminate Ha|].
    unfold len_prefixed. cbn [flat_map frame ACCOUNT_PREFIX].
    rewrite Ha. rewrite app_nil_r. reflexivity.
  - exists (pack_be64 c). split; [|split].
    + apply key_for_fee_pool_ok. exact Hc.
    + reflexivity.
    + apply pack_be64_value. exact Hc.
Qed.

End KeysTheorems.

Lemma key_encoding_witness :
  @key_for_account (AddrBytes (repeat x0a 20)) =
    ok ([x01; x01; x14] ++ repeat x0a 20) /\
  exists be64,
    @key_for_fee_pool ascii_interp (PInt 258) = ok ([x01; x02; x08] ++ be64) /\
    List.length be64 = 8%nat /\ be_value be64 = 258.
Proof.
  apply (@key_encoding ascii_interp (repeat x0a 20) 258).
  - reflexivity.
  - split; [discriminate | reflexivity].
Defined.

(** ** Validation *)

Section ValidationTheorems.
Context {I : Interp}.

Lemma digit_limit_small (n : nat) :
  (n < 640)%nat ->
  negb (max_str_digits =? 0)%nat && (max_str_digits <? n)%nat = false.
Proof.
  intros Hn. destruct max_str_digits_ok as [E|E].
  - rewrite E. reflexivity.
  - replace (max_str_digits <? n)%nat with false.
    + apply andb_false_r.
    + symmetry. apply Nat.ltb_ge. lia.
Qed.

Lemma int_of_str_100 : int_of_str (lit "100") = ok 100.
Proof.
  unfold int_of_str.
  change (List.map to_ascii (lit "100")) with [49; 48; 48]%N.
  cbn -[max_str_digits Nat.ltb Nat.eqb].
  rewrite digit_limit_small by lia. reflexivity.
Qed.

Lemma int_of_str_abc : exists m, int_of_str (lit "abc") = raise (ValueError m).
Proof. eexists. reflexivity. Qed.

Lemma digit_cases (c : N) :
  ascii_digit c = true ->
  (c = 48 \/ c = 49 \/ c = 50 \/ c = 51 \/ c = 52 \/
   c = 53 \/ c = 54 \/ c = 55 \/ c = 56 \/ c = 57)%N.
Proof.
  unfold ascii_digit. intros H. apply andb_true_iff in H as [H1 H2].
  apply N.leb_le in H1, H2. lia.
Qed.

Lemma to_ascii_digits (ds : str) :
  forallb ascii_digit ds = true -> List.map to_ascii ds = ds.
Proof.
  induction ds as [|c ds IH]; [reflexivity|].
  cbn [forallb List.map]. intros H. apply andb_true_iff in H as [Hc Hds].
  rewrite (IH Hds). f_equal. unfold to_ascii.
  destruct (digit_cases c Hc) as [->|[->|[->|[->|[->|[->|[->|[->|[->| ->]]]]]]]]];
    reflexivity.
Qed.

Lemma scan_digits_all (ds : str) : forall acc n,
  forallb ascii_digit ds = true ->
  scan_digits ds acc n false =
  Some (fold_left (fun a c => a * 10 + (Z.of_N c - 48)) ds acc,
        (n + List.length ds)%nat, []).
Proof.
  induction ds as [|c ds IH]; intros acc n H.
  - cbn. now rewrite Nat.add_0_r.
  - cbn [forallb] in H. apply andb_true_iff in H as [Hc Hds].
    cbn [scan_digits]. rewrite Hc. rewrite (IH _ _ Hds).
    cbn [fold_left List.length]. now rewrite Nat.add_succ_r.
Qed.

(** [int] reads a string of decimal digits as the number it denotes. *)
Lemma int_of_str_digits (ds : str) :
  ds <> [] -> forallb ascii_digit ds = true ->
  (List.length ds < 640)%nat ->
  int_of_str ds = ok (decimal_value ds).
Proof.
  intros Hne Hd Hlen. unfold int_of_str.
  rewrite (to_ascii_digits ds Hd).
  destruct ds as [|c rest]; [now elim Hne|].
  pose proof (scan_digits_all (c :: rest) 0 0 Hd) as Hscan.
  cbn [forallb] in Hd. apply andb_true_iff in Hd as [Hc _].
  destruct (digit_cases c Hc) as [->|[->|[->|[->|[->|[->|[->|[->|[->| ->]]]]]]]]];
    cbn [skip_spaces ascii_space N.leb N.eqb N.compare Pos.compare
         Pos.compare_cont andb orb Pos.eqb];
    rewrite Hscan; cbn [Nat.add List.length Nat.eqb skip_spaces];
    cbn [List.length] in Hlen;
    rewrite (digit_limit_small _ Hlen);
    unfold decimal_value;
    now rewrite Z.mul_1_l.
Qed.

(** C7. [validate_amount] is true exactly when its input, an integer taken
    as it is or a string parsed as a base-10 integer, is strictly greater than
    zero; 0 and -1 are refused, 1 and "100" accepted, "abc" refused. *)
Theorem validate_amount_spec :
  (forall a, validate_amount a = true <->
             exists n, amount_int_of a = ok n /\ 0 < n) /\
  (forall n, amount_int_of (PInt n) = ok n) /\
  (forall s, amount_int_of (PStr s) = int_of_str s) /\
  (forall ds, ds <> [] -> forallb ascii_digit ds = true ->
              (List.length ds < 640)%nat ->
              validate_amount (PStr ds) = (0 <? decimal_value ds)) /\
  validate_amount (PInt 0) = false /\
  validate_amount (PInt (-1)) = false /\
  validate_amount (PInt 1) = true /\
  validate_amount (PStr (lit "100")) = true /\
  validate_amount (PStr (lit "abc")) = false.
Proof.
  split; [|split; [|split; [|split]]].
  - intros a. split.
    + unfold validate_amount. destruct (amount_int_of a) as [e|n].
      * discriminate.
      * intros H. exists n. split; [reflexivity|]. now apply Z.ltb_lt.
    + intros [n [E H]]. unfold validate_amount. rewrite E.
      now apply Z.ltb_lt.
  - reflexivity.
  - reflexivity.
  - intros ds Hne Hd Hlen. unfold validate_amount, amount_int_of.
    now rewrite (int_of_str_digits ds Hne Hd Hlen).
  - repeat split.
    unfold validate_amount, amount_int_of. now rewrite int_of_str_100.
Qed.

Lemma hex_not_space (c : N) : is_hex c = true -> ascii_space c = false.
Proof.
  unfold is_hex, hexval, ascii_space, ascii_digit.
  repeat match goal with
         | |- context [(?a <=? ?b)%N] => destruct (N.leb_spec a b)
         | |- context [(?a =? ?b)%N] => destruct (N.eqb_spec a b)
         end; cbn; intros; try reflexivity; try discriminate; lia.
Qed.

(** [2k] hexadecimal characters decode to [k] bytes. *)
Lemma fromhex_digits (k : nat) : forall h,
  List.length h = (2 * k)%nat -> forallb is_hex h = true ->
  exists b, fromhex h = ok b /\ List.length b = k.
Proof.
  induction k as [|k IH]; intros h Hl Hh.
  - destruct h; [|discriminate]. exists []. split; reflexivity.
  - destruct h as [|c [|d h']]; try (cbn in Hl; lia).
    cbn [forallb] in Hh.
    apply andb_true_iff in Hh as [Hc Hh].
    apply andb_true_iff in Hh as [Hd Hh].
    destruct (IH h') as [b [Eb Lb]]; [cbn in Hl; lia | exact Hh |].
    cbn [fromhex]. rewrite (hex_not_space c Hc).
    unfold is_hex in Hc, Hd.
    destruct (hexval c) as [top|]; [|discriminate].
    destruct (hexval d) as [bot|]; [|discriminate].
    rewrite Eb. cbn [bind result_monad rbind ok].
    eexists. split; [reflexivity|]. cbn. now rewrite Lb.
Qed.

Lemma validate_hex_string (k : nat) (h : str) :
  List.length h = (2 * k)%nat -> forallb is_hex h = true ->
  validate_address (AddrStr (lit "0x" ++ h)) = (k =? 20)%nat.
Proof.
  intros Hl Hh. unfold validate_address, address_bytes_of.
  change (lit "0x" ++ h) with (48%N :: 120%N :: h).
  change (startswith (48%N :: 120%N :: h) (lit "0x")) with true.
  cbn [skipn].
  destruct (fromhex_digits k h Hl Hh) as [b [Eb Lb]].
  rewrite Eb. unfold ok. rewrite Lb. reflexivity.
Qed.

(** C8. [validate_address] is true exactly when the decoded input is 20 bytes
    long: raw bytes are taken as they are, a string starting with "0x" has
    its remainder read as hexadecimal, any other string is taken as its UTF-8
    bytes, and a decoding failure gives false.  20 bytes and "0x" with 40
    hexadecimal characters validate; 19 bytes and "0x" with 38 do not. *)
Theorem validate_address_spec :
  (forall a, validate_address a = true <->
             exists b, address_bytes_of a = ok b /\ List.length b = 20%nat) /\
  (forall b, address_bytes_of (AddrBytes b) = ok b) /\
  (forall s, startswith s (lit "0x") = true ->
             address_bytes_of (AddrStr s) = fromhex (skipn 2 s)) /\
  (forall s, startswith s (lit "0x") = false ->
             address_bytes_of (AddrStr s) = encode s) /\
  (forall a e, address_bytes_of a = raise e -> validate_address a = false) /\
  (forall b : bytes, List.length b = 20%nat ->
             validate_address (AddrBytes b) = true) /\
  (forall b : bytes, List.length b = 19%nat ->
             validate_address (AddrBytes b) = false) /\
  (forall h, List.length h = 40%nat -> forallb is_hex h = true ->
             validate_address (AddrStr (lit "0x" ++ h)) = true) /\
  (forall h, List.length h = 38%nat -> forallb is_hex h = true ->
             validate_address (AddrStr (lit "0x" ++ h)) = false).
Proof.
  repeat split.
  - unfold validate_address. destruct (address_bytes_of a) as [e|b].
    + discriminate.
    + intros H. exists b. split; [reflexivity|]. now apply Nat.eqb_eq.
  - intros [b [E H]]. unfold validate_address. rewrite E.
    now apply Nat.eqb_eq.
  - intros s H. unfold address_bytes_of. now rewrite H.
  - intros s H. unfold address_bytes_of. now rewrite H.
  - intros a e H. unfold validate_address. now rewrite H.
  - intros b H. unfold validate_address, address_bytes_of, ok. now rewrite H.
  - intros b H. unfold validate_address, address_bytes_of, ok. now rewrite H.
  - intros h Hl Hh. now rewrite (validate_hex_string 20 h Hl Hh).
  - intros h Hl Hh. now rewrite (validate_hex_string 19 h Hl Hh).
Qed.

End ValidationTheorems.

Lemma validate_amount_spec_witness :
  @validate_amount ascii_interp (PStr (lit "250")) = true /\
  @validate_amount ascii_interp (PStr (lit "000")) = false.
Proof.
  pose proof (@validate_amount_spec ascii_interp) as (_ & _ & _ & H & _).
  split.
  - rewrite (H (lit "250")).
    + reflexivity.
    + discriminate.
    + reflexivity.
    + apply Nat.leb_le. reflexivity.
  - rewrite (H (lit "000")).
    + reflexivity.
    + discriminate.
    + reflexivity.
    + apply Nat.leb_le. reflexivity.
Defined.

Lemma validate_address_spec_witness :
  validate_address (AddrBytes (repeat x0a 20)) = true /\
  validate_address (AddrBytes (repeat x0a 19)) = false /\
  validate_address
    (AddrStr (lit "0x" ++ lit "00112233445566778899aAbBcCdDeEfF00112233")) =
    true /\
  validate_address
    (AddrStr (lit "0x" ++ lit "00112233445566778899aabbccddeeff001122")) =
    false.
Proof.
  pose proof validate_address_spec as
    (_ & _ & _ & _ & _ & H20 & H19 & H40 & H38).
  split; [|split; [|split]].
  - apply H20. reflexivity.
  - apply H19. reflexivity.
  - apply H40; reflexivity.
  - apply H38; reflexivity.
Defined.

(** ** The contract *)

Section ContractTheorems.
Context {I : Interp} {C : Codec}.
Variable random_source : nat -> Z.

Lemma normalize_amount_pos (n : Z) :
  0 < n -> normalize_amount (PInt n) = ok n.
Proof.
  intros Hn. unfold normalize_amount, validate_amount, amount_int_of.
  cbn. apply Z.ltb_lt in Hn. now rewrite Hn.
Qed.

Lemma normalize_amount_nonpos (n : Z) :
  n <= 0 ->
  normalize_amount (PInt n) =
  raise (ValueError "Invalid amount: must be greater than 0").
Proof.
  intros Hn. unfold normalize_amount, validate_amount, amount_int_of.
  cbn. apply Z.ltb_ge in Hn. now rewrite Hn.
Qed.

Lemma bind_run_ok {A B} (m : Exec A) (k : A -> Exec B) w a w' :
  m w = (ok a, w') -> (x <-- m ;; k x) w = k a w'.
Proof. intros H. cbn [bind exec_monad]. now rewrite H. Qed.

Lemma bind_run_raise {A B} (m : Exec A) (k : A -> Exec B) w e w' :
  m w = (raise e, w') -> (x <-- m ;; k x) w = (raise e, w').
Proof. intros H. cbn [bind exec_monad]. now rewrite H. Qed.

Lemma lift_run {A} (r : result A) w : lift r w = (r, w).
Proof. reflexivity. Qed.

Lemma try_except_ok {A} (m : Exec A) h w a w' :
  m w = (ok a, w') -> try_except m h w = (ok a, w').
Proof. intros H. unfold try_except. now rewrite H. Qed.

Lemma try_except_raise {A} (m : Exec A) h w e w' :
  m w = (raise e, w') -> try_except m h w = h e w'.
Proof. intros H. unfold try_except. now rewrite H. Qed.

Lemma initialized_run self p cfg w :
  plugin self = Some p -> config self = Some cfg ->
  initialized self w = (ok (p, cfg), w).
Proof. intros Hp Hc. unfold initialized. now rewrite Hp, Hc. Qed.

Lemma state_read_run p request w :
  state_read p request w =
  (plugin_state_read p request,
   {| events := events w ++ [EvStateRead request]; draws := draws w |}).
Proof. reflexivity. Qed.

Lemma state_write_run p request w :
  state_write p request w =
  (plugin_state_write p request,
   {| events := events w ++ [EvStateWrite request]; draws := draws w |}).
Proof. reflexivity. Qed.

Lemma parse_run data w :
  ParseFromString data w =
  (message_send_from_string data,
   {| events := events w ++ [EvParseMessage data]; draws := draws w |}).
Proof. reflexivity. Qed.

Lemma generate_query_ids_run (w : world) :
  _generate_query_ids random_source w =
  (ok (ids_at random_source (draws w)),
   {| events := events w; draws := S (S (S (draws w))) |}).
Proof. reflexivity. Qed.

(** The world after the batched read of a call that started in [w]. *)
Lemma read_data_run self p cfg m from_key to_key (w : world) :
  plugin self = Some p -> config self = Some cfg ->
  key_for_account (AddrBytes (from_address m)) = ok from_key ->
  key_for_account (AddrBytes (to_address m)) = ok to_key ->
  0 <= chain_id cfg < 2 ^ 64 ->
  let q := ids_at random_source (draws w) in
  let request :=
    read_request q from_key to_key (fee_pool_key (chain_id cfg)) in
  let w1 := {| events := events w ++ [EvStateRead request];
               draws := S (S (S (draws w))) |} in
  _read_deliver_message_required_data random_source self m w =
  match plugin_state_read p request with
  | inl e => (inl e, w1)
  | inr response =>
      match read_error response with
      | Some err =>
          (raise (PluginException ("State read error: " ++ err_msg err)
                                  4 "plugin"), w1)
      | None => (ok (collected q response), w1)
      end
  end.
Proof.
  intros Hp Hc Hf Ht Hch q request w1.
  unfold _read_deliver_message_required_data.
  rewrite (bind_run_ok _ _ _ _ _ (initialized_run self p cfg w Hp Hc)).
  cbv beta iota.
  rewrite (bind_run_ok _ _ _ _ _ (generate_query_ids_run w)).
  rewrite Hf, Ht, (key_for_fee_pool_ok _ Hch).
  rewrite !(bind_run_ok _ _ _ _ _ (lift_run _ _)).
  fold q. fold request.
  destruct (plugin_state_read p request) as [e|response] eqn:E.
  - rewrite (bind_run_raise _ _ _ e _ (eq_trans (state_read_run _ _ _)
              (f_equal (fun r => (r, _)) E))).
    reflexivity.
  - rewrite (bind_run_ok _ _ _ response _ (eq_trans (state_read_run _ _ _)
              (f_equal (fun r => (r, _)) E))).
    destruct (read_error response); reflexivity.
Qed.

Lemma bytes_eq_true a b : bytes_eq a b = true <-> a = b.
Proof.
  unfold bytes_eq. destruct (list_eq_dec Byte.byte_eq_dec a b); split;
    intros; congruence.
Qed.

Lemma bytes_eq_false a b : bytes_eq a b = false <-> a <> b.
Proof.
  unfold bytes_eq. destruct (list_eq_dec Byte.byte_eq_dec a b); split;
    intros; congruence.
Qed.

Lemma normalize_address_20 (a : bytes) :
  List.length a = 20%nat -> normalize_address (AddrBytes a) = ok a.
Proof.
  intros H. unfold normalize_address, validate_address, address_bytes_of, ok.
  now rewrite H.
Qed.

(** Everything [deliver_tx] adds around [_deliver_message_send] for a send
    message that decodes. *)
Lemma deliver_tx_run self request m w r w' :
  let tx := deliver_tx_of request in
  endswith (type_url (msg tx)) "/types.MessageSend" = true ->
  message_send_from_string (value (msg tx)) = ok m ->
  _deliver_message_send random_source self m (PInt (fee tx))
    {| events := events w ++ [EvParseMessage (value (msg tx))];
       draws := draws w |} = (ok r, w') ->
  deliver_tx random_source self request w = (ok r, w').
Proof.
  intros tx Hurl Hparse Hsend. unfold deliver_tx. fold tx. rewrite Hurl.
  apply try_except_ok.
  rewrite (bind_run_ok _ _ _ m _
             (eq_trans (parse_run _ _) (f_equal (fun r => (r, _)) Hparse))).
  apply try_except_ok. exact Hsend.
Qed.

(** The send up to the funds check, when the read succeeded. *)
Lemma deliver_send_insufficient self p cfg m fee from_key to_key
    response ud w :
  plugin self = Some p -> config self = Some cfg ->
  0 < fee ->
  key_for_account (AddrBytes (from_address m)) = ok from_key ->
  key_for_account (AddrBytes (to_address m)) = ok to_key ->
  0 <= chain_id cfg < 2 ^ 64 ->
  send_read random_source p cfg m from_key to_key (draws w) response ud ->
  from_amount ud < amount m + fee ->
  let request :=
    read_request (ids_at random_source (draws w)) from_key to_key
                 (fee_pool_key (chain_id cfg)) in
  _deliver_message_send random_source self m (PInt fee) w =
  (ok (create_deliver_error_response_from_exception
         (InsufficientFundsError (Some (amount m + fee))
                                 (Some (from_amount ud)))),
   {| events := events w ++ [EvStateRead request];
      draws := S (S (S (draws w))) |}).
Proof.
  intros Hp Hc Hfee Hfk Htk Hch [Hans Hne Hun Hamt] Hlow request.
  unfold _deliver_message_send.
  rewrite (try_except_raise _ _ _
             (InsufficientFundsError (Some (amount m + fee))
                                     (Some (from_amount ud)))
             {| events := events w ++ [EvStateRead request];
                draws := S (S (S (draws w))) |}); [reflexivity|].
  rewrite (normalize_amount_pos fee Hfee).
  rewrite (bind_run_ok _ _ _ _ _ (lift_run _ _)).
  rewrite (bind_run_ok _ _ _ _ _ (initialized_run self p cfg w Hp Hc)).
  cbv beta iota.
  rewrite (bind_run_ok _ _ _ (collected
                                (ids_at random_source (draws w)) response)
             {| events := events w ++ [EvStateRead request];
                draws := S (S (S (draws w))) |}).
  2:{ rewrite (read_data_run self p cfg m from_key to_key w Hp Hc Hfk Htk Hch).
      cbv zeta. unfold request. rewrite Hans. unfold ok.
      now rewrite Hne. }
  cbv zeta in Hun. rewrite Hun.
  rewrite (bind_run_ok _ _ _ _ _ (lift_run _ _)).
  rewrite (normalize_amount_pos _ Hamt).
  rewrite (bind_run_ok _ _ _ _ _ (lift_run _ _)).
  cbv zeta.
  apply Z.ltb_lt in Hlow. rewrite Hlow.
  reflexivity.
Qed.

Lemma new_Account_ok (address : bytes) (n : Z) :
  0 <= n < 2 ^ 64 ->
  new_Account address n = ok {| acc_address := address; acc_amount := n |}.
Proof.
  intros H. unfold new_Account, uint64_ok.
  destruct (Z.leb_spec 0 n); [|lia].
  destruct (Z.ltb_spec n (2 ^ 64)); [reflexivity|lia].
Qed.

Lemma new_Pool_ok (id n : Z) :
  0 <= id < 2 ^ 64 -> 0 <= n < 2 ^ 64 ->
  new_Pool id n = ok {| pool_id := id; pool_amount := n |}.
Proof.
  intros Hi H. unfold new_Pool, uint64_ok.
  destruct (Z.leb_spec 0 id); [|lia].
  destruct (Z.ltb_spec id (2 ^ 64)); [|lia].
  destruct (Z.leb_spec 0 n); [|lia].
  destruct (Z.ltb_spec n (2 ^ 64)); [reflexivity|lia].
Qed.

(** The send from the funds check on, when the funds suffice: one write
    request, carrying [batch_of]. *)
Lemma deliver_send_batch self p cfg m fee from_key to_key response ud w :
  plugin self = Some p -> config self = Some cfg ->
  0 < fee ->
  key_for_account (AddrBytes (from_address m)) = ok from_key ->
  key_for_account (AddrBytes (to_address m)) = ok to_key ->
  0 <= chain_id cfg < 2 ^ 64 ->
  send_read random_source p cfg m from_key to_key (draws w) response ud ->
  send_fits m fee from_key to_key ud ->
  amount m + fee <= from_amount ud ->
  let request :=
    read_request (ids_at random_source (draws w)) from_key to_key
                 (fee_pool_key (chain_id cfg)) in
  let batch := batch_of cfg m fee from_key to_key ud in
  let w2 := {| events := events w ++ [EvStateRead request; EvStateWrite batch];
               draws := S (S (S (draws w))) |} in
  _deliver_message_send random_source self m (PInt fee) w =
  match plugin_state_write p batch with
  | inr write_response =>
      (ok {| deliver_error := write_error write_response |}, w2)
  | inl e => deliver_handlers e w2
  end.
Proof.
  intros Hp Hc Hfee Hfk Htk Hch [Hans Hne Hun Hamt]
         [Lf Lt Ff [Fp0 Fp1] Ft] Hfunds request batch w2.
  unfold _deliver_message_send, try_except.
  rewrite (normalize_amount_pos fee Hfee).
  rewrite (bind_run_ok _ _ _ _ _ (lift_run _ _)).
  rewrite (bind_run_ok _ _ _ _ _ (initialized_run self p cfg w Hp Hc)).
  cbv beta iota.
  rewrite (bind_run_ok _ _ _ (collected
                                (ids_at random_source (draws w)) response)
             {| events := events w ++ [EvStateRead request];
                draws := S (S (S (draws w))) |}).
  2:{ rewrite (read_data_run self p cfg m from_key to_key w
                 Hp Hc Hfk Htk Hch).
      cbv zeta. unfold request. rewrite Hans. unfold ok.
      now rewrite Hne. }
  cbv zeta in Hun. rewrite Hun.
  rewrite (bind_run_ok _ _ _ _ _ (lift_run _ _)).
  rewrite (normalize_amount_pos _ Hamt).
  rewrite (bind_run_ok _ _ _ _ _ (lift_run _ _)).
  cbv zeta.
  assert (Hge : (from_amount ud <? amount m + fee) = false)
    by (apply Z.ltb_ge; lia).
  rewrite Hge.
  rewrite Hfk, Htk, (key_for_fee_pool_ok _ Hch).
  rewrite (normalize_address_20 _ Lf), (normalize_address_20 _ Lt).
  rewrite !(bind_run_ok _ _ _ _ _ (lift_run _ _)).
  rewrite (new_Account_ok (from_address m)
             (from_amount ud - (amount m + fee))) by lia.
  rewrite (bind_run_ok _ _ _ _ _ (lift_run _ _)).
  rewrite (bind_run_ok _ _ _ _ _ (lift_run _ _)).
  rewrite (new_Pool_ok (chain_id cfg) (pool_amount (fee_pool ud) + fee))
    by lia.
  unfold w2, batch, batch_of. clear w2 batch.
  destruct (bytes_eq from_key to_key) eqn:Eself.
  - rewrite (new_Account_ok (to_address m) (from_amount ud - fee)) by lia.
    cbn [negb]. rewrite !andb_false_r.
    unfold marshal, state_write, emit, lift.
    cbn [bind exec_monad ret ok app events draws acc_amount].
    rewrite <- app_assoc. cbn [app].
    destruct (plugin_state_write p _); reflexivity.
  - apply bytes_eq_false in Eself. destruct (Ft Eself) as [Ft0 Ft1].
    rewrite (new_Account_ok (to_address m)
               (acc_amount (to_account ud) + amount m)) by lia.
    cbn [negb]. rewrite !andb_true_r.
    unfold marshal, state_write, emit, lift.
    cbn [bind exec_monad ret ok app events draws acc_amount].
    destruct (from_amount ud - (amount m + fee) =? 0);
      cbn [bind exec_monad ret ok app events draws acc_amount];
      rewrite <- app_assoc; cbn [app];
      destruct (plugin_state_write p _); reflexivity.
Qed.

Lemma writes_of_app l1 l2 : writes_of (l1 ++ l2) = writes_of l1 ++ writes_of l2.
Proof. apply flat_map_app. Qed.

Lemma reads_of_app l1 l2 : reads_of (l1 ++ l2) = reads_of l1 ++ reads_of l2.
Proof. apply flat_map_app. Qed.

Lemma parses_of_app l1 l2 : parses_of (l1 ++ l2) = parses_of l1 ++ parses_of l2.
Proof. apply flat_map_app. Qed.


(** The key of an account of 20 bytes. *)
Lemma key_for_account_20 (a : bytes) :
  List.length a = 20%nat ->
  key_for_account (AddrBytes a) = ok ([x01; x01; x14] ++ a).
Proof.
  intros Ha. unfold key_for_account, join_len_prefix.
  cbn [bind result_monad rbind ok].
  rewrite join_loop_fits by (cbn [forallb fits]; rewrite Ha; reflexivity).
  destruct a as [|x a']; [discriminate Ha|].
  unfold len_prefixed. cbn [flat_map frame ACCOUNT_PREFIX].
  rewrite Ha. rewrite app_nil_r. reflexivity.
Qed.

(** A send whose funds suffice issues its write request after the read and
    returns what the host answers to it. *)
Lemma deliver_tx_batch self request p cfg m from_key to_key response ud w :
  send_call self request p cfg m from_key to_key ->
  send_read random_source p cfg m from_key to_key (draws w) response ud ->
  send_fits m (fee (deliver_tx_of request)) from_key to_key ud ->
  amount m + fee (deliver_tx_of request) <= from_amount ud ->
  let batch :=
    batch_of cfg m (fee (deliver_tx_of request)) from_key to_key ud in
  let w' :=
    {| events :=
         events w ++
         [EvParseMessage (value (msg (deliver_tx_of request)));
          EvStateRead
            (read_request (ids_at random_source (draws w)) from_key to_key
                          (fee_pool_key (chain_id cfg)));
          EvStateWrite batch];
       draws := S (S (S (draws w))) |} in
  exists r,
    deliver_tx random_source self request w = (ok r, w') /\
    forall write_response,
      plugin_state_write p batch = ok write_response ->
      r = {| deliver_error := write_error write_response |}.
Proof.
  intros [Hp Hc Hurl Hparse Hfee Hfk Htk Hch] Hread Hfits Hfunds batch w'.
  pose proof (deliver_send_batch self p cfg m _ from_key to_key response ud
                {| events := events w ++
                     [EvParseMessage (value (msg (deliver_tx_of request)))];
                   draws := draws w |}
                Hp Hc Hfee Hfk Htk Hch Hread Hfits Hfunds) as Hrun.
  cbv zeta in Hrun. cbn [events draws] in Hrun.
  rewrite <- app_assoc in Hrun. cbn [app] in Hrun.
  fold batch in Hrun. fold w' in Hrun.
  destruct (plugin_state_write p batch) as [e|wr] eqn:E.
  - unfold deliver_handlers in Hrun.
    destruct (is_plugin_exception e); eexists; (split;
      [ apply (deliver_tx_run self request m w _ _ Hurl Hparse); exact Hrun
      | intros ? Habs; discriminate Habs ]).
  - eexists. split.
    + apply (deliver_tx_run self request m w _ _ Hurl Hparse). exact Hrun.
    + intros ? Heq. now inversion Heq.
Qed.



(** What a self-transfer writes: the fee pool and the sender's record, the
    latter with amount and fee both deducted. *)
Lemma self_transfer_batch self request p cfg m key response ud w :
  send_call self request p cfg m key key ->
  send_read random_source p cfg m key key (draws w) response ud ->
  send_fits m (fee (deliver_tx_of request)) key key ud ->
  amount m + fee (deliver_tx_of request) <= from_amount ud ->
  exists r w',
    deliver_tx random_source self request w = (r, w') /\
    writes_of (events w') =
    writes_of (events w) ++
    [ {| sets :=
           [ {| set_key := fee_pool_key (chain_id cfg);
                set_value :=
                  serialize_pool
                    {| pool_id := chain_id cfg;
                       pool_amount := pool_amount (fee_pool ud) +
                                      fee (deliver_tx_of request) |} |};
             {| set_key := key;
                set_value :=
                  serialize_account
                    {| acc_address := from_address m;
                       acc_amount :=
                         from_amount ud -
                         (amount m + fee (deliver_tx_of request)) |} |} ];
         deletes := [] |} ].
Proof.
  intros Hcall Hread Hfits Hfunds.
  destruct (deliver_tx_batch self request p cfg m key key response
              ud w Hcall Hread Hfits Hfunds) as [r [Hrun _]].
  unfold batch_of in Hrun.
  rewrite (proj2 (bytes_eq_true key key) eq_refl) in Hrun.
  cbn [negb] in Hrun. rewrite andb_false_r in Hrun.
  eexists. eexists. split; [exact Hrun|].
  cbn [events]. rewrite writes_of_app. cbn. reflexivity.
Qed.

(** C5. When the read and the decoding of the fee parameters succeed and the
    normalised fee of the transaction is below the decoded minimum send fee,
    [check_tx] answers with the TxFeeBelowStateLimit error (code 14), whose
    message carries the fee and the minimum, and the message of the
    transaction is not decoded in that call. *)
Theorem check_tx_fee_floor self id request p min_fees w :
  fee_read self id p min_fees ->
  0 < fee (check_tx_of request) ->
  fee (check_tx_of request) < send_fee min_fees ->
  exists w',
    check_tx self id request w =
    (ok {| recipient := [];
           authorized_signers := [];
           check_error :=
             Some {| err_code := 14;
                     err_module := "contract";
                     err_msg :=
                       "Transaction fee " ++
                       str_of_int (fee (check_tx_of request)) ++
                       " is below state minimum " ++
                       str_of_int (send_fee min_fees) |} |},
     w') /\
    parses_of (events w') = parses_of (events w).
Proof.
  intros [Hp Hc (response & r0 & e0 & b & bs & Hans & Hne & Hr & He & Hv & Hd)]
         Hfee Hlow.
  destruct (config self) as [cfg|] eqn:Ecfg; [clear Hc | now elim Hc].
  destruct (results response) as [|r0' rs] eqn:Er; [discriminate Hr|].
  cbn in Hr. inversion Hr; subst r0'. clear Hr.
  destruct (entries r0) as [|e0' es] eqn:Ee; [discriminate He|].
  cbn in He. inversion He; subst e0'. clear He.
  eexists. split.
  - unfold check_tx.
    rewrite (try_except_raise _ _ _
               (FeeBelowLimitError (Some (fee (check_tx_of request)))
                                   (Some (send_fee min_fees)))
               {| events :=
                    events w ++
                    [EvStateRead
                       {| keys := [ {| query_id := id;
                                       read_key := fee_params_key |} ] |}];
                  draws := draws w |}); [reflexivity|].
    rewrite (bind_run_ok _ _ _ _ _ (initialized_run self p cfg w Hp Ecfg)).
    cbv beta iota.
    change key_for_fee_params with (ok fee_params_key).
    rewrite (bind_run_ok _ _ _ _ _ (lift_run _ _)).
    rewrite (bind_run_ok _ _ _ response _
               (eq_trans (state_read_run _ _ _)
                         (f_equal (fun r => (r, _)) Hans))).
    rewrite Hne, Er, Ee, Hv.
    unfold unmarshal. rewrite Hd.
    rewrite (bind_run_ok _ _ _ (Some min_fees) _ (lift_run _ _)).
    rewrite (bind_run_ok _ _ _
               (fee (check_tx_of request), send_fee min_fees)
               {| events :=
                    events w ++
                    [EvStateRead
                       {| keys := [ {| query_id := id;
                                       read_key := fee_params_key |} ] |}];
                  draws := draws w |}).
    2:{ apply try_except_ok.
        rewrite (normalize_amount_pos _ Hfee).
        rewrite (bind_run_ok _ _ _ _ _ (lift_run _ _)).
        rewrite (normalize_amount_pos (send_fee min_fees)) by lia.
        rewrite (bind_run_ok _ _ _ _ _ (lift_run _ _)).
        reflexivity. }
    cbv beta iota.
    apply Z.ltb_lt in Hlow. rewrite Hlow. reflexivity.
  - cbn [events]. rewrite parses_of_app. cbn. now rewrite app_nil_r.
Qed.

(** *** Computations that issue no read *)

Lemma no_read_ret {A} (a : A) : no_read (ret a).
Proof. intros w. reflexivity. Qed.

Lemma no_read_lift {A} (r : result A) : no_read (lift r).
Proof. intros w. reflexivity. Qed.

Lemma no_read_throw {A} (e : exception) : no_read (@throw A e).
Proof. intros w. reflexivity. Qed.

Lemma no_read_write p request : no_read (state_write p request).
Proof.
  intros w. rewrite state_write_run. cbn [snd events].
  rewrite reads_of_app. cbn. apply app_nil_r.
Qed.

Lemma no_read_bind {A B} (m : Exec A) (k : A -> Exec B) :
  no_read m -> (forall a, no_read (k a)) -> no_read (x <-- m ;; k x).
Proof.
  intros Hm Hk w. cbn [bind exec_monad].
  specialize (Hm w). destruct (m w) as [[e|a] w1]; cbn [snd] in *.
  - exact Hm.
  - rewrite (Hk a w1). exact Hm.
Qed.

Lemma no_read_try_except {A} (m : Exec A) h :
  no_read m -> (forall e, no_read (h e)) -> no_read (try_except m h).
Proof.
  intros Hm Hh w. unfold try_except.
  specialize (Hm w). destruct (m w) as [[e|a] w1]; cbn [snd] in *.
  - rewrite (Hh e w1). exact Hm.
  - exact Hm.
Qed.

Lemma no_read_deliver_handlers e : no_read (deliver_handlers e).
Proof.
  unfold deliver_handlers. destruct (is_plugin_exception e);
    apply no_read_ret.
Qed.

Ltac no_read_step :=
  first
    [ apply no_read_ret
    | apply no_read_lift
    | apply no_read_throw
    | apply no_read_write
    | apply no_read_deliver_handlers
    | apply no_read_bind; [|intros]
    | apply no_read_try_except; [|intros]
    | match goal with
      | |- no_read (if ?b then _ else _) => destruct b
      | |- no_read (let '(_, _) := ?x in _) => destruct x
      end ].

(** Whatever the host answers, a send that reaches its read issues exactly
    that one read. *)
Lemma deliver_send_reads self p cfg m fee from_key to_key w :
  plugin self = Some p -> config self = Some cfg ->
  0 < fee ->
  key_for_account (AddrBytes (from_address m)) = ok from_key ->
  key_for_account (AddrBytes (to_address m)) = ok to_key ->
  0 <= chain_id cfg < 2 ^ 64 ->
  exists r w',
    _deliver_message_send random_source self m (PInt fee) w = (ok r, w') /\
    reads_of (events w') =
    reads_of (events w) ++
    [read_request (ids_at random_source (draws w)) from_key to_key
                  (fee_pool_key (chain_id cfg))].
Proof.
  intros Hp Hc Hfee Hfk Htk Hch.
  set (request := read_request (ids_at random_source (draws w)) from_key
                               to_key (fee_pool_key (chain_id cfg))).
  set (w1 := {| events := events w ++ [EvStateRead request];
                draws := S (S (S (draws w))) |}).
  assert (Hw1 : reads_of (events w1) = reads_of (events w) ++ [request]).
  { unfold w1. cbn [events]. now rewrite reads_of_app. }
  pose proof (read_data_run self p cfg m from_key to_key w
                Hp Hc Hfk Htk Hch) as Hread.
  cbv zeta in Hread. fold request in Hread. fold w1 in Hread.
  assert (Hraise : forall e,
            _read_deliver_message_required_data random_source self m w
            = (raise e, w1) ->
            exists r w',
              _deliver_message_send random_source self m (PInt fee) w
              = (ok r, w') /\
              reads_of (events w') = reads_of (events w) ++ [request]).
  { intros e He. unfold _deliver_message_send.
    rewrite (try_except_raise _ _ _ e w1).
    - unfold deliver_handlers.
      destruct (is_plugin_exception e); eexists; eexists;
        (split; [reflexivity | exact Hw1]).
    - rewrite (normalize_amount_pos fee Hfee).
      rewrite (bind_run_ok _ _ _ _ _ (lift_run _ _)).
      rewrite (bind_run_ok _ _ _ _ _ (initialized_run self p cfg w Hp Hc)).
      cbv beta iota.
      now rewrite (bind_run_raise _ _ _ e w1 He). }
  destruct (plugin_state_read p request) as [e|response];
    [exact (Hraise e Hread)|].
  destruct (read_error response) as [err|]; [exact (Hraise _ Hread)|].
  clear Hraise.
  unfold _deliver_message_send, try_except.
  rewrite (normalize_amount_pos fee Hfee).
  rewrite (bind_run_ok _ _ _ _ _ (lift_run _ _)).
  rewrite (bind_run_ok _ _ _ _ _ (initialized_run self p cfg w Hp Hc)).
  cbv beta iota.
  rewrite (bind_run_ok _ _ _ _ _ Hread).
  match goal with
  | |- context [let (_, _) := ?T w1 in _] =>
      assert (HT : no_read T) by (repeat no_read_step);
      specialize (HT w1); destruct (T w1) as [[e|a] w2]
  end; cbn [snd] in HT.
  - pose proof (no_read_deliver_handlers e w2) as Hh.
    unfold deliver_handlers in *.
    destruct (is_plugin_exception e); eexists; eexists;
      (split; [reflexivity | cbn [snd ret exec_monad] in *; congruence]).
  - eexists. eexists. split; [reflexivity | congruence].
Qed.

(** C9, as the code has it.  A send that reaches its read issues exactly one
    batched read, of three keys in the order fee pool, sender account,
    recipient account; the three query ids are three successive draws of the
    generator, each between 0 and 2^53 - 1, and nothing makes them
    distinct. *)
Theorem deliver_tx_single_read self request p cfg m from_key to_key w :
  send_call self request p cfg m from_key to_key ->
  let n := draws w in
  let ids := ids_at random_source n in
  exists r w',
    deliver_tx random_source self request w = (ok r, w') /\
    reads_of (events w') =
    reads_of (events w) ++
    [ {| keys :=
           [ {| query_id := fee_query_id ids;
                read_key := fee_pool_key (chain_id cfg) |};
             {| query_id := from_query_id ids; read_key := from_key |};
             {| query_id := to_query_id ids; read_key := to_key |} ] |} ] /\
    from_query_id ids = random_source n mod 2 ^ 53 /\
    to_query_id ids = random_source (S n) mod 2 ^ 53 /\
    fee_query_id ids = random_source (S (S n)) mod 2 ^ 53 /\
    (forall q, In q [from_query_id ids; to_query_id ids; fee_query_id ids] ->
               0 <= q <= 2 ^ 53 - 1).
Proof.
  intros [Hp Hc Hurl Hparse Hfee Hfk Htk Hch] n ids.
  destruct (deliver_send_reads self p cfg m _ from_key to_key
              {| events := events w ++
                   [EvParseMessage (value (msg (deliver_tx_of request)))];
                 draws := draws w |}
              Hp Hc Hfee Hfk Htk Hch) as [r [w' [Hrun Hreads]]].
  exists r, w'. split; [|split; [|repeat split]].
  - apply (deliver_tx_run self request m w _ _ Hurl Hparse). exact Hrun.
  - rewrite Hreads. cbn [events draws]. rewrite reads_of_app. cbn.
    now rewrite app_nil_r.
  - cbn in H. destruct H as [<-|[<-|[<-|[]]]]; cbn;
      apply Z.mod_pos_bound; reflexivity.
  - cbn in H.
    assert (Hb : forall x, x mod 2 ^ 53 <= 2 ^ 53 - 1).
    { intros x. pose proof (Z.mod_pos_bound x (2 ^ 53) eq_refl). lia. }
    destruct H as [<-|[<-|[<-|[]]]]; cbn [from_query_id to_query_id
      fee_query_id ids Scenario.ids_at]; apply Hb.
Qed.

End ContractTheorems.

Section FixtureFacts.
Import Fixture.
Existing Instance ascii_interp.
Existing Instance fixed_codec.




(** On that state [check_tx] refuses the fee of 10, the minimum being 20,
    although [deliver_tx] executes the same transaction. *)
Example check_tx_refuses_what_deliver_tx_executes :
  let s := [(account_key alice, account_bytes alice 100);
            (fee_params_key, fee_params_bytes 20)] in
  fst (check_tx (contract_on s) 7
                {| check_tx_of := send_tx alice bob 40 10 |} start) =
  ok {| recipient := []; authorized_signers := [];
        check_error :=
          Some {| err_code := 14; err_module := "contract";
                  err_msg := "Transaction fee 10 is below state minimum 20" |}
     |}.
Proof. reflexivity. Qed.

(** C1, on the code.  A self-transfer of 40 with a fee of 10 from a balance of
    100 issues one write with one account set and no delete, and adds the fee
    to the pool, but the amount it writes for the account is 50, the balance
    less amount and fee, where the specification has 90: the record with only
    the fee deducted is computed and never written. *)
Theorem self_transfer_writes_debited_amount :
  let s := [(account_key alice, account_bytes alice 100)] in
  writes_of
    (events (snd (deliver_tx counting (contract_on s)
                    {| deliver_tx_of := send_tx alice alice 40 10 |} start))) =
  [ {| sets :=
         [ {| set_key := fee_pool_key 1;
              set_value :=
                serialize_pool {| pool_id := 1; pool_amount := 10 |} |};
           {| set_key := account_key alice;
              set_value :=
                serialize_account
                  {| acc_address := alice; acc_amount := 50 |} |} ];
       deletes := [] |} ] /\
  serialize_account {| acc_address := alice; acc_amount := 50 |} <>
  serialize_account {| acc_address := alice; acc_amount := 90 |}.
Proof. split; [reflexivity | discriminate]. Qed.

Lemma check_tx_fee_floor_witness :
  let s := [(fee_params_key, fee_params_bytes 20)] in
  exists w',
    check_tx (contract_on s) 7
             {| check_tx_of := send_tx alice bob 40 10 |} start =
    (ok {| recipient := [];
           authorized_signers := [];
           check_error :=
             Some {| err_code := 14;
                     err_module := "contract";
                     err_msg :=
                       "Transaction fee 10 is below state minimum 20" |} |},
     w') /\
    parses_of (events w') = [].
Proof.
  intros s.
  apply (check_tx_fee_floor (contract_on s) 7
           {| check_tx_of := send_tx alice bob 40 10 |}
           (store_plugin s) {| send_fee := 20 |} start).
  - constructor.
    + reflexivity.
    + discriminate.
    + eexists. eexists. eexists. eexists. eexists.
      split; [reflexivity|].
      split; [reflexivity|].
      split; [reflexivity|].
      split; [reflexivity|].
      split; reflexivity.
  - reflexivity.
  - reflexivity.
Defined.

(** Nothing keeps the three query ids apart: with a generator that repeats
    itself they are equal; and a transaction whose fee is 0 issues no read at
    all. *)
Lemma query_ids_not_distinct :
  let s := [(account_key alice, account_bytes alice 100)] in
  (exists a b c,
     reads_of
       (events (snd (deliver_tx (fun _ => 7) (contract_on s)
                       {| deliver_tx_of := send_tx alice bob 40 10 |} start)))
     = [ {| keys := [a; b; c] |} ] /\
     ~ (query_id a <> query_id b /\ query_id a <> query_id c /\
        query_id b <> query_id c)) /\
  reads_of
    (events (snd (deliver_tx counting (contract_on s)
                    {| deliver_tx_of := send_tx alice bob 40 0 |} start)))
  = [].
Proof.
  split.
  - eexists. eexists. eexists. split.
    + vm_compute. reflexivity.
    + cbn. intros [H _]. now apply H.
  - reflexivity.
Qed.

Lemma deliver_tx_single_read_witness :
  let s := [(account_key alice, account_bytes alice 100)] in
  exists r w',
    deliver_tx counting (contract_on s)
               {| deliver_tx_of := send_tx alice bob 40 10 |} start
    = (ok r, w') /\
    reads_of (events w') =
    [ {| keys := [ {| query_id := 2; read_key := fee_pool_key 1 |};
                   {| query_id := 0; read_key := account_key alice |};
                   {| query_id := 1; read_key := account_key bob |} ] |} ].
Proof.
  intros s.
  destruct (deliver_tx_single_read counting (contract_on s)
              {| deliver_tx_of := send_tx alice bob 40 10 |}
              (store_plugin s) {| chain_id := 1 |}
              (send_message alice bob 40) (account_key alice)
              (account_key bob) start) as [r [w' [E [R _]]]].
  - constructor; try reflexivity. vm_compute. split; [discriminate|reflexivity].
  - exists r, w'. split; [exact E | exact R].
Defined.

End FixtureFacts.

(** * Further properties of the key encoder and of the validator *)

Section EncoderFacts.
Context {I : Interp}.

Lemma app_same_length {A} (a b c d : list A) :
  List.length a = List.length b -> a ++ c = b ++ d -> a = b /\ c = d.
Proof.
  revert b. induction a as [|x a IH]; intros [|y b] Hl H;
    try discriminate Hl.
  - split; [reflexivity | exact H].
  - cbn in Hl, H. injection H as -> H. injection Hl as Hl.
    destruct (IH b Hl H) as [-> ->]. split; reflexivity.
Qed.

Lemma byte_of_Z_length_inj (n k : nat) :
  (n <= 255)%nat -> (k <= 255)%nat ->
  byte_of_Z (Z.of_nat n) = byte_of_Z (Z.of_nat k) -> n = k.
Proof.
  intros Hn Hk H. apply (f_equal byte_val) in H.
  rewrite !byte_val_of_Z, !Z.mod_small in H by lia. lia.
Qed.

Lemma len_prefixed_cons (x : bytes) (rest : list bytes) :
  x <> [] ->
  len_prefixed (List.map Some (x :: rest)) =
  byte_of_Z (Z.of_nat (List.length x)) :: x ++
  len_prefixed (List.map Some rest).
Proof.
  intros Hx. unfold len_prefixed. cbn [List.map flat_map].
  destruct x as [|b x']; [now elim Hx|]. reflexivity.
Qed.

Lemma len_prefixed_injective (xs : list bytes) : forall ys,
  Forall (fun b : bytes => b <> [] /\ (List.length b <= 255)%nat) xs ->
  Forall (fun b : bytes => b <> [] /\ (List.length b <= 255)%nat) ys ->
  len_prefixed (List.map Some xs) = len_prefixed (List.map Some ys) ->
  xs = ys.
Proof.
  induction xs as [|x xs IH]; intros [|y ys] Hx Hy H.
  - reflexivity.
  - inversion Hy as [|? ? [Hne _] _]; subst.
    rewrite (len_prefixed_cons y ys Hne) in H. discriminate H.
  - inversion Hx as [|? ? [Hne _] _]; subst.
    rewrite (len_prefixed_cons x xs Hne) in H. discriminate H.
  - inversion Hx as [|? ? [Hnx Hlx] Hxs]; subst.
    inversion Hy as [|? ? [Hny Hly] Hys]; subst.
    rewrite (len_prefixed_cons x xs Hnx), (len_prefixed_cons y ys Hny) in H.
    injection H as Hb H.
    pose proof (byte_of_Z_length_inj _ _ Hlx Hly Hb) as Hl.
    destruct (app_same_length _ _ _ _ Hl H) as [-> Hrest].
    now rewrite (IH ys Hxs Hys Hrest).
Qed.

Lemma fits_all (xs : list bytes) :
  Forall (fun b : bytes => b <> [] /\ (List.length b <= 255)%nat) xs ->
  forallb fits (List.map Some xs) = true.
Proof.
  induction 1 as [|x xs [_ Hl] _ IH]; [reflexivity|].
  cbn [List.map forallb fits]. rewrite IH.
  apply andb_true_iff. split; [now apply Nat.leb_le | reflexivity].
Qed.

(** X1. The join can be undone: two sequences of non-empty arguments of at most
    255 bytes each that join to the same bytes are the same sequence. *)
Theorem join_len_prefix_injective (xs ys : list bytes) :
  Forall (fun b : bytes => b <> [] /\ (List.length b <= 255)%nat) xs ->
  Forall (fun b : bytes => b <> [] /\ (List.length b <= 255)%nat) ys ->
  join_len_prefix (List.map Some xs) = join_len_prefix (List.map Some ys) ->
  xs = ys.
Proof.
  intros Hx Hy H. unfold join_len_prefix in H.
  rewrite (join_loop_fits _ [] (fits_all xs Hx)) in H.
  rewrite (join_loop_fits _ [] (fits_all ys Hy)) in H.
  injection H as H. now apply len_prefixed_injective.
Qed.

(** What [key_for_account] returns when it returns. *)
Lemma key_for_account_bytes (a k : bytes) :
  key_for_account (AddrBytes a) = ok k ->
  (List.length a <= 255)%nat /\ k = [x01; x01] ++ frame (Some a).
Proof.
  unfold key_for_account, join_len_prefix.
  cbn [bind result_monad rbind ok]. intros H.
  destruct (fits (Some a)) eqn:Hf.
  - rewrite join_loop_fits in H by (cbn [forallb]; now rewrite Hf).
    injection H as <-. split; [now apply Nat.leb_le in Hf|].
    unfold len_prefixed. cbn [flat_map frame ACCOUNT_PREFIX app].
    now rewrite app_nil_r.
  - destruct (join_loop_too_long [Some ACCOUNT_PREFIX; Some a] [])
      as [m Hm]; [cbn [forallb]; now rewrite Hf|].
    rewrite Hm in H. discriminate H.
Qed.

(** X2. Two addresses with the same account key are the same address. *)
Theorem key_for_account_injective (a b k : bytes) :
  key_for_account (AddrBytes a) = ok k ->
  key_for_account (AddrBytes b) = ok k ->
  a = b.
Proof.
  intros Ha Hb.
  destruct (key_for_account_bytes a k Ha) as [_ Ea].
  destruct (key_for_account_bytes b k Hb) as [_ Eb].
  rewrite Ea in Eb. clear Ea Ha Hb.
  destruct a as [|x a], b as [|y b]; cbn in Eb.
  - reflexivity.
  - discriminate Eb.
  - discriminate Eb.
  - now injection Eb as _ -> ->.
Qed.

(** An address longer than 255 bytes has no key. *)
Lemma key_for_account_too_long (a : bytes) :
  (255 < List.length a)%nat ->
  exists m, key_for_account (AddrBytes a) = raise (ValueError m).
Proof.
  intros Hl. unfold key_for_account, join_len_prefix.
  cbn [bind result_monad rbind ok].
  apply join_loop_too_long. cbn [forallb fits].
  replace (List.length a <=? 255)%nat with false
    by (symmetry; apply Nat.leb_gt; exact Hl).
  reflexivity.
Qed.

(** What [key_for_fee_pool] returns when it returns, for an integer id. *)
Lemma key_for_fee_pool_int (c : Z) (k : bytes) :
  key_for_fee_pool (PInt c) = ok k ->
  0 <= c < 2 ^ 64 /\ k = fee_pool_key c.
Proof.
  intros H.
  destruct (Z.ltb_spec c 0) as [Hneg|Hpos].
  - unfold key_for_fee_pool, format_uint64 in H.
    cbn [bind result_monad rbind ok] in H.
    apply Z.ltb_lt in Hneg. rewrite Hneg in H. discriminate H.
  - destruct (Z.leb_spec (2 ^ 64) c) as [Hbig|Hsmall].
    + unfold key_for_fee_pool, format_uint64 in H.
      cbn [bind result_monad rbind ok] in H.
      apply Z.leb_le in Hbig. rewrite Hbig, orb_true_r in H.
      discriminate H.
    + rewrite key_for_fee_pool_ok in H by lia.
      injection H as <-. split; [lia | reflexivity].
Qed.

(** A chain id outside 64 bits has no fee pool key. *)
Lemma key_for_fee_pool_out_of_range (c : Z) :
  c < 0 \/ 2 ^ 64 <= c ->
  key_for_fee_pool (PInt c) =
  raise (ValueError ("Invalid uint64 value: " ++ str_of_int c)).
Proof.
  intros H. unfold key_for_fee_pool, format_uint64.
  cbn [bind result_monad rbind ok].
  replace ((c <? 0) || (2 ^ 64 <=? c)) with true; [reflexivity|].
  symmetry. apply orb_true_iff.
  destruct H; [left; now apply Z.ltb_lt | right; now apply Z.leb_le].
Qed.

(** X3. The fee pool has a key exactly for the chain ids that fit in 64 bits, and
    two chain ids with the same key are the same chain id. *)
Theorem key_for_fee_pool_domain (c : Z) :
  ((exists k, key_for_fee_pool (PInt c) = ok k) <-> 0 <= c < 2 ^ 64) /\
  (c < 0 \/ 2 ^ 64 <= c ->
   key_for_fee_pool (PInt c) =
   raise (ValueError ("Invalid uint64 value: " ++ str_of_int c))) /\
  (forall d k, key_for_fee_pool (PInt c) = ok k ->
               key_for_fee_pool (PInt d) = ok k -> c = d).
Proof.
  split; [|split].
  - split.
    + intros [k H]. exact (proj1 (key_for_fee_pool_int c k H)).
    + intros H. eexists. now apply key_for_fee_pool_ok.
  - apply key_for_fee_pool_out_of_range.
  - intros d k Hc Hd.
    destruct (key_for_fee_pool_int c k Hc) as [Rc Ec].
    destruct (key_for_fee_pool_int d k Hd) as [Rd Ed].
    rewrite Ec in Ed. unfold fee_pool_key in Ed.
    apply app_inv_head in Ed.
    rewrite <- (pack_be64_value c Rc), <- (pack_be64_value d Rd).
    now rewrite Ed.
Qed.

(** X4. The three families of keys never meet: no account key is a fee pool key
    or the key of the fee parameters, and no fee pool key is the key of the
    fee parameters. *)
Theorem key_families_disjoint (a : bytes) (c : Z) (ka kp : bytes) :
  key_for_account (AddrBytes a) = ok ka ->
  key_for_fee_pool (PInt c) = ok kp ->
  key_for_fee_params = ok fee_params_key /\
  ka <> kp /\ ka <> fee_params_key /\ kp <> fee_params_key.
Proof.
  intros Ha Hp.
  destruct (key_for_account_bytes a ka Ha) as [_ ->].
  destruct (key_for_fee_pool_int c kp Hp) as [_ ->].
  split; [reflexivity|].
  destruct a as [|x a]; cbn; repeat split; discriminate.
Qed.

End EncoderFacts.

Section ValidatorFacts.
Context {I : Interp}.

Lemma normalize_address_decoded (a : Address) (b : bytes) :
  address_bytes_of a = ok b -> List.length b = 20%nat ->
  normalize_address a = ok b.
Proof.
  intros Hb Hl.
  assert (Hv : validate_address a = true).
  { unfold validate_address. rewrite Hb. now apply Nat.eqb_eq. }
  unfold normalize_address. rewrite Hv. cbn [negb].
  destruct a; exact Hb.
Qed.

(** X5. [normalize_address] returns the decoded bytes exactly when they are 20
    bytes long, and raises the same [ValueError] in every other case, also
    when the decoding itself fails. *)
Theorem normalize_address_spec (a : Address) :
  (forall b, normalize_address a = ok b <->
             address_bytes_of a = ok b /\ List.length b = 20%nat) /\
  (validate_address a = false ->
   normalize_address a =
   raise (ValueError "Invalid address: must be exactly 20 bytes")) /\
  (forall b, normalize_address a = ok b ->
             normalize_address (AddrBytes b) = ok b).
Proof.
  assert (Hsame : validate_address a = true ->
                  normalize_address a = address_bytes_of a).
  { intros Hv. unfold normalize_address. rewrite Hv. cbn [negb].
    destruct a; reflexivity. }
  assert (Hok : forall b, normalize_address a = ok b ->
                address_bytes_of a = ok b /\ List.length b = 20%nat).
  { intros b H. destruct (validate_address a) eqn:Hv.
    - rewrite (Hsame eq_refl) in H. split; [exact H|].
      unfold validate_address in Hv. rewrite H in Hv.
      now apply Nat.eqb_eq.
    - unfold normalize_address in H. rewrite Hv in H. discriminate H. }
  split; [|split].
  - intros b. split; [apply Hok|].
    intros [Hb Hl]. rewrite Hsame; [exact Hb|].
    unfold validate_address. rewrite Hb. now apply Nat.eqb_eq.
  - intros Hv. unfold normalize_address. now rewrite Hv.
  - intros b H. destruct (Hok b H) as [_ Hl].
    now apply normalize_address_20.
Qed.

Lemma hex_byte (x : byte) :
  let n := Byte.to_N x in
  let hi := N_of_ascii (hex_digit (n / 16)) in
  let lo := N_of_ascii (hex_digit (n mod 16)) in
  ascii_space hi = false /\
  hexval hi = Some (n / 16)%N /\ hexval lo = Some (n mod 16)%N /\
  byte_of_Z (Z.of_N ((n / 16) * 16 + n mod 16)) = x.
Proof. destruct x; vm_compute; repeat split; reflexivity. Qed.

(** Reading back what [hex] prints gives the bytes printed. *)
Lemma fromhex_hex (b : bytes) : fromhex (lit (hex b)) = ok b.
Proof.
  induction b as [|x b IH]; [reflexivity|].
  destruct (hex_byte x) as (Hs & Hhi & Hlo & Hx).
  change (lit (hex (x :: b))) with
    (N_of_ascii (hex_digit (Byte.to_N x / 16)) ::
     N_of_ascii (hex_digit (Byte.to_N x mod 16)) :: lit (hex b)).
  cbn [fromhex]. rewrite Hs, Hhi, Hlo, IH.
  cbn [bind result_monad rbind ok]. now rewrite Hx.
Qed.

(** X6. The hexadecimal text of a 20-byte address, with the prefix "0x", is a
    valid address and normalises to the address it spells. *)
Theorem normalize_address_hex (b : bytes) :
  List.length b = 20%nat ->
  validate_address (AddrStr (lit "0x" ++ lit (hex b))) = true /\
  normalize_address (AddrStr (lit "0x" ++ lit (hex b))) = ok b.
Proof.
  intros Hl.
  assert (Hd : address_bytes_of (AddrStr (lit "0x" ++ lit (hex b))) = ok b).
  { unfold address_bytes_of.
    change (lit "0x" ++ lit (hex b)) with (48%N :: 120%N :: lit (hex b)).
    change (startswith (48%N :: 120%N :: lit (hex b)) (lit "0x")) with true.
    cbn [skipn]. apply fromhex_hex. }
  split.
  - unfold validate_address. rewrite Hd. now apply Nat.eqb_eq.
  - now apply normalize_address_decoded.
Qed.

Lemma utf8_ascii (c : N) :
  (c < 128)%N -> utf8_char c = Some [byte_of_Z (Z.of_N c)].
Proof.
  intros H. unfold utf8_char. apply N.ltb_lt in H. now rewrite H.
Qed.

Lemma encode_ascii (s : str) :
  forallb (fun c => c <? 128)%N s = true ->
  encode s = ok (List.map (fun c => byte_of_Z (Z.of_N c)) s).
Proof.
  induction s as [|c s IH]; [reflexivity|].
  cbn [forallb]. intros H. apply andb_true_iff in H as [Hc Hs].
  cbn [encode]. rewrite (utf8_ascii c) by now apply N.ltb_lt.
  rewrite (IH Hs). reflexivity.
Qed.

(** X7. A text address made of ASCII characters that does not start with "0x"
    is valid exactly when it has 20 characters. *)
Theorem validate_address_ascii_text (s : str) :
  forallb (fun c => c <? 128)%N s = true ->
  startswith s (lit "0x") = false ->
  validate_address (AddrStr s) = (List.length s =? 20)%nat /\
  (List.length s = 20%nat ->
   normalize_address (AddrStr s) =
   ok (List.map (fun c => byte_of_Z (Z.of_N c)) s)).
Proof.
  intros Ha Hp.
  assert (Hd : address_bytes_of (AddrStr s) =
               ok (List.map (fun c => byte_of_Z (Z.of_N c)) s)).
  { unfold address_bytes_of. rewrite Hp. now apply encode_ascii. }
  split.
  - unfold validate_address. rewrite Hd. unfold ok.
    now rewrite length_map.
  - intros Hl. apply normalize_address_decoded;
      [exact Hd | now rewrite length_map].
Qed.

(** X8. [normalize_amount] returns only integers greater than zero, namely the
    integer [validate_amount] accepted, and raises the same [ValueError] for
    everything [validate_amount] refuses. *)
Theorem normalize_amount_spec (a : Amount) :
  (forall n, normalize_amount a = ok n <->
             amount_int_of a = ok n /\ 0 < n) /\
  (validate_amount a = false ->
   normalize_amount a =
   raise (ValueError "Invalid amount: must be greater than 0")).
Proof.
  assert (Hsame : validate_amount a = true ->
                  normalize_amount a = amount_int_of a).
  { intros Hv. unfold normalize_amount. rewrite Hv. cbn [negb].
    destruct a; reflexivity. }
  split.
  - intros n. split.
    + intros H. destruct (validate_amount a) eqn:Hv.
      * rewrite (Hsame eq_refl) in H. split; [exact H|].
        unfold validate_amount in Hv. rewrite H in Hv.
        now apply Z.ltb_lt.
      * unfold normalize_amount in H. rewrite Hv in H. discriminate H.
    + intros [Hn Hpos]. rewrite Hsame; [exact Hn|].
      unfold validate_amount. rewrite Hn. now apply Z.ltb_lt.
  - intros Hv. unfold normalize_amount. now rewrite Hv.
Qed.

(** [_check_message_send] accepts a message exactly when both addresses are
    20 bytes long and the amount is positive, and then names the recipient
    and the sender as only signer; it reports a bad sender address before a
    bad recipient address, and that before a bad amount. *)
Lemma check_message_send_spec (m : MessageSend) :
  let good_from := (List.length (from_address m) =? 20)%nat in
  let good_to := (List.length (to_address m) =? 20)%nat in
  (good_from = true -> good_to = true -> 0 < amount m ->
   _check_message_send m =
   ok {| recipient := to_address m;
         authorized_signers := [from_address m];
         check_error := None |}) /\
  (good_from = false ->
   _check_message_send m =
   raise (InvalidAddressError (Some (from_address m)))) /\
  (good_from = true -> good_to = false ->
   _check_message_send m =
   raise (InvalidAddressError (Some (to_address m)))) /\
  (good_from = true -> good_to = true -> amount m <= 0 ->
   _check_message_send m =
   raise (InvalidAmountError (Some (PInt (amount m))))).
Proof.
  intros good_from good_to. unfold _check_message_send, validate_address,
    validate_amount, address_bytes_of, amount_int_of, ok.
  fold good_from. fold good_to.
  repeat split.
  - intros -> -> H. apply Z.ltb_lt in H. now rewrite H.
  - now intros ->.
  - now intros -> ->.
  - intros -> -> H. apply Z.ltb_ge in H. now rewrite H.
Qed.

End ValidatorFacts.

(** * The events of a call *)

Section TraceFacts.
Context {I : Interp} {C : Codec}.
Variable random_source : nat -> Z.

Lemma emits_weaken {A} (P Q : result A -> list event -> Prop) (m : Exec A) :
  emits P m -> (forall r l, P r l -> Q r l) -> emits Q m.
Proof.
  intros Hm H w. destruct (Hm w) as [l [E Hl]]. exists l. split; auto.
Qed.

Lemma emits_bind {A B} (P : result A -> list event -> Prop)
    (Q : A -> result B -> list event -> Prop)
    (R : result B -> list event -> Prop) (m : Exec A) (k : A -> Exec B) :
  emits P m ->
  (forall a, emits (Q a) (k a)) ->
  (forall e l, P (inl e) l -> R (inl e) l) ->
  (forall a l1 r l2, P (inr a) l1 -> Q a r l2 -> R r (l1 ++ l2)) ->
  emits R (x <-- m ;; k x).
Proof.
  intros Hm Hk He Ha w. cbn [bind exec_monad].
  destruct (Hm w) as [l1 [E1 H1]].
  destruct (m w) as [[e|a] w1]; cbn [fst snd] in *.
  - exists l1. split; [exact E1 | now apply He].
  - destruct (Hk a w1) as [l2 [E2 H2]].
    exists (l1 ++ l2). split.
    + rewrite E2, E1. now rewrite app_assoc.
    + now apply (Ha a).
Qed.

Lemma emits_try_except {A} (P : result A -> list event -> Prop)
    (Q : exception -> result A -> list event -> Prop)
    (R : result A -> list event -> Prop) (m : Exec A) h :
  emits P m ->
  (forall e, emits (Q e) (h e)) ->
  (forall a l, P (inr a) l -> R (inr a) l) ->
  (forall e l1 r l2, P (inl e) l1 -> Q e r l2 -> R r (l1 ++ l2)) ->
  emits R (try_except m h).
Proof.
  intros Hm Hh Ha He w. unfold try_except.
  destruct (Hm w) as [l1 [E1 H1]].
  destruct (m w) as [[e|a] w1]; cbn [fst snd] in *.
  - destruct (Hh e w1) as [l2 [E2 H2]].
    exists (l1 ++ l2). split.
    + rewrite E2, E1. now rewrite app_assoc.
    + now apply (He e).
  - exists l1. split; [exact E1 | now apply Ha].
Qed.

Lemma pure_ret {A} (a : A) : pure (ret a).
Proof. intros w. exists []. split; [cbn; now rewrite app_nil_r | reflexivity]. Qed.

Lemma pure_lift {A} (r : result A) : pure (lift r).
Proof. intros w. exists []. split; [cbn; now rewrite app_nil_r | reflexivity]. Qed.

Lemma pure_throw {A} (e : exception) : pure (@throw A e).
Proof. intros w. exists []. split; [cbn; now rewrite app_nil_r | reflexivity]. Qed.

Lemma pure_bind {A B} (m : Exec A) (k : A -> Exec B) :
  pure m -> (forall a, pure (k a)) -> pure (x <-- m ;; k x).
Proof.
  intros Hm Hk.
  apply (emits_bind (fun _ l => l = []) (fun _ _ l => l = []) _ m k Hm Hk).
  - auto.
  - intros a l1 r l2 -> ->. reflexivity.
Qed.

Lemma pure_try_except {A} (m : Exec A) h :
  pure m -> (forall e, pure (h e)) -> pure (try_except m h).
Proof.
  intros Hm Hh.
  apply (emits_try_except (fun _ l => l = []) (fun _ _ l => l = []) _ m h
           Hm Hh).
  - auto.
  - intros e l1 r l2 -> ->. reflexivity.
Qed.

Lemma pure_initialized self : pure (initialized self).
Proof.
  unfold initialized. destruct (plugin self), (config self);
    first [apply pure_ret | apply pure_throw].
Qed.

Lemma pure_generate_query_ids : pure (_generate_query_ids random_source).
Proof.
  intros w. exists []. split; [cbn; now rewrite app_nil_r | reflexivity].
Qed.

Ltac pure_step :=
  first
    [ apply pure_ret
    | apply pure_lift
    | apply pure_throw
    | apply pure_initialized
    | apply pure_generate_query_ids
    | apply pure_bind; [|intros]
    | apply pure_try_except; [|intros]
    | match goal with
      | |- pure (if ?b then _ else _) => destruct b
      | |- pure (let '(_, _) := ?x in _) => destruct x
      | |- pure (match ?x with _ => _ end) => destruct x
      end ].

(** A pure prefix leaves the events of what follows as they are. *)
Lemma emits_after_pure {A B} (R : result B -> list event -> Prop)
    (m : Exec A) (k : A -> Exec B) :
  pure m -> (forall e, R (inl e) []) ->
  (forall a, emits R (k a)) ->
  emits R (x <-- m ;; k x).
Proof.
  intros Hm He Hk.
  apply (emits_bind (fun _ l => l = []) (fun _ => R) R m k Hm Hk).
  - intros e l ->. apply He.
  - intros a l1 r l2 -> H. exact H.
Qed.

(** One event, then a pure rest. *)
Lemma emits_one_event {A B} (K : event -> bool) (m : Exec A)
    (k : A -> Exec B) (e : event) :
  (forall w, events (snd (m w)) = events w ++ [e]) -> K e = true ->
  (forall a, pure (k a)) ->
  emits (fun _ l => at_most_one K l) (x <-- m ;; k x).
Proof.
  intros Hm HK Hk.
  apply (emits_bind (fun _ l => l = [e]) (fun _ _ l => l = []) _ m k).
  - intros w. exists [e]. split; [apply Hm | reflexivity].
  - exact Hk.
  - intros e0 l ->. right. exists e. now split.
  - intros a l1 r l2 -> ->. right. exists e. now split.
Qed.

(** One event whatever the result, then a pure rest. *)
Lemma emits_event_then_pure {A B} (R : result B -> list event -> Prop)
    (m : Exec A) (k : A -> Exec B) (e : event) :
  (forall w, events (snd (m w)) = events w ++ [e]) ->
  (forall a, pure (k a)) ->
  (forall r, R r [e]) ->
  emits R (x <-- m ;; k x).
Proof.
  intros Hm Hk HR.
  apply (emits_bind (fun _ l => l = [e]) (fun _ _ l => l = []) _ m k).
  - intros w. exists [e]. split; [apply Hm | reflexivity].
  - exact Hk.
  - intros e0 l ->. apply HR.
  - intros a l1 r l2 -> ->. apply HR.
Qed.

Lemma emits_of_pure {A} (R : result A -> list event -> Prop) (m : Exec A) :
  pure m -> (forall r, R r []) -> emits R m.
Proof.
  intros Hm HR. apply (emits_weaken _ _ m Hm). intros r l ->. apply HR.
Qed.

(** The read of a send: it fails before asking, or asks once. *)
Lemma read_data_emits self m :
  emits (fun r l => (l = [] /\ exists e, r = inl e) \/
                    (exists e, l = [e] /\ is_read e = true))
        (_read_deliver_message_required_data random_source self m).
Proof.
  unfold _read_deliver_message_required_data.
  assert (Hraise : forall e : exception,
            ([] = @nil event /\ exists e0, @inl exception state_data e = inl e0)
            \/ (exists e0, [] = [e0] /\ is_read e0 = true)).
  { intros e. left. split; [reflexivity | eexists; reflexivity]. }
  apply emits_after_pure;
    [apply pure_initialized | exact Hraise | intros [p cfg]].
  apply emits_after_pure;
    [apply pure_generate_query_ids | exact Hraise | intros q].
  apply emits_after_pure; [apply pure_lift | exact Hraise | intros fk].
  apply emits_after_pure; [apply pure_lift | exact Hraise | intros tk].
  apply emits_after_pure; [apply pure_lift | exact Hraise | intros pk].
  eapply emits_event_then_pure.
  - intros w. rewrite state_read_run. reflexivity.
  - intros resp. destruct (read_error resp); [apply pure_throw | apply pure_ret].
  - intros r. right. eexists. split; reflexivity.
Qed.

Lemma pure_deliver_handlers e : pure (deliver_handlers e).
Proof. unfold deliver_handlers. destruct (is_plugin_exception e); apply pure_ret. Qed.

Lemma pure_check_handlers e : pure (check_handlers e).
Proof. unfold check_handlers. destruct (is_plugin_exception e); apply pure_ret. Qed.

Lemma deliver_handlers_ok e w : exists r, fst (deliver_handlers e w) = ok r.
Proof.
  unfold deliver_handlers. destruct (is_plugin_exception e); eexists;
    reflexivity.
Qed.

Lemma check_handlers_ok e w : exists r, fst (check_handlers e w) = ok r.
Proof.
  unfold check_handlers. destruct (is_plugin_exception e); eexists;
    reflexivity.
Qed.

Ltac write_step :=
  first
    [ eapply (emits_one_event is_write);
      [ intros; rewrite state_write_run; reflexivity
      | reflexivity
      | intros; solve [repeat pure_step] ]
    | apply emits_after_pure;
      [ solve [repeat pure_step] | intros; left; reflexivity | intros ]
    | match goal with
      | |- emits _ (if ?b then _ else _) => destruct b
      | |- emits _ (let '(_, _) := ?x in _) => destruct x
      end
    | apply emits_of_pure;
      [ solve [repeat pure_step] | intros; left; reflexivity ] ].

(** Whatever the message, the fee and the host, [_deliver_message_send]
    raises nothing and asks the host at most for one read and then one
    write. *)
Lemma deliver_send_emits self m fee :
  emits (fun r l => (exists a, r = ok a) /\
                    one_then_one is_read is_write l)
        (_deliver_message_send random_source self m fee).
Proof.
  unfold _deliver_message_send.
  eapply (emits_try_except
            (fun _ l => one_then_one is_read is_write l)
            (fun _ r l => l = [] /\ exists a, r = ok a)).
  - apply emits_after_pure;
      [solve [repeat pure_step] | intros; left; reflexivity | intros fee0].
    apply emits_after_pure;
      [solve [repeat pure_step] | intros; left; reflexivity | intros [p cfg]].
    eapply (emits_bind _ (fun _ _ l => at_most_one is_write l)).
    + apply read_data_emits.
    + intros sd. repeat write_step.
    + intros e l [[-> _]|[e1 [-> H1]]].
      * left. reflexivity.
      * right. left. exists e1. now split.
    + intros a l1 r l2 [[_ [e He]]|[e1 [-> H1]]] H2; [discriminate He|].
      destruct H2 as [->|[e2 [-> H2]]].
      * right. left. exists e1. now split.
      * right. right. exists e1, e2. now split.
  - intros e w. exists []. split.
    + destruct (pure_deliver_handlers e w) as [l [E ->]]. exact E.
    + split; [reflexivity | apply deliver_handlers_ok].
  - intros a l H. split; [eexists; reflexivity | exact H].
  - intros e l1 r l2 H [-> Hr]. rewrite app_nil_r. split; assumption.
Qed.

(** X9. No exception of the class [Exception] leaves [deliver_tx]: every
    failure comes back as a response.  And whatever the request and the
    host, the events of a call are one of four
    sequences: nothing; the decoding of the message; the decoding and one
    read; the decoding, one read and one write.  So a call reads at most once,
    writes at most once, and writes only after it has read. *)
Theorem deliver_tx_protocol self request w :
  exists r l,
    fst (deliver_tx random_source self request w) = ok r /\
    events (snd (deliver_tx random_source self request w)) = events w ++ l /\
    deliver_trace l = true.
Proof.
  assert (H : emits (fun r l => (exists a, r = ok a) /\
                                deliver_trace l = true)
                    (deliver_tx random_source self request)).
  { unfold deliver_tx.
    eapply (emits_try_except
              (fun _ l => deliver_trace l = true)
              (fun _ r l => l = [] /\ exists a, r = ok a)).
    - destruct (endswith _ _).
      + eapply (emits_bind
                  (fun _ l => exists d, l = [EvParseMessage d])
                  (fun _ _ l => one_then_one is_read is_write l)).
        * intros w0. rewrite parse_run. eexists. split; [reflexivity|].
          eexists. reflexivity.
        * intros m.
          eapply (emits_try_except
                    (fun _ l => one_then_one is_read is_write l)
                    (fun _ _ l => l = [])).
          -- eapply emits_weaken; [apply deliver_send_emits|].
             intros r l [_ Hl]. exact Hl.
          -- intros e. destruct (is_plugin_exception e);
               [apply pure_ret | apply pure_throw].
          -- auto.
          -- intros e l1 r l2 Hl ->. now rewrite app_nil_r.
        * intros e l [d ->]. reflexivity.
        * intros a l1 r l2 [d ->] [->|[[e1 [-> H1]]|[e1 [e2 [-> [H1 H2]]]]]].
          -- reflexivity.
          -- destruct e1; try discriminate H1. reflexivity.
          -- destruct e1; try discriminate H1.
             destruct e2; try discriminate H2. reflexivity.
      + apply emits_of_pure; [apply pure_throw | reflexivity].
    - intros e w0. exists []. split.
      + destruct (pure_deliver_handlers e w0) as [l [E ->]]. exact E.
      + split; [reflexivity | apply deliver_handlers_ok].
    - intros a l Hl. split; [eexists; reflexivity | exact Hl].
    - intros e l1 r l2 Hl [-> Hr]. rewrite app_nil_r. split; assumption. }
  destruct (H w) as [l [E [[r Hr] Hl]]].
  exists r, l. repeat split; assumption.
Qed.

Ltac parse_step :=
  first
    [ eapply (emits_one_event is_parse);
      [ intros; rewrite parse_run; reflexivity
      | reflexivity
      | intros; solve [repeat pure_step] ]
    | apply emits_after_pure;
      [ solve [repeat pure_step] | intros; left; reflexivity | intros ]
    | apply emits_of_pure;
      [ solve [repeat pure_step] | intros; left; reflexivity ]
    | match goal with
      | |- emits _ (if ?b then _ else _) => destruct b
      | |- emits _ (let '(_, _) := ?x in _) => destruct x
      | |- emits _ (match ?x with _ => _ end) => destruct x
      end ].

(** X10. No exception of the class [Exception] leaves [check_tx], and it
    never writes: whatever the request and the host, the events of a call
    are nothing, or the read of the fee parameters, or that read followed by
    the decoding of the message. *)
Theorem check_tx_protocol self id request w :
  exists r l,
    fst (check_tx self id request w) = ok r /\
    events (snd (check_tx self id request w)) = events w ++ l /\
    check_trace l = true /\ writes_of l = [].
Proof.
  assert (H : emits (fun r l => (exists a, r = ok a) /\
                                check_trace l = true)
                    (check_tx self id request)).
  { unfold check_tx.
    eapply (emits_try_except
              (fun _ l => check_trace l = true)
              (fun _ r l => l = [] /\ exists a, r = ok a)).
    - apply emits_after_pure;
        [apply pure_initialized | reflexivity | intros [p cfg]].
      apply emits_after_pure; [apply pure_lift | reflexivity | intros key].
      eapply (emits_bind
                (fun _ l => exists q, l = [EvStateRead q])
                (fun _ _ l => at_most_one is_parse l)).
      + intros w0. rewrite state_read_run. eexists. split; [reflexivity|].
        eexists. reflexivity.
      + intros resp. repeat parse_step.
      + intros e l [q ->]. reflexivity.
      + intros a l1 r l2 [q ->] [->|[e [-> He]]].
        * reflexivity.
        * destruct e; try discriminate He. reflexivity.
    - intros e w0. exists []. split.
      + destruct (pure_check_handlers e w0) as [l [E ->]]. exact E.
      + split; [reflexivity | apply check_handlers_ok].
    - intros a l Hl. split; [eexists; reflexivity | exact Hl].
    - intros e l1 r l2 Hl [-> Hr]. rewrite app_nil_r. split; assumption. }
  destruct (H w) as [l [E [[r Hr] Hl]]].
  exists r, l. repeat split; try assumption.
  destruct l as [|[| |] [|[| |] [|? ?]]]; try discriminate Hl; reflexivity.
Qed.

End TraceFacts.

(** * What [deliver_tx] answers when it does not execute *)

Section DeliverRefusals.
Context {I : Interp} {C : Codec}.
Variable random_source : nat -> Z.

(** X11. A message that is not a send message is refused before anything else
    happens: no decoding, no read, no write. *)
Theorem deliver_tx_unsupported_type self request w :
  let tx := deliver_tx_of request in
  endswith (type_url (msg tx)) "/types.MessageSend" = false ->
  deliver_tx random_source self request w =
  (ok {| deliver_error :=
           Some {| err_code := 1;
                   err_module := "contract";
                   err_msg := "Unsupported message type: " ++
                              type_url (msg tx) |} |},
   w).
Proof.
  intros tx Hurl. unfold deliver_tx. fold tx. rewrite Hurl. reflexivity.
Qed.

(** X12. A send whose fee is zero or negative is refused, whatever the contract
    and the state, before any read. *)
Theorem deliver_tx_rejects_fee self request m w :
  let tx := deliver_tx_of request in
  endswith (type_url (msg tx)) "/types.MessageSend" = true ->
  message_send_from_string (value (msg tx)) = ok m ->
  fee tx <= 0 ->
  deliver_tx random_source self request w =
  (ok {| deliver_error :=
           Some {| err_code := 1;
                   err_module := "contract";
                   err_msg := "Invalid amount: must be greater than 0" |} |},
   {| events := events w ++ [EvParseMessage (value (msg tx))];
      draws := draws w |}).
Proof.
  intros tx Hurl Hparse Hfee.
  apply (deliver_tx_run random_source self request m w _ _ Hurl Hparse).
  unfold _deliver_message_send.
  rewrite (try_except_raise _ _ _
             (ValueError "Invalid amount: must be greater than 0")
             {| events := events w ++ [EvParseMessage (value (msg tx))];
                draws := draws w |}); [reflexivity|].
  rewrite (normalize_amount_nonpos _ Hfee).
  now rewrite (bind_run_raise _ _ _ _ _ (lift_run _ _)).
Qed.

(** X13. A contract without socket client or without configuration refuses every
    send with the same error, before any read. *)
Theorem deliver_tx_not_initialized self request m w :
  let tx := deliver_tx_of request in
  endswith (type_url (msg tx)) "/types.MessageSend" = true ->
  message_send_from_string (value (msg tx)) = ok m ->
  0 < fee tx ->
  plugin self = None \/ config self = None ->
  deliver_tx random_source self request w =
  (ok {| deliver_error :=
           Some {| err_code := 1;
                   err_module := "contract";
                   err_msg := "Plugin or config not initialized" |} |},
   {| events := events w ++ [EvParseMessage (value (msg tx))];
      draws := draws w |}).
Proof.
  intros tx Hurl Hparse Hfee Hnone.
  apply (deliver_tx_run random_source self request m w _ _ Hurl Hparse).
  unfold _deliver_message_send.
  rewrite (try_except_raise _ _ _ PluginNotInitializedError
             {| events := events w ++ [EvParseMessage (value (msg tx))];
                draws := draws w |}); [reflexivity|].
  rewrite (normalize_amount_pos _ Hfee).
  rewrite (bind_run_ok _ _ _ _ _ (lift_run _ _)).
  apply bind_run_raise. unfold initialized.
  destruct Hnone as [-> | ->]; [reflexivity|].
  destruct (plugin self); reflexivity.
Qed.

(** X14. The contract takes the chain id of its configuration as it is: one that
    does not fit in 64 bits has no fee pool key, and every send is then
    refused before any read. *)
Theorem deliver_tx_chain_id_out_of_range self request p cfg m fk tk w :
  let tx := deliver_tx_of request in
  endswith (type_url (msg tx)) "/types.MessageSend" = true ->
  message_send_from_string (value (msg tx)) = ok m ->
  0 < fee tx ->
  plugin self = Some p -> config self = Some cfg ->
  key_for_account (AddrBytes (from_address m)) = ok fk ->
  key_for_account (AddrBytes (to_address m)) = ok tk ->
  chain_id cfg < 0 \/ 2 ^ 64 <= chain_id cfg ->
  deliver_tx random_source self request w =
  (ok {| deliver_error :=
           Some {| err_code := 1;
                   err_module := "contract";
                   err_msg := "Invalid uint64 value: " ++
                              str_of_int (chain_id cfg) |} |},
   {| events := events w ++ [EvParseMessage (value (msg tx))];
      draws := S (S (S (draws w))) |}).
Proof.
  intros tx Hurl Hparse Hfee Hp Hc Hfk Htk Hbig.
  apply (deliver_tx_run random_source self request m w _ _ Hurl Hparse).
  unfold _deliver_message_send.
  rewrite (try_except_raise _ _ _
             (ValueError ("Invalid uint64 value: " ++
                          str_of_int (chain_id cfg)))
             {| events := events w ++ [EvParseMessage (value (msg tx))];
                draws := S (S (S (draws w))) |}); [reflexivity|].
  rewrite (normalize_amount_pos _ Hfee).
  rewrite (bind_run_ok _ _ _ _ _ (lift_run _ _)).
  rewrite (bind_run_ok _ _ _ _ _ (initialized_run self p cfg _ Hp Hc)).
  cbv beta iota.
  apply bind_run_raise.
  unfold _read_deliver_message_required_data.
  rewrite (bind_run_ok _ _ _ _ _ (initialized_run self p cfg _ Hp Hc)).
  cbv beta iota.
  rewrite (bind_run_ok _ _ _ _ _ (generate_query_ids_run random_source _)).
  rewrite Hfk, Htk.
  rewrite !(bind_run_ok _ _ _ _ _ (lift_run _ _)).
  apply bind_run_raise.
  rewrite lift_run. f_equal.
  now apply key_for_fee_pool_out_of_range.
Qed.

End DeliverRefusals.

(** * What the contract takes from the answer to its read *)

Section ReadAnswers.
Context {I : Interp} {C : Codec}.

Lemma recipient_default (to_b : option bytes) (m : MessageSend) :
  rcatch (a <-- (if truthy to_b then unmarshal account_from_string to_b
                 else ok None) ;;
          match a with
          | Some acc => ok acc
          | None => new_Account (to_address m) 0
          end)
         (new_Account (to_address m) 0) = ok (recipient_of to_b m).
Proof.
  destruct to_b as [[|b bs]|]; try reflexivity.
  cbn [truthy unmarshal recipient_of].
  destruct (account_from_string (b :: bs)); reflexivity.
Qed.

Lemma pool_default (fee_pool_b : option bytes) :
  rcatch (a <-- (if truthy fee_pool_b
                 then unmarshal pool_from_string fee_pool_b
                 else ok None) ;;
          match a with
          | Some pl => ok pl
          | None => new_Pool 0 0
          end)
         (new_Pool 0 0) = ok (pool_of fee_pool_b).
Proof.
  destruct fee_pool_b as [[|b bs]|]; try reflexivity.
  cbn [truthy unmarshal pool_of].
  destruct (pool_from_string (b :: bs)); reflexivity.
Qed.

(** Without a stored record the sender holds nothing. *)
Lemma unmarshal_absent_sender from_b to_b fee_pool_b m :
  truthy from_b = false ->
  _unmarshal_deliver_message_required_data from_b to_b fee_pool_b m =
  ok {| from_account := None; to_account := recipient_of to_b m;
        fee_pool := pool_of fee_pool_b; from_amount := 0 |}.
Proof.
  intros H. unfold _unmarshal_deliver_message_required_data.
  rewrite H, recipient_default, pool_default. reflexivity.
Qed.

Lemma unmarshal_decoded_sender b bs acc to_b fee_pool_b m :
  account_from_string (b :: bs) = ok acc ->
  _unmarshal_deliver_message_required_data (Some (b :: bs)) to_b fee_pool_b m =
  ok {| from_account := Some acc; to_account := recipient_of to_b m;
        fee_pool := pool_of fee_pool_b; from_amount := acc_amount acc |}.
Proof.
  intros H. unfold _unmarshal_deliver_message_required_data.
  rewrite recipient_default, pool_default.
  cbn [truthy unmarshal]. rewrite H. reflexivity.
Qed.

Lemma unmarshal_corrupt_sender b bs err to_b fee_pool_b m :
  account_from_string (b :: bs) = raise err ->
  _unmarshal_deliver_message_required_data (Some (b :: bs)) to_b fee_pool_b m =
  raise (ValueError ("Unmarshal failed: " ++ str_of_exc err)).
Proof.
  intros H. unfold _unmarshal_deliver_message_required_data.
  cbn [truthy unmarshal]. rewrite H. reflexivity.
Qed.

(** X15. The three records of a send are not treated alike.  A sender without a
    stored record counts as holding 0; a sender whose record does not decode
    makes the whole step raise.  A recipient or a fee pool whose record is
    absent, empty or does not decode is silently replaced by a fresh one with
    amount 0. *)
Theorem unmarshal_required_data_spec
    (from_b to_b fee_pool_b : option bytes) (m : MessageSend) :
  let run :=
    _unmarshal_deliver_message_required_data from_b to_b fee_pool_b m in
  (truthy from_b = false ->
   run = ok {| from_account := None; to_account := recipient_of to_b m;
               fee_pool := pool_of fee_pool_b; from_amount := 0 |}) /\
  (forall acc,
     truthy from_b = true ->
     unmarshal account_from_string from_b = ok (Some acc) ->
     run = ok {| from_account := Some acc; to_account := recipient_of to_b m;
                 fee_pool := pool_of fee_pool_b;
                 from_amount := acc_amount acc |}) /\
  (forall e,
     truthy from_b = true ->
     unmarshal account_from_string from_b = raise e ->
     run = raise e /\
     exists err, e = ValueError ("Unmarshal failed: " ++ str_of_exc err)) /\
  (truthy to_b = false -> recipient_of to_b m =
                          {| acc_address := to_address m; acc_amount := 0 |}) /\
  (truthy fee_pool_b = false ->
   pool_of fee_pool_b = {| pool_id := 0; pool_amount := 0 |}).
Proof.
  intros run. unfold run. clear run. split; [|split; [|split; [|split]]].
  - apply unmarshal_absent_sender.
  - intros acc Ht Hu. destruct from_b as [[|b bs]|]; try discriminate Ht.
    apply unmarshal_decoded_sender.
    cbn [unmarshal] in Hu.
    destruct (account_from_string (b :: bs)); [discriminate Hu|].
    now inversion Hu.
  - intros e Ht Hu. destruct from_b as [[|b bs]|]; try discriminate Ht.
    cbn [unmarshal] in Hu.
    destruct (account_from_string (b :: bs)) as [err|a] eqn:E;
      [|discriminate Hu].
    inversion Hu; subst e. split; [|now exists err].
    now apply unmarshal_corrupt_sender.
  - destruct to_b as [[|b bs]|]; try reflexivity. discriminate.
  - destruct fee_pool_b as [[|b bs]|]; try reflexivity. discriminate.
Qed.

(** The loop over the results, one field at a time. *)
Lemma collect_from (q : query_ids) (rs : list PluginReadResult) :
  forall d,
    from_bytes (fold_left (collect_result q) rs d) =
    fold_left (fun acc r => if result_query_id r =? from_query_id q
                            then first_value r else acc) rs (from_bytes d).
Proof.
  induction rs as [|r rs IH]; intros d; [reflexivity|].
  cbn [fold_left]. rewrite IH. f_equal. unfold collect_result.
  destruct (result_query_id r =? from_query_id q); [reflexivity|].
  destruct (result_query_id r =? to_query_id q); [reflexivity|].
  destruct (result_query_id r =? fee_query_id q); reflexivity.
Qed.

Lemma collect_to (q : query_ids) (rs : list PluginReadResult) :
  from_query_id q <> to_query_id q ->
  forall d,
    to_bytes (fold_left (collect_result q) rs d) =
    fold_left (fun acc r => if result_query_id r =? to_query_id q
                            then first_value r else acc) rs (to_bytes d).
Proof.
  intros Hft.
  induction rs as [|r rs IH]; intros d; [reflexivity|].
  cbn [fold_left]. rewrite IH. f_equal. unfold collect_result.
  destruct (Z.eqb_spec (result_query_id r) (from_query_id q)) as [E1|_].
  - destruct (Z.eqb_spec (result_query_id r) (to_query_id q)); [|reflexivity].
    congruence.
  - destruct (result_query_id r =? to_query_id q); [reflexivity|].
    destruct (result_query_id r =? fee_query_id q); reflexivity.
Qed.

Lemma collect_fee (q : query_ids) (rs : list PluginReadResult) :
  from_query_id q <> fee_query_id q ->
  to_query_id q <> fee_query_id q ->
  forall d,
    fee_pool_bytes (fold_left (collect_result q) rs d) =
    fold_left (fun acc r => if result_query_id r =? fee_query_id q
                            then first_value r else acc) rs (fee_pool_bytes d).
Proof.
  intros Hf Ht.
  induction rs as [|r rs IH]; intros d; [reflexivity|].
  cbn [fold_left]. rewrite IH. f_equal. unfold collect_result.
  destruct (Z.eqb_spec (result_query_id r) (from_query_id q)) as [E1|_].
  - destruct (Z.eqb_spec (result_query_id r) (fee_query_id q)); [|reflexivity].
    congruence.
  - destruct (Z.eqb_spec (result_query_id r) (to_query_id q)) as [E2|_].
    + destruct (Z.eqb_spec (result_query_id r) (fee_query_id q));
        [|reflexivity].
      congruence.
    + destruct (result_query_id r =? fee_query_id q); reflexivity.
Qed.

(** X16. With three distinct query ids, each of the three values is the value of
    the last result that carries its id, whatever the order and the number of
    results in the response: a result without entries, or a result with an
    unknown id, never leaves an earlier value of another id changed. *)
Theorem collected_by_id (q : query_ids) (response : PluginStateReadResponse) :
  from_query_id q <> to_query_id q ->
  from_query_id q <> fee_query_id q ->
  to_query_id q <> fee_query_id q ->
  let sd := collected q response in
  from_bytes sd = last_value (from_query_id q) (results response) /\
  to_bytes sd = last_value (to_query_id q) (results response) /\
  fee_pool_bytes sd = last_value (fee_query_id q) (results response).
Proof.
  intros Hft Hff Htf sd. unfold sd, collected, last_value.
  rewrite collect_from, (collect_to q _ Hft), (collect_fee q _ Hff Htf).
  repeat split.
Qed.

Lemma collect_to_shadowed (q : query_ids) (rs : list PluginReadResult) :
  from_query_id q = to_query_id q ->
  forall d, to_bytes (fold_left (collect_result q) rs d) = to_bytes d.
Proof.
  intros E. induction rs as [|r rs IH]; intros d; [reflexivity|].
  cbn [fold_left]. rewrite IH. unfold collect_result. rewrite <- E.
  destruct (result_query_id r =? from_query_id q); [reflexivity|].
  destruct (result_query_id r =? fee_query_id q); reflexivity.
Qed.

Lemma collect_fee_shadowed (q : query_ids) (rs : list PluginReadResult) :
  fee_query_id q = from_query_id q \/ fee_query_id q = to_query_id q ->
  forall d, fee_pool_bytes (fold_left (collect_result q) rs d)
            = fee_pool_bytes d.
Proof.
  intros E. induction rs as [|r rs IH]; intros d; [reflexivity|].
  cbn [fold_left]. rewrite IH. unfold collect_result.
  destruct (result_query_id r =? from_query_id q) eqn:E1; [reflexivity|].
  destruct (result_query_id r =? to_query_id q) eqn:E2; [reflexivity|].
  destruct (Z.eqb_spec (result_query_id r) (fee_query_id q)) as [E3|];
    [|reflexivity].
  rewrite E3 in E1, E2. destruct E as [E|E]; rewrite E in *.
  - now rewrite Z.eqb_refl in E1.
  - now rewrite Z.eqb_refl in E2.
Qed.

(** X17. When two of the three query ids coincide, the first test of the loop
    that matches takes every result with that id.  The sender's value is
    always the value of the last result with the sender's id; with the
    recipient's id equal to the sender's, the recipient's value stays [None],
    and with the fee pool's id equal to one of the other two, the fee pool's
    value stays [None], whatever the host answers. *)
Theorem collected_id_collision
    (q : query_ids) (response : PluginStateReadResponse) :
  let sd := collected q response in
  from_bytes sd = last_value (from_query_id q) (results response) /\
  (from_query_id q = to_query_id q -> to_bytes sd = None) /\
  (fee_query_id q = from_query_id q \/ fee_query_id q = to_query_id q ->
   fee_pool_bytes sd = None).
Proof.
  intros sd. unfold sd, collected, last_value. split; [|split].
  - now rewrite collect_from.
  - intros E. now rewrite (collect_to_shadowed q _ E).
  - intros E. now rewrite (collect_fee_shadowed q _ E).
Qed.

End ReadAnswers.

(** * What [deliver_tx] answers once the read is made *)

Section DeliverOutcomes.
Context {I : Interp} {C : Codec}.
Variable random_source : nat -> Z.

(** The send up to the answer of the host to the batched read. *)
Lemma deliver_send_read_raises self p cfg m fee from_key to_key e w :
  plugin self = Some p -> config self = Some cfg ->
  0 < fee ->
  key_for_account (AddrBytes (from_address m)) = ok from_key ->
  key_for_account (AddrBytes (to_address m)) = ok to_key ->
  0 <= chain_id cfg < 2 ^ 64 ->
  let request :=
    read_request (ids_at random_source (draws w)) from_key to_key
                 (fee_pool_key (chain_id cfg)) in
  let w1 := {| events := events w ++ [EvStateRead request];
               draws := S (S (S (draws w))) |} in
  _read_deliver_message_required_data random_source self m w
    = (raise e, w1) ->
  _deliver_message_send random_source self m (PInt fee) w =
  deliver_handlers e w1.
Proof.
  intros Hp Hc Hfee Hfk Htk Hch request w1 Hread.
  unfold _deliver_message_send.
  rewrite (try_except_raise _ _ _ e w1); [reflexivity|].
  rewrite (normalize_amount_pos fee Hfee).
  rewrite (bind_run_ok _ _ _ _ _ (lift_run _ _)).
  rewrite (bind_run_ok _ _ _ _ _ (initialized_run self p cfg w Hp Hc)).
  cbv beta iota.
  now apply bind_run_raise.
Qed.

(** X18. When the host answers the batched read with an error, the send ends with
    error code 4 and module plugin, whatever code and module the host gave,
    and the host's message after the words State read error; when the host
    call raises, the exception becomes the error of the response.  No write
    follows in either case. *)
Theorem deliver_tx_read_failure self request p cfg m from_key to_key w :
  send_call self request p cfg m from_key to_key ->
  let tx := deliver_tx_of request in
  let read :=
    read_request (ids_at random_source (draws w)) from_key to_key
                 (fee_pool_key (chain_id cfg)) in
  let w' := {| events := events w ++
                         [EvParseMessage (value (msg tx)); EvStateRead read];
               draws := S (S (S (draws w))) |} in
  (forall response err,
     plugin_state_read p read = ok response ->
     read_error response = Some err ->
     deliver_tx random_source self request w =
     (ok {| deliver_error :=
              Some {| err_code := 4;
                      err_module := "plugin";
                      err_msg := "State read error: " ++ err_msg err |} |},
      w')) /\
  (forall e,
     plugin_state_read p read = raise e ->
     deliver_tx random_source self request w =
     (ok {| deliver_error := Some (reported e) |}, w')).
Proof.
  intros [Hp Hc Hurl Hparse Hfee Hfk Htk Hch] tx read w'. subst tx.
  pose (w0 := {| events := events w ++ [EvParseMessage (value (msg (deliver_tx_of request)))];
                 draws := draws w |}).
  pose proof (read_data_run random_source self p cfg m from_key to_key w0
                Hp Hc Hfk Htk Hch) as Hrun.
  cbv zeta in Hrun. cbn [events draws w0] in Hrun.
  rewrite <- app_assoc in Hrun. cbn [app] in Hrun.
  fold read in Hrun. fold w' in Hrun.
  split.
  - intros response err Hans Herr.
    rewrite Hans in Hrun. unfold ok in Hrun. rewrite Herr in Hrun.
    apply (deliver_tx_run random_source self request m w _ _ Hurl Hparse).
    fold w0.
    rewrite (deliver_send_read_raises self p cfg m _ from_key to_key
               (PluginException ("State read error: " ++ err_msg err)
                                4 "plugin") w0
               Hp Hc Hfee Hfk Htk Hch).
    + unfold w0. cbn [events draws]. rewrite <- app_assoc. reflexivity.
    + unfold w0. cbn [events draws]. rewrite <- app_assoc. cbn [app].
      exact Hrun.
  - intros e Hans.
    rewrite Hans in Hrun. unfold raise in Hrun.
    apply (deliver_tx_run random_source self request m w _ _ Hurl Hparse).
    fold w0.
    rewrite (deliver_send_read_raises self p cfg m _ from_key to_key e w0
               Hp Hc Hfee Hfk Htk Hch).
    + unfold w0. cbn [events draws]. rewrite <- app_assoc. cbn [app].
      fold read. fold w'.
      destruct e; reflexivity.
    + unfold w0. cbn [events draws]. rewrite <- app_assoc. cbn [app].
      exact Hrun.
Qed.

Ltac send_until_unmarshal self p cfg m from_key to_key w response
                          Hp Hc Hfee Hfk Htk Hch Hans Hne :=
  rewrite (normalize_amount_pos _ Hfee);
  rewrite (bind_run_ok _ _ _ _ _ (lift_run _ _));
  rewrite (bind_run_ok _ _ _ _ _ (initialized_run self p cfg w Hp Hc));
  cbv beta iota;
  rewrite (bind_run_ok _ _ _
             (collected (ids_at random_source (draws w)) response)
             {| events :=
                  events w ++
                  [EvStateRead
                     (read_request (ids_at random_source (draws w))
                                   from_key to_key
                                   (fee_pool_key (chain_id cfg)))];
                draws := S (S (S (draws w))) |});
  [| rewrite (read_data_run random_source self p cfg m from_key to_key w
                Hp Hc Hfk Htk Hch);
     cbv zeta; rewrite Hans; unfold ok; now rewrite Hne ].

(** The send when something raises between the read and the funds check. *)
Lemma deliver_send_stops_after_read
    self p cfg m fee from_key to_key response e w :
  plugin self = Some p -> config self = Some cfg ->
  0 < fee ->
  key_for_account (AddrBytes (from_address m)) = ok from_key ->
  key_for_account (AddrBytes (to_address m)) = ok to_key ->
  0 <= chain_id cfg < 2 ^ 64 ->
  let request :=
    read_request (ids_at random_source (draws w)) from_key to_key
                 (fee_pool_key (chain_id cfg)) in
  let sd := collected (ids_at random_source (draws w)) response in
  plugin_state_read p request = ok response ->
  read_error response = None ->
  (ud <-- _unmarshal_deliver_message_required_data
            (from_bytes sd) (to_bytes sd) (fee_pool_bytes sd) m ;;
   normalize_amount (PInt (amount m))) = raise e ->
  _deliver_message_send random_source self m (PInt fee) w =
  deliver_handlers e {| events := events w ++ [EvStateRead request];
                        draws := S (S (S (draws w))) |}.
Proof.
  intros Hp Hc Hfee Hfk Htk Hch request sd Hans Hne Hraise.
  subst request.
  unfold _deliver_message_send.
  rewrite (try_except_raise _ _ _ e
             {| events :=
                  events w ++
                  [EvStateRead
                     (read_request (ids_at random_source (draws w))
                                   from_key to_key
                                   (fee_pool_key (chain_id cfg)))];
                draws := S (S (S (draws w))) |}); [reflexivity|].
  send_until_unmarshal self p cfg m from_key to_key w response
                       Hp Hc Hfee Hfk Htk Hch Hans Hne.
  fold sd.
  destruct (_unmarshal_deliver_message_required_data
              (from_bytes sd) (to_bytes sd) (fee_pool_bytes sd) m)
    as [e'|ud] eqn:Eu.
  - cbn [bind result_monad rbind] in Hraise. inversion Hraise; subst e'.
    now rewrite (bind_run_raise _ _ _ _ _ (lift_run _ _)).
  - cbn [bind result_monad rbind] in Hraise.
    rewrite (bind_run_ok _ _ _ _ _ (lift_run _ _)).
    rewrite Hraise.
    now rewrite (bind_run_raise _ _ _ _ _ (lift_run _ _)).
Qed.

(** X19. [deliver_tx] looks at the amount only after the read: a send whose
    amount is zero or negative costs a read, writes nothing, and ends with
    error code 1 and the message of [normalize_amount], not with the
    InvalidAmount error (code 13) that [check_tx] gives. *)
Theorem deliver_tx_rejects_amount
    self request p cfg m from_key to_key response ud w :
  send_call self request p cfg m from_key to_key ->
  let read :=
    read_request (ids_at random_source (draws w)) from_key to_key
                 (fee_pool_key (chain_id cfg)) in
  let sd := collected (ids_at random_source (draws w)) response in
  plugin_state_read p read = ok response ->
  read_error response = None ->
  _unmarshal_deliver_message_required_data
    (from_bytes sd) (to_bytes sd) (fee_pool_bytes sd) m = ok ud ->
  amount m <= 0 ->
  deliver_tx random_source self request w =
  (ok {| deliver_error :=
           Some {| err_code := 1;
                   err_module := "contract";
                   err_msg := "Invalid amount: must be greater than 0" |} |},
   {| events := events w ++
                [EvParseMessage (value (msg (deliver_tx_of request)));
                 EvStateRead read];
      draws := S (S (S (draws w))) |}).
Proof.
  intros [Hp Hc Hurl Hparse Hfee Hfk Htk Hch] read sd Hans Hne Hun Hamt.
  apply (deliver_tx_run random_source self request m w _ _ Hurl Hparse).
  rewrite (deliver_send_stops_after_read self p cfg m _ from_key to_key
             response (ValueError "Invalid amount: must be greater than 0")
             {| events := events w ++
                  [EvParseMessage (value (msg (deliver_tx_of request)))];
                draws := draws w |}
             Hp Hc Hfee Hfk Htk Hch Hans Hne).
  - cbn [events draws]. rewrite <- app_assoc. reflexivity.
  - cbn [events draws]. fold sd. rewrite Hun.
    cbn [bind result_monad rbind ok].
    now apply normalize_amount_nonpos.
Qed.

(** X20. A sender whose stored record does not decode stops the send with error
    code 1 and the message of the decoding failure, after the read and
    without a write, whatever the records of the recipient and of the fee
    pool are. *)
Theorem deliver_tx_corrupt_sender
    self request p cfg m from_key to_key response b bs err w :
  send_call self request p cfg m from_key to_key ->
  let read :=
    read_request (ids_at random_source (draws w)) from_key to_key
                 (fee_pool_key (chain_id cfg)) in
  let sd := collected (ids_at random_source (draws w)) response in
  plugin_state_read p read = ok response ->
  read_error response = None ->
  from_bytes sd = Some (b :: bs) ->
  account_from_string (b :: bs) = raise err ->
  deliver_tx random_source self request w =
  (ok {| deliver_error :=
           Some {| err_code := 1;
                   err_module := "contract";
                   err_msg := "Unmarshal failed: " ++ str_of_exc err |} |},
   {| events := events w ++
                [EvParseMessage (value (msg (deliver_tx_of request)));
                 EvStateRead read];
      draws := S (S (S (draws w))) |}).
Proof.
  intros [Hp Hc Hurl Hparse Hfee Hfk Htk Hch] read sd Hans Hne Hfrom Hbad.
  apply (deliver_tx_run random_source self request m w _ _ Hurl Hparse).
  rewrite (deliver_send_stops_after_read self p cfg m _ from_key to_key
             response
             (ValueError ("Unmarshal failed: " ++ str_of_exc err))
             {| events := events w ++
                  [EvParseMessage (value (msg (deliver_tx_of request)))];
                draws := draws w |}
             Hp Hc Hfee Hfk Htk Hch Hans Hne).
  - cbn [events draws]. rewrite <- app_assoc. reflexivity.
  - cbn [events draws]. fold sd. rewrite Hfrom.
    now rewrite (unmarshal_corrupt_sender b bs err _ _ m Hbad).
Qed.

(** A sender without a stored record, or with an empty one, holds nothing:
    the send ends with the InsufficientFunds error, available 0, and no
    write. *)
Lemma deliver_tx_unknown_sender
    self request p cfg m from_key to_key response w :
  send_call self request p cfg m from_key to_key ->
  let read :=
    read_request (ids_at random_source (draws w)) from_key to_key
                 (fee_pool_key (chain_id cfg)) in
  let sd := collected (ids_at random_source (draws w)) response in
  plugin_state_read p read = ok response ->
  read_error response = None ->
  truthy (from_bytes sd) = false ->
  0 < amount m ->
  deliver_tx random_source self request w =
  (ok {| deliver_error :=
           Some {| err_code := 9;
                   err_module := "contract";
                   err_msg :=
                     "Insufficient funds: required " ++
                     str_of_int (amount m + fee (deliver_tx_of request)) ++
                     ", available 0" |} |},
   {| events := events w ++
                [EvParseMessage (value (msg (deliver_tx_of request)));
                 EvStateRead read];
      draws := S (S (S (draws w))) |}).
Proof.
  intros [Hp Hc Hurl Hparse Hfee Hfk Htk Hch] read sd Hans Hne Hfrom Hamt.
  apply (deliver_tx_run random_source self request m w _ _ Hurl Hparse).
  pose (ud := {| from_account := None;
                 to_account := recipient_of (to_bytes sd) m;
                 fee_pool := pool_of (fee_pool_bytes sd);
                 from_amount := 0 |}).
  rewrite (deliver_send_insufficient random_source self p cfg m _
             from_key to_key response ud
             {| events := events w ++
                  [EvParseMessage (value (msg (deliver_tx_of request)))];
                draws := draws w |}
             Hp Hc Hfee Hfk Htk Hch).
  - cbn [events draws from_amount ud]. rewrite <- app_assoc. reflexivity.
  - constructor; cbn [events draws]; try assumption.
    cbv zeta. fold sd. now apply unmarshal_absent_sender.
  - cbn [from_amount ud]. lia.
Qed.

Lemma normalize_address_not_20 (a : bytes) :
  List.length a <> 20%nat ->
  normalize_address (AddrBytes a) =
  raise (ValueError "Invalid address: must be exactly 20 bytes").
Proof.
  intros H. unfold normalize_address, validate_address, address_bytes_of, ok.
  apply Nat.eqb_neq in H. now rewrite H.
Qed.

(** X21. [deliver_tx] looks at the length of the addresses only when it builds the
    updated accounts, after the read and the funds check: a send with enough
    funds whose sender or recipient address is not 20 bytes long ends with
    error code 1 and the message of [normalize_address], not with the
    InvalidAddress error (code 12) of [check_tx]; it has read the state under
    the key of that address and writes nothing. *)
Theorem deliver_tx_rejects_address
    self request p cfg m from_key to_key response ud w :
  send_call self request p cfg m from_key to_key ->
  send_read random_source p cfg m from_key to_key (draws w) response ud ->
  amount m + fee (deliver_tx_of request) <= from_amount ud ->
  List.length (from_address m) <> 20%nat \/
  (from_amount ud < 2 ^ 64 /\ List.length (to_address m) <> 20%nat) ->
  deliver_tx random_source self request w =
  (ok {| deliver_error :=
           Some {| err_code := 1;
                   err_module := "contract";
                   err_msg := "Invalid address: must be exactly 20 bytes" |} |},
   {| events := events w ++
                [EvParseMessage (value (msg (deliver_tx_of request)));
                 EvStateRead
                   (read_request (ids_at random_source (draws w))
                                 from_key to_key
                                 (fee_pool_key (chain_id cfg)))];
      draws := S (S (S (draws w))) |}).
Proof.
  intros [Hp Hc Hurl Hparse Hfee Hfk Htk Hch] [Hans Hne Hun Hamt] Hfunds Hbad.
  apply (deliver_tx_run random_source self request m w _ _ Hurl Hparse).
  set (w0 := {| events := events w ++
                  [EvParseMessage (value (msg (deliver_tx_of request)))];
                draws := draws w |}).
  change (draws w) with (draws w0) in Hans, Hun |- *.
  replace (events w ++
           [EvParseMessage (value (msg (deliver_tx_of request)));
            EvStateRead
              (read_request (ids_at random_source (draws w0)) from_key to_key
                            (fee_pool_key (chain_id cfg)))])
    with (events w0 ++
          [EvStateRead
             (read_request (ids_at random_source (draws w0)) from_key to_key
                           (fee_pool_key (chain_id cfg)))])
    by (unfold w0; cbn [events]; now rewrite <- app_assoc).
  clearbody w0.
  unfold _deliver_message_send.
  rewrite (try_except_raise _ _ _
             (ValueError "Invalid address: must be exactly 20 bytes")
             {| events := events w0 ++
                  [EvStateRead
                     (read_request (ids_at random_source (draws w0))
                                   from_key to_key
                                   (fee_pool_key (chain_id cfg)))];
                draws := S (S (S (draws w0))) |}); [reflexivity|].
  send_until_unmarshal self p cfg m from_key to_key w0 response
                       Hp Hc Hfee Hfk Htk Hch Hans Hne.
  cbv zeta in Hun. rewrite Hun.
  rewrite (bind_run_ok _ _ _ _ _ (lift_run _ _)).
  rewrite (normalize_amount_pos _ Hamt).
  rewrite (bind_run_ok _ _ _ _ _ (lift_run _ _)).
  cbv zeta.
  assert (Hge : (from_amount ud <? amount m + fee (deliver_tx_of request))
                = false) by (apply Z.ltb_ge; lia).
  rewrite Hge.
  rewrite Hfk, Htk, (key_for_fee_pool_ok _ Hch).
  rewrite !(bind_run_ok _ _ _ _ _ (lift_run _ _)).
  destruct (Nat.eq_dec (List.length (from_address m)) 20) as [Lf|Lf].
  - destruct Hbad as [Hbad|[Hfits Lt]]; [now elim Hbad|].
    rewrite (normalize_address_20 _ Lf).
    rewrite (bind_run_ok _ _ _ _ _ (lift_run _ _)).
    rewrite (new_Account_ok (from_address m)
               (from_amount ud - (amount m + fee (deliver_tx_of request))))
      by lia.
    rewrite (bind_run_ok _ _ _ _ _ (lift_run _ _)).
    rewrite (normalize_address_not_20 _ Lt).
    now rewrite (bind_run_raise _ _ _ _ _ (lift_run _ _)).
  - rewrite (normalize_address_not_20 _ Lf).
    now rewrite (bind_run_raise _ _ _ _ _ (lift_run _ _)).
Qed.

(** X22. What the host answers to the write is what [deliver_tx] answers: an
    error in the write response is passed on unchanged, with the host's own
    code and module (a read error is rewritten to code 4), and an exception
    of the write call becomes the error of the response.  The write request
    has been sent in both cases. *)
Theorem deliver_tx_write_outcome
    self request p cfg m from_key to_key response ud w :
  send_call self request p cfg m from_key to_key ->
  send_read random_source p cfg m from_key to_key (draws w) response ud ->
  send_fits m (fee (deliver_tx_of request)) from_key to_key ud ->
  amount m + fee (deliver_tx_of request) <= from_amount ud ->
  let batch :=
    batch_of cfg m (fee (deliver_tx_of request)) from_key to_key ud in
  deliver_tx random_source self request w =
  (ok {| deliver_error :=
           match plugin_state_write p batch with
           | inr write_response => write_error write_response
           | inl e => Some (reported e)
           end |},
   {| events :=
        events w ++
        [EvParseMessage (value (msg (deliver_tx_of request)));
         EvStateRead
           (read_request (ids_at random_source (draws w)) from_key to_key
                         (fee_pool_key (chain_id cfg)));
         EvStateWrite batch];
      draws := S (S (S (draws w))) |}).
Proof.
  intros [Hp Hc Hurl Hparse Hfee Hfk Htk Hch] Hread Hfits Hfunds batch.
  pose proof (deliver_send_batch random_source self p cfg m _ from_key to_key
                response ud
                {| events := events w ++
                     [EvParseMessage (value (msg (deliver_tx_of request)))];
                   draws := draws w |}
                Hp Hc Hfee Hfk Htk Hch Hread Hfits Hfunds) as Hrun.
  cbv zeta in Hrun. cbn [events draws] in Hrun.
  rewrite <- app_assoc in Hrun. cbn [app] in Hrun.
  fold batch in Hrun.
  apply (deliver_tx_run random_source self request m w _ _ Hurl Hparse).
  rewrite Hrun.
  destruct (plugin_state_write p batch) as [e|wr]; [|reflexivity].
  destruct e; reflexivity.
Qed.

(** X23. An ordinary transfer: with distinct keys and a balance above amount plus
    fee, the one write request sets three distinct keys and deletes none; the
    fee pool grows by the fee, the sender's balance falls by amount plus fee
    and the recipient's grows by the amount, so that the three amounts
    written add up to the three amounts read. *)
Theorem deliver_tx_transfer
    self request p cfg m from_key to_key response ud w :
  send_call self request p cfg m from_key to_key ->
  send_read random_source p cfg m from_key to_key (draws w) response ud ->
  send_fits m (fee (deliver_tx_of request)) from_key to_key ud ->
  from_key <> to_key ->
  amount m + fee (deliver_tx_of request) < from_amount ud ->
  let f := fee (deliver_tx_of request) in
  let new_pool :=
    {| pool_id := chain_id cfg;
       pool_amount := pool_amount (fee_pool ud) + f |} in
  let new_from :=
    {| acc_address := from_address m;
       acc_amount := from_amount ud - (amount m + f) |} in
  let new_to :=
    {| acc_address := to_address m;
       acc_amount := acc_amount (to_account ud) + amount m |} in
  let batch :=
    {| sets := [ {| set_key := fee_pool_key (chain_id cfg);
                    set_value := serialize_pool new_pool |};
                 {| set_key := from_key;
                    set_value := serialize_account new_from |};
                 {| set_key := to_key;
                    set_value := serialize_account new_to |} ];
       deletes := [] |} in
  exists r w',
    deliver_tx random_source self request w = (ok r, w') /\
    writes_of (events w') = writes_of (events w) ++ [batch] /\
    NoDup (List.map set_key (sets batch)) /\
    pool_amount new_pool + acc_amount new_from + acc_amount new_to =
    pool_amount (fee_pool ud) + from_amount ud + acc_amount (to_account ud).
Proof.
  intros Hcall Hread Hfits Hne Hfunds f new_pool new_from new_to batch.
  destruct (deliver_tx_batch random_source self request p cfg m from_key
              to_key response ud w Hcall Hread Hfits ltac:(lia))
    as [r [Hrun _]].
  assert (Hb : batch_of cfg m (fee (deliver_tx_of request)) from_key to_key ud
               = batch).
  { unfold batch_of. rewrite (proj2 (bytes_eq_false _ _) Hne).
    replace (from_amount ud - (amount m + fee (deliver_tx_of request)) =? 0)
      with false by (symmetry; apply Z.eqb_neq; lia).
    reflexivity. }
  rewrite Hb in Hrun.
  exists r. eexists. split; [exact Hrun|]. split; [|split].
  - cbn [events]. rewrite writes_of_app. cbn. reflexivity.
  - destruct Hcall as [_ _ _ _ _ Hfk Htk _].
    destruct Hfits as [Lf Lt _ _ _].
    rewrite (key_for_account_20 _ Lf) in Hfk.
    rewrite (key_for_account_20 _ Lt) in Htk.
    inversion Hfk as [Hk1]. inversion Htk as [Hk2].
    cbn [batch sets List.map set_key].
    repeat constructor; cbn [In]; intros H.
    + destruct H as [H|[H|[]]];
        [rewrite <- Hk1 in H | rewrite <- Hk2 in H]; discriminate H.
    + destruct H as [H|[]]. congruence.
    + destruct H.
  - cbn [pool_amount acc_amount new_pool new_from new_to]. unfold f. lia.
Qed.

End DeliverOutcomes.

(** * What [check_tx] answers *)

Section CheckOutcomes.
Context {I : Interp} {C : Codec}.

Lemma try_except_cong {A} (m m' : Exec A) h w w' :
  m w = m' w' -> try_except m h w = try_except m' h w'.
Proof. unfold try_except. now intros ->. Qed.

Lemma check_handlers_run (e : exception) (w : world) :
  check_handlers e w =
  (ok {| recipient := []; authorized_signers := [];
         check_error := Some (reported e) |}, w).
Proof. destruct e; reflexivity. Qed.

(** The exceptions of [_check_message_send] are plugin exceptions. *)
Lemma check_message_send_raises (m : MessageSend) (e : exception) :
  _check_message_send m = raise e -> is_plugin_exception e = true.
Proof.
  unfold _check_message_send.
  destruct (negb (validate_address (AddrBytes (from_address m))));
    [intros H; now inversion H|].
  destruct (negb (validate_address (AddrBytes (to_address m))));
    [intros H; now inversion H|].
  destruct (negb (validate_amount (PInt (amount m))));
    [intros H; now inversion H|].
  discriminate.
Qed.

(** [check_tx] from the fee comparison on. *)
Lemma check_decision_run (request : PluginCheckRequest) (min_fees : FeeParams)
    (w : world) :
  let tx := check_tx_of request in
  try_except
    (fees <--
       try_except
         (request_fee <-- lift (normalize_amount (PInt (fee tx))) ;;
          min_send_fee <--
            lift (normalize_amount (PInt (send_fee min_fees))) ;;
          ret (request_fee, min_send_fee))
         (fun error =>
            throw (ParameterError
                     ("Failed to normalize fee: " ++ str_of_exc error))) ;;
     let '(request_fee, min_send_fee) := fees in
     if request_fee <? min_send_fee
     then throw (FeeBelowLimitError (Some request_fee) (Some min_send_fee))
     else if endswith (type_url (msg tx)) "/types.MessageSend"
     then
       message_send <-- ParseFromString (value (msg tx)) ;;
       try_except
         (lift (_check_message_send message_send))
         (fun e =>
            if is_plugin_exception e
            then ret (create_check_error_response_from_exception e)
            else throw e)
     else throw (UnsupportedMessageTypeError (type_url (msg tx))))
    check_handlers w =
  (ok (fst (check_decision request min_fees)),
   {| events := events w ++ snd (check_decision request min_fees);
      draws := draws w |}).
Proof.
  intros tx. unfold check_decision. fold tx.
  assert (Hw : forall w : world,
             {| events := events w ++ []; draws := draws w |} = w).
  { intros [ev d]. cbn. now rewrite app_nil_r. }
  destruct (Z.leb_spec (fee tx) 0) as [Hf|Hf].
  { cbn [orb fst snd]. rewrite Hw.
    rewrite (try_except_raise _ _ _
               (ParameterError
                  ("Failed to normalize fee: " ++
                   "Invalid amount: must be greater than 0")) w);
      [reflexivity|].
    apply bind_run_raise.
    rewrite (try_except_raise _ _ _
               (ValueError "Invalid amount: must be greater than 0") w);
      [reflexivity|].
    rewrite (normalize_amount_nonpos _ Hf).
    now rewrite (bind_run_raise _ _ _ _ _ (lift_run _ _)). }
  destruct (Z.leb_spec (send_fee min_fees) 0) as [Hm|Hm].
  { cbn [orb fst snd]. rewrite Hw.
    rewrite (try_except_raise _ _ _
               (ParameterError
                  ("Failed to normalize fee: " ++
                   "Invalid amount: must be greater than 0")) w);
      [reflexivity|].
    apply bind_run_raise.
    rewrite (try_except_raise _ _ _
               (ValueError "Invalid amount: must be greater than 0") w);
      [reflexivity|].
    rewrite (normalize_amount_pos _ Hf).
    rewrite (bind_run_ok _ _ _ _ _ (lift_run _ _)).
    rewrite (normalize_amount_nonpos _ Hm).
    now rewrite (bind_run_raise _ _ _ _ _ (lift_run _ _)). }
  cbn [orb].
  assert (Hfees :
    try_except
      (request_fee <-- lift (normalize_amount (PInt (fee tx))) ;;
       min_send_fee <-- lift (normalize_amount (PInt (send_fee min_fees))) ;;
       ret (request_fee, min_send_fee))
      (fun error =>
         throw (ParameterError
                  ("Failed to normalize fee: " ++ str_of_exc error))) w
    = (ok (fee tx, send_fee min_fees), w)).
  { apply try_except_ok.
    rewrite (normalize_amount_pos _ Hf).
    rewrite (bind_run_ok _ _ _ _ _ (lift_run _ _)).
    rewrite (normalize_amount_pos _ Hm).
    now rewrite (bind_run_ok _ _ _ _ _ (lift_run _ _)). }
  destruct (fee tx <? send_fee min_fees) eqn:Hlow.
  { cbn [fst snd]. rewrite Hw.
    rewrite (try_except_raise _ _ _
               (FeeBelowLimitError (Some (fee tx))
                                   (Some (send_fee min_fees))) w);
      [reflexivity|].
    rewrite (bind_run_ok _ _ _ _ _ Hfees). cbv beta iota.
    now rewrite Hlow. }
  destruct (endswith (type_url (msg tx)) "/types.MessageSend") eqn:Hurl.
  2:{ cbn [fst snd]. rewrite Hw.
      rewrite (try_except_raise _ _ _
                 (UnsupportedMessageTypeError (type_url (msg tx))) w);
        [reflexivity|].
      rewrite (bind_run_ok _ _ _ _ _ Hfees). cbv beta iota.
      now rewrite Hlow. }
  cbn [fst snd].
  destruct (message_send_from_string (value (msg tx))) as [e|m] eqn:Hparse.
  { rewrite (try_except_raise _ _ _ e
               {| events := events w ++ [EvParseMessage (value (msg tx))];
                  draws := draws w |}); [apply check_handlers_run|].
    rewrite (bind_run_ok _ _ _ _ _ Hfees). cbv beta iota.
    rewrite Hlow.
    apply bind_run_raise.
    now rewrite parse_run, Hparse. }
  apply try_except_ok.
  rewrite (bind_run_ok _ _ _ _ _ Hfees). cbv beta iota.
  rewrite Hlow.
  rewrite (bind_run_ok _ _ _ m _
             (eq_trans (parse_run _ _) (f_equal (fun r => (r, _)) Hparse))).
  destruct (_check_message_send m) as [e|r] eqn:Hcheck.
  - rewrite (try_except_raise _ _ _ e
               {| events := events w ++ [EvParseMessage (value (msg tx))];
                  draws := draws w |}); [|now rewrite lift_run].
    now rewrite (check_message_send_raises m e Hcheck).
  - apply try_except_ok. now rewrite lift_run.
Qed.

(** [check_tx] of an initialised contract answers [check_answer]. *)
Lemma check_tx_closed_form self id request p (w : world) :
  plugin self = Some p -> config self <> None ->
  check_tx self id request w =
  (ok (fst (check_answer p id request)),
   {| events := events w ++ snd (check_answer p id request);
      draws := draws w |}).
Proof.
  intros Hp Hc.
  destruct (config self) as [cfg|] eqn:Ecfg; [clear Hc | now elim Hc].
  unfold check_answer.
  set (w1 := {| events := events w ++ [EvStateRead (fee_request id)];
                draws := draws w |}).
  unfold check_tx.
  destruct (plugin_state_read p (fee_request id)) as [e|response] eqn:Hans.
  { cbn [fst snd]. fold w1.
    rewrite (try_except_raise _ _ _ e w1); [apply check_handlers_run|].
    rewrite (bind_run_ok _ _ _ _ _ (initialized_run self p cfg w Hp Ecfg)).
    cbv beta iota.
    change key_for_fee_params with (ok fee_params_key).
    rewrite (bind_run_ok _ _ _ _ _ (lift_run _ _)).
    now rewrite (bind_run_raise _ _ _ e _
                   (eq_trans (state_read_run _ _ _)
                             (f_equal (fun r => (r, _)) Hans))). }
  assert (Hread :
    forall k : PluginStateReadResponse -> Exec PluginCheckResponse,
      (fee_params_response <-- state_read p (fee_request id) ;;
       k fee_params_response) w = k response w1).
  { intros k.
    now rewrite (bind_run_ok _ _ _ response _
                   (eq_trans (state_read_run _ _ _)
                             (f_equal (fun r => (r, _)) Hans))). }
  apply (eq_trans (try_except_cong _ _ _ w w1
                     (eq_trans
                        (bind_run_ok _ _ _ _ _
                           (initialized_run self p cfg w Hp Ecfg))
                        (eq_trans
                           (bind_run_ok _ _ _ _ _ (lift_run _ _))
                           (Hread _))))).
  cbv beta.
  destruct (read_error response) as [err|] eqn:Herr.
  { reflexivity. }
  unfold fee_parameter_bytes, first_value.
  destruct (results response) as [|r0 rs] eqn:Er; [reflexivity|].
  destruct (entries r0) as [|e0 es] eqn:Ee; [reflexivity|].
  destruct (entry_value e0) as [|b bs] eqn:Ev; [reflexivity|].
  cbn [unmarshal].
  destruct (fee_params_from_string (b :: bs)) as [err|min_fees] eqn:Hd.
  { reflexivity. }
  apply (eq_trans (try_except_cong _ _ _ w1 w1
                     (bind_run_ok _ _ _ (Some min_fees) _ (lift_run _ _)))).
  cbv beta iota.
  apply (eq_trans (check_decision_run request min_fees w1)).
  cbn [fst snd events draws w1]. now rewrite <- app_assoc.
Qed.

(** The answer when the fee parameters are read and decoded. *)
Lemma check_answer_fee_read self id request p min_fees :
  fee_read self id p min_fees ->
  check_answer p id request =
  (fst (check_decision request min_fees),
   EvStateRead (fee_request id) :: snd (check_decision request min_fees)).
Proof.
  intros [_ _ (response & r0 & e0 & b & bs & Hans & Hne & Hr & He & Hv & Hd)].
  unfold check_answer. fold (fee_request id) in Hans. rewrite Hans.
  unfold ok. rewrite Hne.
  unfold fee_parameter_bytes, first_value.
  destruct (results response) as [|r0' rs]; [discriminate Hr|].
  cbn in Hr. inversion Hr; subst r0'.
  destruct (entries r0) as [|e0' es]; [discriminate He|].
  cbn in He. inversion He; subst e0'.
  rewrite Hv, Hd. reflexivity.
Qed.

Lemma check_decision_message (request : PluginCheckRequest)
    (min_fees : FeeParams) (m : MessageSend) :
  let tx := check_tx_of request in
  0 < send_fee min_fees <= fee tx ->
  endswith (type_url (msg tx)) "/types.MessageSend" = true ->
  message_send_from_string (value (msg tx)) = ok m ->
  check_decision request min_fees =
  (match _check_message_send m with
   | inr r => r
   | inl e => create_check_error_response_from_exception e
   end, [EvParseMessage (value (msg tx))]).
Proof.
  intros tx Hfee Hurl Hparse. unfold check_decision. fold tx.
  replace (fee tx <=? 0) with false by (symmetry; apply Z.leb_gt; lia).
  replace (send_fee min_fees <=? 0) with false
    by (symmetry; apply Z.leb_gt; lia).
  replace (fee tx <? send_fee min_fees) with false
    by (symmetry; apply Z.ltb_ge; lia).
  cbn [orb]. rewrite Hurl, Hparse. reflexivity.
Qed.

(** X24. [check_tx] accepts a send whose fee reaches the minimum, whose addresses
    are 20 bytes long and whose amount is positive: it names the recipient
    and the sender as the one authorised signer, after one read and one
    decoding of the message.  No balance is looked at. *)
Theorem check_tx_accepts self id request p min_fees m w :
  let tx := check_tx_of request in
  fee_read self id p min_fees ->
  0 < send_fee min_fees <= fee tx ->
  endswith (type_url (msg tx)) "/types.MessageSend" = true ->
  message_send_from_string (value (msg tx)) = ok m ->
  List.length (from_address m) = 20%nat ->
  List.length (to_address m) = 20%nat ->
  0 < amount m ->
  check_tx self id request w =
  (ok {| recipient := to_address m;
         authorized_signers := [from_address m];
         check_error := None |},
   {| events := events w ++
                [EvStateRead (fee_request id);
                 EvParseMessage (value (msg tx))];
      draws := draws w |}).
Proof.
  intros tx Hread Hfee Hurl Hparse Lf Lt Hamt.
  rewrite (check_tx_closed_form self id request p w
             (fee_plugin _ _ _ _ Hread) (fee_config _ _ _ _ Hread)).
  rewrite (check_answer_fee_read self id request p min_fees Hread).
  rewrite (check_decision_message request min_fees m Hfee Hurl Hparse).
  cbn [fst snd]. fold tx.
  unfold _check_message_send, validate_address, validate_amount,
    address_bytes_of, amount_int_of, ok.
  rewrite Lf, Lt. apply Z.ltb_lt in Hamt. rewrite Hamt. reflexivity.
Qed.

(** X25. A send that [check_tx] decodes and refuses: a sender address that is not
    20 bytes long gives the InvalidAddress error (code 12) with the address
    in hexadecimal, then the recipient address likewise, then an amount that
    is not positive gives the InvalidAmount error (code 13) with the
    amount. *)
Theorem check_tx_rejects_message self id request p min_fees m w :
  let tx := check_tx_of request in
  let refusal code text :=
    (ok {| recipient := []; authorized_signers := [];
           check_error := Some {| err_code := code;
                                  err_module := "contract";
                                  err_msg := text |} |},
     {| events := events w ++
                  [EvStateRead (fee_request id);
                   EvParseMessage (value (msg tx))];
        draws := draws w |}) in
  fee_read self id p min_fees ->
  0 < send_fee min_fees <= fee tx ->
  endswith (type_url (msg tx)) "/types.MessageSend" = true ->
  message_send_from_string (value (msg tx)) = ok m ->
  (List.length (from_address m) <> 20%nat ->
   check_tx self id request w =
   refusal 12 ("Invalid address format: " ++
               address_text (from_address m))%string) /\
  (List.length (from_address m) = 20%nat ->
   List.length (to_address m) <> 20%nat ->
   check_tx self id request w =
   refusal 12 ("Invalid address format: " ++
               address_text (to_address m))%string) /\
  (List.length (from_address m) = 20%nat ->
   List.length (to_address m) = 20%nat ->
   amount m <= 0 ->
   check_tx self id request w =
   refusal 13 ("Invalid amount: " ++ str_of_int (amount m))%string).
Proof.
  intros tx refusal Hread Hfee Hurl Hparse.
  rewrite (check_tx_closed_form self id request p w
             (fee_plugin _ _ _ _ Hread) (fee_config _ _ _ _ Hread)).
  rewrite (check_answer_fee_read self id request p min_fees Hread).
  rewrite (check_decision_message request min_fees m Hfee Hurl Hparse).
  cbn [fst snd]. fold tx. unfold refusal.
  unfold _check_message_send, validate_address, validate_amount,
    address_bytes_of, amount_int_of, ok.
  split; [|split].
  - intros Lf. apply Nat.eqb_neq in Lf. rewrite Lf.
    destruct (from_address m); reflexivity.
  - intros Lf Lt. apply Nat.eqb_neq in Lt. rewrite Lf, Lt.
    destruct (to_address m); reflexivity.
  - intros Lf Lt Hamt. rewrite Lf, Lt.
    apply Z.ltb_ge in Hamt. rewrite Hamt. reflexivity.
Qed.

(** X26. A message of another type is refused by [check_tx] only after the read
    of the fee parameters and the fee comparison: with a sufficient fee the
    answer is error code 1, Unsupported message type, and the message is not
    decoded. *)
Theorem check_tx_unsupported_type self id request p min_fees w :
  let tx := check_tx_of request in
  fee_read self id p min_fees ->
  0 < send_fee min_fees <= fee tx ->
  endswith (type_url (msg tx)) "/types.MessageSend" = false ->
  check_tx self id request w =
  (ok {| recipient := []; authorized_signers := [];
         check_error :=
           Some {| err_code := 1;
                   err_module := "contract";
                   err_msg := "Unsupported message type: " ++
                              type_url (msg tx) |} |},
   {| events := events w ++ [EvStateRead (fee_request id)];
      draws := draws w |}).
Proof.
  intros tx Hread Hfee Hurl.
  rewrite (check_tx_closed_form self id request p w
             (fee_plugin _ _ _ _ Hread) (fee_config _ _ _ _ Hread)).
  rewrite (check_answer_fee_read self id request p min_fees Hread).
  unfold check_decision. fold tx.
  replace (fee tx <=? 0) with false by (symmetry; apply Z.leb_gt; lia).
  replace (send_fee min_fees <=? 0) with false
    by (symmetry; apply Z.leb_gt; lia).
  replace (fee tx <? send_fee min_fees) with false
    by (symmetry; apply Z.ltb_ge; lia).
  cbn [orb]. rewrite Hurl. reflexivity.
Qed.

(** X27. A fee or a stored minimum fee that is zero or negative makes [check_tx]
    refuse the transaction with error code 1, Failed to normalize fee: a
    stored minimum of 0 does not make transactions free, it blocks them
    all. *)
Theorem check_tx_rejects_fee self id request p min_fees w :
  let tx := check_tx_of request in
  fee_read self id p min_fees ->
  fee tx <= 0 \/ send_fee min_fees <= 0 ->
  check_tx self id request w =
  (ok {| recipient := []; authorized_signers := [];
         check_error :=
           Some {| err_code := 1;
                   err_module := "contract";
                   err_msg := "Failed to normalize fee: " ++
                              "Invalid amount: must be greater than 0" |} |},
   {| events := events w ++ [EvStateRead (fee_request id)];
      draws := draws w |}).
Proof.
  intros tx Hread Hbad.
  rewrite (check_tx_closed_form self id request p w
             (fee_plugin _ _ _ _ Hread) (fee_config _ _ _ _ Hread)).
  rewrite (check_answer_fee_read self id request p min_fees Hread).
  unfold check_decision. fold tx.
  replace ((fee tx <=? 0) || (send_fee min_fees <=? 0)) with true;
    [reflexivity|].
  symmetry. apply orb_true_iff.
  destruct Hbad; [left | right]; now apply Z.leb_le.
Qed.

(** X28. [check_tx] passes an error of the read response on unchanged, with the
    host's own code and module; an exception of the read call becomes the
    error of the response.  The message is not decoded. *)
Theorem check_tx_read_failure self id request p w :
  plugin self = Some p -> config self <> None ->
  let w' := {| events := events w ++ [EvStateRead (fee_request id)];
               draws := draws w |} in
  (forall response err,
     plugin_state_read p (fee_request id) = ok response ->
     read_error response = Some err ->
     check_tx self id request w =
     (ok {| recipient := []; authorized_signers := [];
            check_error := Some err |}, w')) /\
  (forall e,
     plugin_state_read p (fee_request id) = raise e ->
     check_tx self id request w =
     (ok {| recipient := []; authorized_signers := [];
            check_error := Some (reported e) |}, w')).
Proof.
  intros Hp Hc w'.
  rewrite (check_tx_closed_form self id request p w Hp Hc).
  unfold check_answer. split.
  - intros response err Hans Herr. rewrite Hans. unfold ok.
    now rewrite Herr.
  - intros e Hans. now rewrite Hans.
Qed.

(** X29. Without usable fee parameters [check_tx] refuses every transaction: when
    the response has no result, its first result no entry, or the first entry
    an empty value, the error is Fee parameters not found; when the value
    does not decode, the error is the failure of the decoding. *)
Theorem check_tx_fee_parameters_missing self id request p response w :
  plugin self = Some p -> config self <> None ->
  plugin_state_read p (fee_request id) = ok response ->
  read_error response = None ->
  let refusal text :=
    (ok {| recipient := []; authorized_signers := [];
           check_error := Some {| err_code := 1;
                                  err_module := "contract";
                                  err_msg := text |} |},
     {| events := events w ++ [EvStateRead (fee_request id)];
        draws := draws w |}) in
  (truthy (fee_parameter_bytes response) = false ->
   check_tx self id request w = refusal "Fee parameters not found"%string) /\
  (forall b bs err,
     fee_parameter_bytes response = Some (b :: bs) ->
     fee_params_from_string (b :: bs) = raise err ->
     check_tx self id request w =
     refusal ("Unmarshal failed: " ++ str_of_exc err)%string).
Proof.
  intros Hp Hc Hans Hne refusal.
  rewrite (check_tx_closed_form self id request p w Hp Hc).
  unfold check_answer. rewrite Hans. unfold ok. rewrite Hne. split.
  - intros Hf.
    destruct (fee_parameter_bytes response) as [[|b bs]|];
      try reflexivity. discriminate Hf.
  - intros b bs err Hb Hd. rewrite Hb, Hd. reflexivity.
Qed.

(** X30. A contract without socket client or without configuration refuses every
    check with the same error and sends nothing to the host. *)
Theorem check_tx_not_initialized self id request w :
  plugin self = None \/ config self = None ->
  check_tx self id request w =
  (ok {| recipient := []; authorized_signers := [];
         check_error :=
           Some {| err_code := 1;
                   err_module := "contract";
                   err_msg := "Plugin or config not initialized" |} |},
   w).
Proof.
  intros Hnone. unfold check_tx.
  rewrite (try_except_raise _ _ _ PluginNotInitializedError w);
    [reflexivity|].
  apply bind_run_raise. unfold initialized.
  destruct Hnone as [-> | ->]; [reflexivity|].
  destruct (plugin self); reflexivity.
Qed.

End CheckOutcomes.

(** * The further properties on the example host *)

Section FurtherFixtureFacts.
Import Fixture.
Existing Instance ascii_interp.
Existing Instance fixed_codec.

Lemma join_len_prefix_injective_witness :
  [[x01]; [x0a; x0b]] = [[x01]; [x0a; x0b]].
Proof.
  apply (join_len_prefix_injective [[x01]; [x0a; x0b]] [[x01]; [x0a; x0b]]).
  - repeat constructor; cbn; try discriminate; lia.
  - repeat constructor; cbn; try discriminate; lia.
  - reflexivity.
Defined.

Lemma key_for_account_injective_witness : alice = alice.
Proof.
  apply (key_for_account_injective alice alice (account_key alice));
    reflexivity.
Defined.

Lemma key_families_disjoint_witness :
  key_for_fee_params = ok fee_params_key /\
  account_key alice <> fee_pool_key 1 /\
  account_key alice <> fee_params_key /\
  fee_pool_key 1 <> fee_params_key.
Proof.
  apply (key_families_disjoint alice 1 (account_key alice) (fee_pool_key 1));
    reflexivity.
Defined.

Lemma normalize_address_hex_witness :
  validate_address
    (AddrStr (lit "0x0a0a0a0a0a0a0a0a0a0a0a0a0a0a0a0a0a0a0a0a")) = true /\
  normalize_address
    (AddrStr (lit "0x0a0a0a0a0a0a0a0a0a0a0a0a0a0a0a0a0a0a0a0a")) = ok alice.
Proof.
  apply (normalize_address_hex alice). reflexivity.
Defined.

Lemma validate_address_ascii_text_witness :
  validate_address (AddrStr (lit "canopy-account-00001")) = true /\
  (List.length (lit "canopy-account-00001") = 20%nat ->
   normalize_address (AddrStr (lit "canopy-account-00001")) =
   ok (List.map (fun c => byte_of_Z (Z.of_N c)) (lit "canopy-account-00001"))).
Proof.
  apply (validate_address_ascii_text (lit "canopy-account-00001"));
    reflexivity.
Defined.

Lemma deliver_tx_unsupported_type_witness :
  deliver_tx counting (contract_on [])
    {| deliver_tx_of :=
         {| msg := {| type_url := "type.googleapis.com/types.MessageStake";
                      value := [] |};
            fee := 10 |} |} start =
  (ok {| deliver_error :=
           Some {| err_code := 1;
                   err_module := "contract";
                   err_msg := "Unsupported message type: " ++
                              "type.googleapis.com/types.MessageStake" |} |},
   start).
Proof.
  apply (deliver_tx_unsupported_type counting (contract_on [])
           {| deliver_tx_of :=
                {| msg := {| type_url :=
                               "type.googleapis.com/types.MessageStake";
                             value := [] |};
                   fee := 10 |} |} start).
  reflexivity.
Defined.

Lemma deliver_tx_rejects_fee_witness :
  let s := [(account_key alice, account_bytes alice 100)] in
  deliver_tx counting (contract_on s)
             {| deliver_tx_of := send_tx alice bob 40 0 |} start =
  (ok {| deliver_error :=
           Some {| err_code := 1;
                   err_module := "contract";
                   err_msg := "Invalid amount: must be greater than 0" |} |},
   {| events := [EvParseMessage (value (msg (send_tx alice bob 40 0)))];
      draws := 0 |}).
Proof.
  intros s.
  apply (deliver_tx_rejects_fee counting (contract_on s)
           {| deliver_tx_of := send_tx alice bob 40 0 |}
           (send_message alice bob 40) start).
  - reflexivity.
  - reflexivity.
  - discriminate.
Defined.

Lemma deliver_tx_not_initialized_witness :
  deliver_tx counting {| config := None; plugin := None; fsm_id := None |}
             {| deliver_tx_of := send_tx alice bob 40 10 |} start =
  (ok {| deliver_error :=
           Some {| err_code := 1;
                   err_module := "contract";
                   err_msg := "Plugin or config not initialized" |} |},
   {| events := [EvParseMessage (value (msg (send_tx alice bob 40 10)))];
      draws := 0 |}).
Proof.
  apply (deliver_tx_not_initialized counting
           {| config := None; plugin := None; fsm_id := None |}
           {| deliver_tx_of := send_tx alice bob 40 10 |}
           (send_message alice bob 40) start).
  - reflexivity.
  - reflexivity.
  - reflexivity.
  - now left.
Defined.

Lemma deliver_tx_chain_id_out_of_range_witness :
  let s := [(account_key alice, account_bytes alice 100)] in
  deliver_tx counting
             {| config := Some {| chain_id := 2 ^ 64 |};
                plugin := Some (store_plugin s);
                fsm_id := Some 7 |}
             {| deliver_tx_of := send_tx alice bob 40 10 |} start =
  (ok {| deliver_error :=
           Some {| err_code := 1;
                   err_module := "contract";
                   err_msg := "Invalid uint64 value: " ++
                              str_of_int (2 ^ 64) |} |},
   {| events := [EvParseMessage (value (msg (send_tx alice bob 40 10)))];
      draws := 3 |}).
Proof.
  intros s.
  apply (deliver_tx_chain_id_out_of_range counting
           {| config := Some {| chain_id := 2 ^ 64 |};
              plugin := Some (store_plugin s);
              fsm_id := Some 7 |}
           {| deliver_tx_of := send_tx alice bob 40 10 |}
           (store_plugin s) {| chain_id := 2 ^ 64 |}
           (send_message alice bob 40) (account_key alice) (account_key bob)
           start).
  - reflexivity.
  - reflexivity.
  - reflexivity.
  - reflexivity.
  - reflexivity.
  - reflexivity.
  - reflexivity.
  - right. discriminate.
Defined.

Lemma collected_by_id_witness :
  let s := [(account_key alice, account_bytes alice 100);
            (fee_pool_key 1, pack_be64 1 ++ pack_be64 5)] in
  let sd := collected (ids_at counting 0) (answer_of s alice bob) in
  from_bytes sd = Some (account_bytes alice 100) /\
  to_bytes sd = None /\
  fee_pool_bytes sd = Some (pack_be64 1 ++ pack_be64 5).
Proof.
  intros s.
  apply (collected_by_id (ids_at counting 0) (answer_of s alice bob));
    discriminate.
Defined.

Lemma deliver_tx_read_failure_witness :
  let err := {| err_code := 77; err_module := "store";
                err_msg := "disk full" |} in
  deliver_tx counting (contract_with (refusing_read err))
             {| deliver_tx_of := send_tx alice bob 40 10 |} start =
  (ok {| deliver_error :=
           Some {| err_code := 4;
                   err_module := "plugin";
                   err_msg := "State read error: disk full" |} |},
   {| events := [EvParseMessage (value (msg (send_tx alice bob 40 10)));
                 EvStateRead (read_of alice bob)];
      draws := 3 |}).
Proof.
  intros err.
  apply (proj1 (deliver_tx_read_failure counting
                  (contract_with (refusing_read err))
                  {| deliver_tx_of := send_tx alice bob 40 10 |}
                  (refusing_read err) {| chain_id := 1 |}
                  (send_message alice bob 40)
                  (account_key alice) (account_key bob) start
                  ltac:(constructor; try reflexivity; vm_compute;
                        split; [discriminate|reflexivity]))
               {| read_error := Some err; results := [] |} err);
    reflexivity.
Defined.

Lemma deliver_tx_rejects_amount_witness :
  let s := [(account_key alice, account_bytes alice 100)] in
  deliver_tx counting (contract_on s)
             {| deliver_tx_of := send_tx alice bob 0 10 |} start =
  (ok {| deliver_error :=
           Some {| err_code := 1;
                   err_module := "contract";
                   err_msg := "Invalid amount: must be greater than 0" |} |},
   {| events := [EvParseMessage (value (msg (send_tx alice bob 0 10)));
                 EvStateRead (read_of alice bob)];
      draws := 3 |}).
Proof.
  intros s.
  apply (deliver_tx_rejects_amount counting (contract_on s)
           {| deliver_tx_of := send_tx alice bob 0 10 |}
           (store_plugin s) {| chain_id := 1 |}
           (send_message alice bob 0) (account_key alice) (account_key bob)
           (answer_of s alice bob) (balances alice bob 100 0 0) start).
  - constructor; try reflexivity. vm_compute. split; [discriminate|reflexivity].
  - reflexivity.
  - reflexivity.
  - reflexivity.
  - discriminate.
Defined.

Lemma deliver_tx_corrupt_sender_witness :
  let s := [(account_key alice, [x00; x01; x02])] in
  deliver_tx counting (contract_on s)
             {| deliver_tx_of := send_tx alice bob 40 10 |} start =
  (ok {| deliver_error :=
           Some {| err_code := 1;
                   err_module := "contract";
                   err_msg := "Unmarshal failed: Error parsing message" |} |},
   {| events := [EvParseMessage (value (msg (send_tx alice bob 40 10)));
                 EvStateRead (read_of alice bob)];
      draws := 3 |}).
Proof.
  intros s.
  apply (deliver_tx_corrupt_sender counting (contract_on s)
           {| deliver_tx_of := send_tx alice bob 40 10 |}
           (store_plugin s) {| chain_id := 1 |}
           (send_message alice bob 40) (account_key alice) (account_key bob)
           (answer_of s alice bob) x00 [x01; x02]
           (OtherError "Error parsing message") start).
  - constructor; try reflexivity. vm_compute. split; [discriminate|reflexivity].
  - reflexivity.
  - reflexivity.
  - reflexivity.
  - reflexivity.
Defined.

Example deliver_tx_unknown_sender_example :
  deliver_tx counting (contract_on [])
             {| deliver_tx_of := send_tx alice bob 40 10 |} start =
  (ok {| deliver_error :=
           Some {| err_code := 9;
                   err_module := "contract";
                   err_msg :=
                     "Insufficient funds: required 50, available 0" |} |},
   {| events := [EvParseMessage (value (msg (send_tx alice bob 40 10)));
                 EvStateRead (read_of alice bob)];
      draws := 3 |}).
Proof.
  apply (deliver_tx_unknown_sender counting (contract_on [])
           {| deliver_tx_of := send_tx alice bob 40 10 |}
           (store_plugin []) {| chain_id := 1 |}
           (send_message alice bob 40) (account_key alice) (account_key bob)
           (answer_of [] alice bob) start).
  - constructor; try reflexivity. vm_compute. split; [discriminate|reflexivity].
  - reflexivity.
  - reflexivity.
  - reflexivity.
  - reflexivity.
Qed.

Lemma deliver_tx_write_outcome_witness :
  let s := [(account_key alice, account_bytes alice 100)] in
  let err := {| err_code := 78; err_module := "store";
                err_msg := "read only" |} in
  exists w',
    deliver_tx counting (contract_with (refusing_write s err))
               {| deliver_tx_of := send_tx alice bob 40 10 |} start =
    (ok {| deliver_error := Some err |}, w').
Proof.
  intros s err. eexists.
  apply (deliver_tx_write_outcome counting
           (contract_with (refusing_write s err))
           {| deliver_tx_of := send_tx alice bob 40 10 |}
           (refusing_write s err) {| chain_id := 1 |}
           (send_message alice bob 40) (account_key alice) (account_key bob)
           (answer_of s alice bob) (balances alice bob 100 0 0) start).
  - constructor; try reflexivity. vm_compute. split; [discriminate|reflexivity].
  - constructor; reflexivity.
  - constructor; try reflexivity.
    + cbn. split; [discriminate|reflexivity].
    + intros _. cbn. split; [discriminate|reflexivity].
  - discriminate.
Defined.

Lemma deliver_tx_transfer_witness :
  let s := [(account_key alice, account_bytes alice 100);
            (account_key bob, account_bytes bob 7)] in
  exists r w',
    deliver_tx counting (contract_on s)
               {| deliver_tx_of := send_tx alice bob 40 10 |} start
    = (ok r, w') /\
    writes_of (events w') =
    [ {| sets :=
           [ {| set_key := fee_pool_key 1;
                set_value :=
                  serialize_pool {| pool_id := 1; pool_amount := 10 |} |};
             {| set_key := account_key alice;
                set_value :=
                  serialize_account
                    {| acc_address := alice; acc_amount := 50 |} |};
             {| set_key := account_key bob;
                set_value :=
                  serialize_account
                    {| acc_address := bob; acc_amount := 47 |} |} ];
         deletes := [] |} ].
Proof.
  intros s.
  destruct (deliver_tx_transfer counting (contract_on s)
              {| deliver_tx_of := send_tx alice bob 40 10 |}
              (store_plugin s) {| chain_id := 1 |}
              (send_message alice bob 40) (account_key alice)
              (account_key bob) (answer_of s alice bob)
              (balances alice bob 100 7 0) start) as [r [w' [E [W _]]]].
  - constructor; try reflexivity. vm_compute. split; [discriminate|reflexivity].
  - constructor; reflexivity.
  - constructor; try reflexivity.
    + cbn. split; [discriminate|reflexivity].
    + intros _. cbn. split; [discriminate|reflexivity].
  - discriminate.
  - reflexivity.
  - exists r, w'. split; [exact E | exact W].
Defined.

Lemma check_tx_accepts_witness :
  let s := [(fee_params_key, fee_params_bytes 5)] in
  check_tx (contract_on s) 7
           {| check_tx_of := send_tx alice bob 40 10 |} start =
  (ok {| recipient := bob; authorized_signers := [alice];
         check_error := None |},
   {| events := [EvStateRead (fee_request 7);
                 EvParseMessage (value (msg (send_tx alice bob 40 10)))];
      draws := 0 |}).
Proof.
  intros s.
  apply (check_tx_accepts (contract_on s) 7
           {| check_tx_of := send_tx alice bob 40 10 |}
           (store_plugin s) {| send_fee := 5 |}
           (send_message alice bob 40) start).
  - constructor.
    + reflexivity.
    + discriminate.
    + eexists. eexists. eexists. eexists. eexists.
      split; [reflexivity|].
      split; [reflexivity|].
      split; [reflexivity|].
      split; [reflexivity|].
      split; reflexivity.
  - split; [reflexivity | discriminate].
  - reflexivity.
  - reflexivity.
  - reflexivity.
  - reflexivity.
  - reflexivity.
Defined.

Lemma check_tx_rejects_message_witness :
  let s := [(fee_params_key, fee_params_bytes 5)] in
  check_tx (contract_on s) 7
           {| check_tx_of := send_tx alice bob 0 10 |} start =
  (ok {| recipient := []; authorized_signers := [];
         check_error := Some {| err_code := 13;
                                err_module := "contract";
                                err_msg := "Invalid amount: 0" |} |},
   {| events := [EvStateRead (fee_request 7);
                 EvParseMessage (value (msg (send_tx alice bob 0 10)))];
      draws := 0 |}).
Proof.
  intros s.
  apply (proj2 (proj2
           (check_tx_rejects_message (contract_on s) 7
              {| check_tx_of := send_tx alice bob 0 10 |}
              (store_plugin s) {| send_fee := 5 |}
              (send_message alice bob 0) start
              ltac:(constructor;
                    [ reflexivity | discriminate
                    | do 5 eexists; repeat (split; [reflexivity|]);
                      reflexivity ])
              ltac:(split; [reflexivity | discriminate])
              eq_refl eq_refl))).
  - reflexivity.
  - reflexivity.
  - discriminate.
Defined.

Lemma check_tx_unsupported_type_witness :
  let s := [(fee_params_key, fee_params_bytes 5)] in
  check_tx (contract_on s) 7
    {| check_tx_of :=
         {| msg := {| type_url := "type.googleapis.com/types.MessageStake";
                      value := [] |};
            fee := 10 |} |} start =
  (ok {| recipient := []; authorized_signers := [];
         check_error :=
           Some {| err_code := 1;
                   err_module := "contract";
                   err_msg := "Unsupported message type: " ++
                              "type.googleapis.com/types.MessageStake" |} |},
   {| events := [EvStateRead (fee_request 7)]; draws := 0 |}).
Proof.
  intros s.
  apply (check_tx_unsupported_type (contract_on s) 7
           {| check_tx_of :=
                {| msg := {| type_url :=
                               "type.googleapis.com/types.MessageStake";
                             value := [] |};
                   fee := 10 |} |}
           (store_plugin s) {| send_fee := 5 |} start).
  - constructor.
    + reflexivity.
    + discriminate.
    + do 5 eexists. repeat (split; [reflexivity|]). reflexivity.
  - split; [reflexivity | discriminate].
  - reflexivity.
Defined.

Lemma check_tx_rejects_fee_witness :
  let s := [(fee_params_key, [x00; x00; x00; x00; x00; x00; x00; x00])] in
  check_tx (contract_on s) 7
           {| check_tx_of := send_tx alice bob 40 10 |} start =
  (ok {| recipient := []; authorized_signers := [];
         check_error :=
           Some {| err_code := 1;
                   err_module := "contract";
                   err_msg := "Failed to normalize fee: " ++
                              "Invalid amount: must be greater than 0" |} |},
   {| events := [EvStateRead (fee_request 7)]; draws := 0 |}).
Proof.
  intros s.
  apply (check_tx_rejects_fee (contract_on s) 7
           {| check_tx_of := send_tx alice bob 40 10 |}
           (store_plugin s) {| send_fee := 0 |} start).
  - constructor.
    + reflexivity.
    + discriminate.
    + do 5 eexists. repeat (split; [reflexivity|]). reflexivity.
  - right. discriminate.
Defined.

Lemma check_tx_read_failure_witness :
  let err := {| err_code := 77; err_module := "store";
                err_msg := "disk full" |} in
  check_tx (contract_with (refusing_read err)) 7
           {| check_tx_of := send_tx alice bob 40 10 |} start =
  (ok {| recipient := []; authorized_signers := [];
         check_error := Some err |},
   {| events := [EvStateRead (fee_request 7)]; draws := 0 |}).
Proof.
  intros err.
  apply (proj1 (check_tx_read_failure (contract_with (refusing_read err)) 7
                  {| check_tx_of := send_tx alice bob 40 10 |}
                  (refusing_read err) start eq_refl
                  ltac:(discriminate))
               {| read_error := Some err; results := [] |} err);
    reflexivity.
Defined.

Lemma check_tx_fee_parameters_missing_witness :
  check_tx (contract_on []) 7
           {| check_tx_of := send_tx alice bob 40 10 |} start =
  (ok {| recipient := []; authorized_signers := [];
         check_error := Some {| err_code := 1;
                                err_module := "contract";
                                err_msg := "Fee parameters not found" |} |},
   {| events := [EvStateRead (fee_request 7)]; draws := 0 |}).
Proof.
  apply (proj1 (check_tx_fee_parameters_missing (contract_on []) 7
                  {| check_tx_of := send_tx alice bob 40 10 |}
                  (store_plugin [])
                  {| read_error := None;
                     results := [ {| result_query_id := 7;
                                     entries := [] |} ] |}
                  start eq_refl ltac:(discriminate) eq_refl eq_refl)).
  reflexivity.
Defined.

Lemma check_tx_not_initialized_witness :
  check_tx {| config := None; plugin := None; fsm_id := None |} 7
           {| check_tx_of := send_tx alice bob 40 10 |} start =
  (ok {| recipient := []; authorized_signers := [];
         check_error :=
           Some {| err_code := 1;
                   err_module := "contract";
                   err_msg := "Plugin or config not initialized" |} |},
   start).
Proof.
  apply (check_tx_not_initialized
           {| config := None; plugin := None; fsm_id := None |} 7
           {| check_tx_of := send_tx alice bob 40 10 |} start).
  now left.
Defined.

Lemma deliver_tx_rejects_address_witness :
  let short := firstn 19 alice in
  let s := [([x01; x01; x13] ++ short, account_bytes alice 100)] in
  deliver_tx (C:=truncating_codec) counting (contract_on s)
             {| deliver_tx_of := send_tx alice bob 40 10 |} start =
  (ok {| deliver_error :=
           Some {| err_code := 1;
                   err_module := "contract";
                   err_msg := "Invalid address: must be exactly 20 bytes" |} |},
   {| events := [EvParseMessage (value (msg (send_tx alice bob 40 10)));
                 EvStateRead
                   (read_request (ids_at counting 0)
                      ([x01; x01; x13] ++ short) (account_key bob)
                      (fee_pool_key 1))];
      draws := 3 |}).
Proof.
  intros short s.
  apply (deliver_tx_rejects_address (C:=truncating_codec) counting
           (contract_on s)
           {| deliver_tx_of := send_tx alice bob 40 10 |}
           (store_plugin s) {| chain_id := 1 |}
           (send_message short bob 40)
           ([x01; x01; x13] ++ short) (account_key bob)
           {| read_error := None;
              results :=
                List.map (answer_read s)
                  (keys (read_request (ids_at counting 0)
                           ([x01; x01; x13] ++ short) (account_key bob)
                           (fee_pool_key 1))) |}
           (balances alice bob 100 0 0) start).
  - constructor; try reflexivity. vm_compute. split; [discriminate|reflexivity].
  - constructor; reflexivity.
  - discriminate.
  - left. discriminate.
Defined.

Lemma key_for_fee_pool_domain_witness :
  key_for_fee_pool (PInt (2 ^ 64)) =
  raise (ValueError ("Invalid uint64 value: " ++ str_of_int (2 ^ 64))).
Proof.
  apply (proj1 (proj2 (key_for_fee_pool_domain (2 ^ 64)))).
  right. discriminate.
Defined.

Lemma normalize_address_spec_witness :
  normalize_address (AddrStr (lit "0xzz")) =
  raise (ValueError "Invalid address: must be exactly 20 bytes").
Proof.
  apply (proj1 (proj2 (normalize_address_spec (AddrStr (lit "0xzz"))))).
  reflexivity.
Defined.

Lemma normalize_amount_spec_witness :
  normalize_amount (PStr (lit "-5")) =
  raise (ValueError "Invalid amount: must be greater than 0").
Proof.
  apply (proj2 (normalize_amount_spec (PStr (lit "-5")))).
  reflexivity.
Defined.

Lemma unmarshal_required_data_spec_witness :
  _unmarshal_deliver_message_required_data
    (Some [x00; x01]) (Some [x02]) None (send_message alice bob 40) =
  raise (ValueError "Unmarshal failed: Error parsing message").
Proof.
  refine (proj1 (proj1 (proj2 (proj2
                   (unmarshal_required_data_spec
                      (Some [x00; x01]) (Some [x02]) None
                      (send_message alice bob 40))))
                (ValueError "Unmarshal failed: Error parsing message")
                _ _)); reflexivity.
Defined.

Lemma collected_id_collision_witness :
  let s := [(account_key alice, account_bytes alice 100);
            (account_key bob, account_bytes bob 7)] in
  let q := ids_at (fun n => match n with 2%nat => 1 | _ => 0 end) 0 in
  let response :=
    {| read_error := None;
       results :=
         List.map (answer_read s)
           (keys (read_request q (account_key alice) (account_key bob)
                               (fee_pool_key 1))) |} in
  to_bytes (collected q response) = None.
Proof.
  intros s q response.
  apply (proj1 (proj2 (collected_id_collision q response))).
  reflexivity.
Defined.

End FurtherFixtureFacts.
